(** * A limit order book: shallow embedding of [ob.cpp] and its properties

    The C++ engine keeps two price-ordered maps of FIFO queues of shared
    order pointers ([bids_], [asks_]) and a hash index from order id to the
    order pointer and its list position ([orders_]).  The embedding keeps
    that shape: orders live in a store addressed by pointers, the queues
    hold pointers, and every member function is a computation over the
    store and the three containers that may return, throw, or run out of
    loop fuel. *)

From stdpp Require Import gmap list numbers sorting.

Local Open Scope Z_scope.

(** ** Scalar types (ob.cpp, lines 16-21) *)

Inductive OrderType := GoodTillCancel | FillAndKill.
Inductive Side := Buy | Sell.

#[global] Instance OrderType_eq_dec : EqDecision OrderType.
Proof. solve_decision. Defined.
#[global] Instance Side_eq_dec : EqDecision Side.
Proof. solve_decision. Defined.

(** [Price] is [std::int32_t]; the engine only compares prices.
    [Quantity] is [std::uint32_t] and [OrderId] is [std::uint64_t]; both are
    naturals here, and the one place where the engine adds quantities
    ([GetOrderInfos]) wraps modulo [2^32] as the C++ type does. *)
Abbreviation Price := Z (only parsing).
Abbreviation Quantity := N (only parsing).
Abbreviation OrderId := N (only parsing).

Definition Quantity_modulus : N := 2 ^ 32.

Definition Quantity_add (a b : Quantity) : Quantity :=
  ((a + b) mod Quantity_modulus)%N.

(** ** Orders (lines 37-65) *)

Record Order := mkOrder {
  orderType_ : OrderType;
  orderId_ : OrderId;
  side_ : Side;
  price_ : Price;
  initialQuantity_ : Quantity;
  remainingQuantity_ : Quantity
}.

#[global] Instance Order_eq_dec : EqDecision Order.
Proof. solve_decision. Defined.

(** The constructor: an order starts entirely unfilled. *)
Definition Order_new (orderType : OrderType) (orderId : OrderId) (side : Side)
    (price : Price) (quantity : Quantity) : Order :=
  mkOrder orderType orderId side price quantity quantity.

Definition GetOrderId (o : Order) : OrderId := orderId_ o.
Definition GetSide (o : Order) : Side := side_ o.
Definition GetPrice (o : Order) : Price := price_ o.
Definition GetOrderType (o : Order) : OrderType := orderType_ o.
Definition GetInitialQuantity (o : Order) : Quantity := initialQuantity_ o.
Definition GetRemainingQuantity (o : Order) : Quantity := remainingQuantity_ o.
Definition IsFilled (o : Order) : bool := (GetRemainingQuantity o =? 0)%N.

(** Exceptions the engine can raise.  [bad_access] stands for the undefined
    behaviour of dereferencing a pointer that designates no order or of
    erasing through an iterator that is not in the list. *)
Inductive exn :=
  | logic_error (orderId : OrderId)
  | out_of_range
  | bad_access.

#[global] Instance exn_eq_dec : EqDecision exn.
Proof. solve_decision. Defined.

(** [Order::Fill] (lines 52-56) as a transition on the object: the object
    after the call, and the exception if one was thrown.  The subtraction is
    guarded, so it never wraps. *)
Definition with_remaining (o : Order) (remaining : Quantity) : Order :=
  mkOrder (orderType_ o) (orderId_ o) (side_ o) (price_ o)
    (initialQuantity_ o) remaining.

Definition Fill (quantity : Quantity) (o : Order) : Order * option exn :=
  if (GetRemainingQuantity o <? quantity)%N
  then (o, Some (logic_error (GetOrderId o)))
  else (with_remaining o (remainingQuantity_ o - quantity)%N, None).

(** ** Modify requests, trades and level snapshots (lines 23-26, 67-119) *)

Record OrderModify := mkOrderModify {
  om_orderId_ : OrderId;
  om_price_ : Price;
  om_side_ : Side;
  om_quantity_ : Quantity
}.

Definition ToOrder (om : OrderModify) (type : OrderType) : Order :=
  Order_new type (om_orderId_ om) (om_side_ om) (om_price_ om) (om_quantity_ om).

Record TradeInfo := mkTradeInfo {
  ti_orderId_ : OrderId;
  ti_price_ : Price;
  ti_quantity_ : Quantity
}.

Record Trade := mkTrade { bidTrade_ : TradeInfo; askTrade_ : TradeInfo }.

Abbreviation Trades := (list Trade) (only parsing).

Record LevelInfo := mkLevelInfo { li_price_ : Price; li_quantity_ : Quantity }.

Abbreviation LevelInfos := (list LevelInfo) (only parsing).

Record OrderbookLevelInfos := mkOrderbookLevelInfos {
  oli_bids_ : LevelInfos;
  oli_asks_ : LevelInfos
}.

#[global] Instance TradeInfo_eq_dec : EqDecision TradeInfo.
Proof. solve_decision. Defined.
#[global] Instance Trade_eq_dec : EqDecision Trade.
Proof. solve_decision. Defined.
#[global] Instance LevelInfo_eq_dec : EqDecision LevelInfo.
Proof. solve_decision. Defined.

(** ** Outcomes of a call *)

Inductive outcome (A : Type) :=
  | Ret (a : A)
  | Throw (e : exn)
  | OutOfFuel.
Arguments Ret {A} a.
Arguments Throw {A} e.
Arguments OutOfFuel {A}.

#[global] Instance outcome_ret : MRet outcome := @Ret.
#[global] Instance outcome_bind : MBind outcome := λ A B f m,
  match m with
  | Ret a => f a
  | Throw e => Throw e
  | OutOfFuel => OutOfFuel
  end.

(** ** Price-ordered maps ([std::map<Price, V, Compare>])

    A map is its list of entries in iteration order; [before] is the
    comparator ([std::greater] for bids, [std::less] for asks). *)

Section PriceMap.
Context {V : Type}.
Variable before : Price → Price → bool.

Abbreviation pmap := (list (Price * V)).

(** [m.at(k)], [None] where C++ throws [std::out_of_range]. *)
Fixpoint map_at (k : Price) (m : pmap) : option V :=
  match m with
  | [] => None
  | (k', v) :: m' => if k =? k' then Some v else map_at k m'
  end.

(** [m[k]]: the entry is created with the default value [d] when absent. *)
Fixpoint map_subscript (k : Price) (d : V) (m : pmap) : pmap :=
  match m with
  | [] => [(k, d)]
  | (k', v) :: m' =>
      if k =? k' then m
      else if before k k' then (k, d) :: m
      else (k', v) :: map_subscript k d m'
  end.

(** Assignment through a reference obtained from [m[k]] or [m.at(k)]. *)
Fixpoint map_assign (k : Price) (v : V) (m : pmap) : pmap :=
  match m with
  | [] => []
  | (k', v') :: m' =>
      if k =? k' then (k', v) :: m' else (k', v') :: map_assign k v m'
  end.

(** [m.erase(k)]. *)
Fixpoint map_erase (k : Price) (m : pmap) : pmap :=
  match m with
  | [] => []
  | (k', v') :: m' => if k =? k' then m' else (k', v') :: map_erase k m'
  end.
End PriceMap.

(** ** The engine state (lines 121-130) *)

Abbreviation OrderPointer := positive (only parsing).
Abbreviation OrderPointers := (list positive) (only parsing).

(** An entry of the index.  A [std::list] iterator is represented by the
    pointer stored in the node it designates. *)
Record OrderEntry := mkOrderEntry {
  order_ : OrderPointer;
  location_ : OrderPointer
}.

#[global] Instance OrderEntry_eq_dec : EqDecision OrderEntry.
Proof. solve_decision. Defined.

Record State := mkState {
  heap : gmap positive Order;
  bids_ : list (Price * OrderPointers);
  asks_ : list (Price * OrderPointers);
  orders_ : gmap N OrderEntry
}.

Definition empty_state : State := mkState ∅ [] [] ∅.

(** [std::make_shared<Order>(...)]: a new object at an unused address. *)
Definition make_shared (o : Order) (st : State) : OrderPointer * State :=
  let p := fresh (dom (heap st)) in
  (p, mkState (<[p := o]> (heap st)) (bids_ st) (asks_ st) (orders_ st)).

Definition deref (h : gmap positive Order) (p : OrderPointer) : outcome Order :=
  match h !! p with
  | Some o => Ret o
  | None => Throw bad_access
  end.

(** [p->Fill(quantity)] *)
Definition Order_Fill (p : OrderPointer) (quantity : Quantity)
    (h : gmap positive Order) : outcome (gmap positive Order) :=
  o ← deref h p;
  match Fill quantity o with
  | (o', None) => Ret (<[p := o']> h)
  | (_, Some e) => Throw e
  end.

(** ** Private helpers of [Orderbook] *)

(** [CanMatch] (lines 132-142). *)
Definition CanMatch (side : Side) (price : Price) (st : State) : bool :=
  match side with
  | Buy =>
      match asks_ st with
      | [] => false
      | (bestAsk, _) :: _ => price >=? bestAsk
      end
  | Sell =>
      match bids_ st with
      | [] => false
      | (bestBid, _) :: _ => price <=? bestBid
      end
  end.

(** Lines 180-181: a level whose queue is empty is erased from its map. *)
Definition erase_if_empty (price : Price) (orders : OrderPointers)
    (rest : list (Price * OrderPointers)) : list (Price * OrderPointers) :=
  match orders with
  | [] => rest
  | _ => (price, orders) :: rest
  end.

(** The body of the inner loop of [MatchOrders] (lines 157-177) on the two
    queues [bids] and [asks] whose front elements are [bid] and [ask]; the
    trade it builds is returned to the loop, which pushes it.  After
    [pop_front] the source still reads the id through the reference [bid];
    the embedding reads the order that [bid] designated. *)
Definition trade_front (bid ask : OrderPointer) (bids asks : OrderPointers)
    (h : gmap positive Order) (orders : gmap N OrderEntry)
  : outcome (OrderPointers * OrderPointers * gmap positive Order
             * gmap N OrderEntry * Trade) :=
  b ← deref h bid;
  a ← deref h ask;
  let quantity := N.min (GetRemainingQuantity b) (GetRemainingQuantity a) in
  h ← Order_Fill bid quantity h;
  h ← Order_Fill ask quantity h;
  b ← deref h bid;
  a ← deref h ask;
  let trade :=
    mkTrade (mkTradeInfo (GetOrderId b) (GetPrice b) quantity)
            (mkTradeInfo (GetOrderId a) (GetPrice a) quantity) in
  let '(bids, orders) :=
    if IsFilled b then (tail bids, delete (GetOrderId b) orders)
    else (bids, orders) in
  let '(asks, orders) :=
    if IsFilled a then (tail asks, delete (GetOrderId a) orders)
    else (asks, orders) in
  Ret (bids, asks, h, orders, trade).

(** The inner loop (lines 156-178). *)
Fixpoint match_level (fuel : nat) (bids asks : OrderPointers)
    (h : gmap positive Order) (orders : gmap N OrderEntry) (trades : Trades)
  : outcome (OrderPointers * OrderPointers * gmap positive Order
             * gmap N OrderEntry * Trades) :=
  match bids, asks with
  | bid :: _, ask :: _ =>
      match fuel with
      | O => OutOfFuel
      | S fuel =>
          r ← trade_front bid ask bids asks h orders;
          let '(bids, asks, h, orders, trade) := r in
          match_level fuel bids asks h orders (trades ++ [trade])
      end
  | _, _ => Ret (bids, asks, h, orders, trades)
  end.

(** The body of the outer loop after the price test (lines 153-181): the
    two best queues are matched against each other and an emptied level is
    erased. *)
Definition match_best (bidPrice askPrice : Price) (bids asks : OrderPointers)
    (bids_rest asks_rest : list (Price * OrderPointers))
    (h : gmap positive Order) (orders : gmap N OrderEntry) (trades : Trades)
  : outcome (Trades * State) :=
  r ← match_level (length bids + length asks) bids asks h orders trades;
  let '(bids, asks, h, orders, trades) := r in
  Ret (trades,
       mkState h (erase_if_empty bidPrice bids bids_rest)
         (erase_if_empty askPrice asks asks_rest) orders).

(** The outer loop (lines 147-182). *)
Fixpoint MatchOrders_loop (fuel : nat) (st : State) (trades : Trades)
  : outcome (Trades * State) :=
  match bids_ st, asks_ st with
  | (bidPrice, bids) :: bids_rest, (askPrice, asks) :: asks_rest =>
      if bidPrice <? askPrice then Ret (trades, st)
      else
        match fuel with
        | O => OutOfFuel
        | S fuel =>
            r ← match_best bidPrice askPrice bids asks bids_rest asks_rest
                  (heap st) (orders_ st) trades;
            MatchOrders_loop fuel r.2 r.1
        end
  | _, _ => Ret (trades, st)
  end.

(** [MatchOrders] (lines 144-185).  Every turn of the outer loop erases a
    level, so the number of levels bounds the number of turns. *)
Definition MatchOrders (st : State) : outcome (Trades * State) :=
  MatchOrders_loop (length (bids_ st) + length (asks_ st)) st [].

(** ** Public operations *)

(** [bids_[price].push_back(order)] *)
Definition map_push (before : Price → Price → bool) (price : Price)
    (order : OrderPointer) (m : list (Price * OrderPointers))
  : list (Price * OrderPointers) :=
  let m := map_subscript before price [] m in
  match map_at price m with
  | Some orders => map_assign price (orders ++ [order]) m
  | None => m
  end.

(** [orders_.insert({k, e})] keeps an existing entry. *)
Definition umap_insert (k : OrderId) (e : OrderEntry) (m : gmap N OrderEntry)
  : gmap N OrderEntry :=
  match m !! k with
  | Some _ => m
  | None => <[k := e]> m
  end.

(** Lines 194-206 of [AddOrder]: the order joins the tail of the queue of
    its price level and is recorded in the index. *)
Definition enqueue (order : OrderPointer) (o : Order) (st : State) : State :=
  let st :=
    match GetSide o with
    | Buy =>
        mkState (heap st) (map_push Z.gtb (GetPrice o) order (bids_ st))
          (asks_ st) (orders_ st)
    | Sell =>
        mkState (heap st) (bids_ st)
          (map_push Z.ltb (GetPrice o) order (asks_ st)) (orders_ st)
    end in
  mkState (heap st) (bids_ st) (asks_ st)
    (umap_insert (GetOrderId o) (mkOrderEntry order order) (orders_ st)).

(** [AddOrder] (lines 188-208). *)
Definition AddOrder (order : OrderPointer) (st : State)
  : outcome (Trades * State) :=
  o ← deref (heap st) order;
  if decide (is_Some (orders_ st !! GetOrderId o)) then Ret ([], st)
  else if bool_decide (GetOrderType o = FillAndKill)
          && negb (CanMatch (GetSide o) (GetPrice o) st)
  then Ret ([], st)
  else MatchOrders (enqueue order o st).

(** [orders.erase(iterator)] on a [std::list]. *)
Fixpoint list_erase (it : OrderPointer) (l : OrderPointers)
  : option OrderPointers :=
  match l with
  | [] => None
  | p :: l' =>
      if decide (p = it) then Some l' else (p ::.) <$> list_erase it l'
  end.

(** The two branches of [CancelOrder] (lines 218-220 and 222-224) on one
    side's map. *)
Definition cancel_in (price : Price) (it : OrderPointer)
    (m : list (Price * OrderPointers))
  : outcome (list (Price * OrderPointers)) :=
  match map_at price m with
  | None => Throw out_of_range
  | Some orders =>
      match list_erase it orders with
      | None => Throw bad_access
      | Some [] => Ret (map_erase price (map_assign price [] m))
      | Some orders' => Ret (map_assign price orders' m)
      end
  end.

(** [CancelOrder] (lines 210-226).  The source binds [order] and
    [iterator] by reference to the index entry and reads them after the
    entry is erased; the embedding reads the values the entry held. *)
Definition CancelOrder (orderId : OrderId) (st : State)
  : outcome (unit * State) :=
  match orders_ st !! orderId with
  | None => Ret (tt, st)
  | Some (mkOrderEntry order iterator) =>
      let orders := delete orderId (orders_ st) in
      o ← deref (heap st) order;
      let price := GetPrice o in
      match GetSide o with
      | Sell =>
          asks ← cancel_in price iterator (asks_ st);
          Ret (tt, mkState (heap st) (bids_ st) asks orders)
      | Buy =>
          bids ← cancel_in price iterator (bids_ st);
          Ret (tt, mkState (heap st) bids (asks_ st) orders)
      end
  end.

(** [MatchOrder] (lines 228-233).  [existingOrder] is bound before the
    cancel and its type is read after it, as the source evaluates it. *)
Definition MatchOrder (order : OrderModify) (st : State)
  : outcome (Trades * State) :=
  match orders_ st !! om_orderId_ order with
  | None => Ret ([], st)
  | Some (mkOrderEntry existingOrder _) =>
      r ← CancelOrder (om_orderId_ order) st;
      let st := r.2 in
      existing ← deref (heap st) existingOrder;
      let '(p, st) := make_shared (ToOrder order (GetOrderType existing)) st in
      AddOrder p st
  end.

(** [Size] (line 235). *)
Definition Size (st : State) : outcome (nat * State) :=
  Ret (size (orders_ st), st).

(** [std::accumulate] over one queue with the [Quantity] accumulator of
    line 241. *)
Fixpoint accumulate (h : gmap positive Order) (orders : OrderPointers)
    (sum : Quantity) : outcome Quantity :=
  match orders with
  | [] => Ret sum
  | order :: rest =>
      o ← deref h order;
      accumulate h rest (Quantity_add sum (GetRemainingQuantity o))
  end.

Definition CreateLevelInfo (h : gmap positive Order) (price : Price)
    (orders : OrderPointers) : outcome LevelInfo :=
  q ← accumulate h orders 0%N;
  Ret (mkLevelInfo price q).

(** The range-for loops of lines 247-248. *)
Fixpoint level_infos (h : gmap positive Order)
    (m : list (Price * OrderPointers)) (infos : LevelInfos)
  : outcome LevelInfos :=
  match m with
  | [] => Ret infos
  | (price, orders) :: m' =>
      li ← CreateLevelInfo h price orders;
      level_infos h m' (infos ++ [li])
  end.

(** [GetOrderInfos] (lines 237-251). *)
Definition GetOrderInfos (st : State) : outcome (OrderbookLevelInfos * State) :=
  bidInfos ← level_infos (heap st) (bids_ st) [];
  askInfos ← level_infos (heap st) (asks_ st) [];
  Ret (mkOrderbookLevelInfos bidInfos askInfos, st).


(** ** Well-formed states

    The comparators are strict total orders, and a [std::map] keeps its
    entries sorted by its comparator. *)

Class PriceOrder (before : Price → Price → bool) := {
  before_irrefl a : before a a = false;
  before_trans a b c :
    before a b = true → before b c = true → before a c = true;
  before_total a b : a ≠ b → before a b = true ∨ before b a = true
}.

#[global] Instance gtb_PriceOrder : PriceOrder Z.gtb.
Proof. split; intros; lia. Qed.

#[global] Instance ltb_PriceOrder : PriceOrder Z.ltb.
Proof. split; intros; lia. Qed.

Definition price_sorted {V} (before : Price → Price → bool)
    (m : list (Price * V)) : Prop :=
  StronglySorted (λ x y, before x.1 y.1 = true) m.

#[global] Instance price_sorted_dec {V} before (m : list (Price * V)) :
  Decision (price_sorted before m).
Proof. unfold price_sorted. apply _. Defined.

Definition book (s : Side) (st : State) : list (Price * OrderPointers) :=
  match s with Buy => bids_ st | Sell => asks_ st end.

Definition before (s : Side) : Price → Price → bool :=
  match s with Buy => Z.gtb | Sell => Z.ltb end.

#[global] Instance before_PriceOrder s : PriceOrder (before s).
Proof. destruct s; apply _. Qed.

(** The order behind [p] may rest at price [pr] on side [s]: it has that
    side and price, and the index sends its id back to [p]. *)
Definition rests_ok (st : State) (s : Side) (pr : Price) (p : OrderPointer)
  : Prop :=
  match heap st !! p with
  | Some o =>
      GetSide o = s ∧ GetPrice o = pr ∧
      orders_ st !! GetOrderId o = Some (mkOrderEntry p p)
  | None => False
  end.

Definition level_ok (st : State) (s : Side) (lvl : Price * OrderPointers)
  : Prop :=
  lvl.2 ≠ [] ∧ NoDup lvl.2 ∧ Forall (rests_ok st s lvl.1) lvl.2.

(** The index entry [e] of [id] designates a live order with that id which
    is in the queue of its own side and price. *)
Definition entry_ok (st : State) (id : OrderId) (e : OrderEntry) : Prop :=
  location_ e = order_ e ∧
  match heap st !! order_ e with
  | Some o =>
      GetOrderId o = id ∧
      match map_at (GetPrice o) (book (GetSide o) st) with
      | Some q => order_ e ∈ q
      | None => False
      end
  | None => False
  end.

Definition wf (st : State) : Prop :=
  price_sorted Z.gtb (bids_ st) ∧ price_sorted Z.ltb (asks_ st) ∧
  Forall (level_ok st Buy) (bids_ st) ∧ Forall (level_ok st Sell) (asks_ st) ∧
  map_Forall (entry_ok st) (orders_ st).

#[global] Instance rests_ok_dec st s pr p : Decision (rests_ok st s pr p).
Proof. unfold rests_ok. destruct (heap st !! p); apply _. Defined.

#[global] Instance level_ok_dec st s lvl : Decision (level_ok st s lvl).
Proof. unfold level_ok. apply _. Defined.

#[global] Instance entry_ok_dec st id e : Decision (entry_ok st id e).
Proof.
  unfold entry_ok. destruct (heap st !! order_ e) as [o|]; [|apply _].
  destruct (map_at (GetPrice o) (book (GetSide o) st)); apply _.
Defined.

#[global] Instance wf_dec st : Decision (wf st).
Proof. unfold wf. apply _. Defined.

(** The book is not crossed: a side is empty or the best bid is below the
    best ask. *)
Definition uncrossed (st : State) : Prop :=
  match bids_ st, asks_ st with
  | (bestBid, _) :: _, (bestAsk, _) :: _ => bestBid < bestAsk
  | _, _ => True
  end.

#[global] Instance uncrossed_dec st : Decision (uncrossed st).
Proof.
  unfold uncrossed. destruct (bids_ st) as [|[??]?]; [apply _|].
  destruct (asks_ st) as [|[??]?]; apply _.
Defined.

(** ** One pairing at a time

    The matching algorithm as the specification words it: while the best
    levels cross, the two head orders trade once and emptied levels are
    removed before the next pair is examined. *)
Definition cross_step (st : State) : outcome (option (Trade * State)) :=
  match bids_ st, asks_ st with
  | (bidPrice, bid :: bids) :: bids_rest, (askPrice, ask :: asks) :: asks_rest =>
      if bidPrice <? askPrice then Ret None
      else
        r ← trade_front bid ask (bid :: bids) (ask :: asks)
              (heap st) (orders_ st);
        let '(bids, asks, h, orders, trade) := r in
        Ret (Some (trade,
          mkState h (erase_if_empty bidPrice bids bids_rest)
            (erase_if_empty askPrice asks asks_rest) orders))
  | _, _ => Ret None
  end.

Fixpoint cross_loop (fuel : nat) (st : State) : outcome (Trades * State) :=
  r ← cross_step st;
  match r with
  | None => Ret ([], st)
  | Some (trade, st') =>
      match fuel with
      | O => OutOfFuel
      | S fuel => r ← cross_loop fuel st'; Ret (trade :: r.1, r.2)
      end
  end.

(** The orders resting in the book, best level first. *)
Definition resting (st : State) : OrderPointers :=
  concat (bids_ st).*2 ++ concat (asks_ st).*2.

Definition levels_nonempty (st : State) : Prop :=
  Forall (λ lvl, lvl.2 ≠ []) (bids_ st) ∧ Forall (λ lvl, lvl.2 ≠ []) (asks_ st).

(** ** Reachable states

    A caller creates orders with [make_shared] and drives the engine
    through its public operations. *)
Inductive step : State → State → Prop :=
  | step_make_shared o st :
      step st (make_shared o st).2
  | step_AddOrder order st trades st' :
      AddOrder order st = Ret (trades, st') → step st st'
  | step_CancelOrder orderId st st' :
      CancelOrder orderId st = Ret (tt, st') → step st st'
  | step_MatchOrder order st trades st' :
      MatchOrder order st = Ret (trades, st') → step st st'.

Definition reachable (st : State) : Prop := rtc step empty_state st.

(** ** Notions used by the statements *)

(** Well-formedness looks at the identity, side and price of the stored
    orders only, so it survives fills and allocations. *)
Definition heap_agrees (h h' : gmap positive Order) : Prop :=
  ∀ p o, h !! p = Some o →
    ∃ o', h' !! p = Some o' ∧ GetOrderId o' = GetOrderId o ∧
          GetSide o' = GetSide o ∧ GetPrice o' = GetPrice o.

Definition with_book (s : Side) (m : list (Price * OrderPointers))
    (orders : gmap N OrderEntry) (st : State) : State :=
  match s with
  | Buy => mkState (heap st) m (asks_ st) orders
  | Sell => mkState (heap st) (bids_ st) m orders
  end.

(** Some resting order on the other side is priced so that an order of
    this side and price trades against it. *)
Definition priced_to_cross (side : Side) (price : Price) (st : State) : Prop :=
  match side with
  | Buy => ∃ ap aq, map_at ap (asks_ st) = Some aq ∧ ap ≤ price
  | Sell => ∃ bp bq, map_at bp (bids_ st) = Some bq ∧ price ≤ bp
  end.


Definition highest_bid (st : State) (p : Price) : Prop :=
  is_Some (map_at p (bids_ st)) ∧
  ∀ p', is_Some (map_at p' (bids_ st)) → p' ≤ p.

Definition lowest_ask (st : State) (p : Price) : Prop :=
  is_Some (map_at p (asks_ st)) ∧
  ∀ p', is_Some (map_at p' (asks_ st)) → p ≤ p'.

(** The sum of the remaining quantities of the orders of one queue, as a
    natural number. *)
Definition level_total (h : gmap positive Order) (orders : OrderPointers) : N :=
  foldr (λ p acc, (from_option GetRemainingQuantity 0 (h !! p) + acc)%N)
    0%N orders.

(** One pair per level with the exact total: the snapshot as the
    specification words it. *)
Definition exact_snapshot (h : gmap positive Order)
    (m : list (Price * OrderPointers)) : LevelInfos :=
  (λ lvl, mkLevelInfo lvl.1 (level_total h lvl.2)) <$> m.

(** One pair per level with the total reduced modulo [2^32]. *)
Definition wrapped_snapshot (h : gmap positive Order)
    (m : list (Price * OrderPointers)) : LevelInfos :=
  (λ lvl, mkLevelInfo lvl.1 (level_total h lvl.2 mod Quantity_modulus)%N) <$> m.

(** The queue slots that hold an order with the given id. *)
Definition resting_with_id (st : State) (id : OrderId) : OrderPointers :=
  filter (λ p, GetOrderId <$> heap st !! p = Some id) (resting st).

Definition levels_all_nonempty (m : list (Price * OrderPointers)) : Prop :=
  Forall (λ lvl, lvl.2 ≠ []) m.

(** [loops_agree n]: on a book of at most [n] resting orders the outer
    loop of [MatchOrders] computes what the one-pair loop computes.
    [level_agrees n]: so does the inner loop followed by the rest of the
    outer loop. *)
Definition loops_agree (n : nat) : Prop :=
  ∀ st fo acc,
    (length (resting st) ≤ n)%nat → levels_nonempty st →
    (length (bids_ st) + length (asks_ st) ≤ fo)%nat →
    MatchOrders_loop fo st acc =
      r ← cross_loop n st; Ret (acc ++ r.1, r.2).

Definition level_agrees (n : nat) : Prop :=
  ∀ fi bp bq br ap aq ar h idx acc fo,
    bq ≠ [] → aq ≠ [] → (bp <? ap) = false →
    levels_all_nonempty br → levels_all_nonempty ar →
    (length (resting (mkState h ((bp, bq) :: br) ((ap, aq) :: ar) idx)) ≤ n)%nat →
    (length bq + length aq ≤ fi)%nat →
    (S (length br + length ar) ≤ fo)%nat →
    (r ← match_level fi bq aq h idx acc;
     MatchOrders_loop fo
       (mkState r.1.1.2 (erase_if_empty bp r.1.1.1.1 br)
          (erase_if_empty ap r.1.1.1.2 ar) r.1.2) r.2) =
    r ← cross_loop n (mkState h ((bp, bq) :: br) ((ap, aq) :: ar) idx);
    Ret (acc ++ r.1, r.2).

(** ** Example states *)

(** One resting buy order (id 1, 10 at 100).  The store also holds two
    orders that were created but not yet submitted: a second order with
    id 1, and a fill-and-kill sell at 101. *)
Definition one_bid : State :=
  mkState
    (<[1%positive := Order_new GoodTillCancel 1 Buy 100 10]>
       (<[2%positive := Order_new GoodTillCancel 1 Sell 100 5]>
          (<[3%positive := Order_new FillAndKill 3 Sell 101 5]> ∅)))
    [(100, [1%positive])] []
    (<[1%N := mkOrderEntry 1 1]> ∅).

(** A book with one bid and one ask at the same price, not yet matched:
    the state in which [AddOrder] calls [MatchOrders] after a sell of 4 at
    100 joined a resting buy of 10 at 100. *)
Definition crossed_book : State :=
  mkState
    (<[1%positive := Order_new GoodTillCancel 1 Buy 100 10]>
       (<[2%positive := Order_new GoodTillCancel 2 Sell 100 4]> ∅))
    [(100, [1%positive])] [(100, [2%positive])]
    (<[1%N := mkOrderEntry 1 1]> (<[2%N := mkOrderEntry 2 2]> ∅)).

(** The engine after a buy of 10 at 100 (id 1) was submitted and a sell
    of 5 at 101 (id 2) was created. *)
Definition bid_and_new_ask : State :=
  mkState
    (<[1%positive := Order_new GoodTillCancel 1 Buy 100 10]>
       (<[2%positive := Order_new GoodTillCancel 2 Sell 101 5]> ∅))
    [(100, [1%positive])] []
    (<[1%N := mkOrderEntry 1 1]> ∅).

(** The same engine after that sell was submitted. *)
Definition bid_and_ask : State :=
  mkState (heap bid_and_new_ask) [(100, [1%positive])] [(101, [2%positive])]
    (<[2%N := mkOrderEntry 2 2]> (orders_ bid_and_new_ask)).

(** Two buys of 3,000,000,000 each resting at 100. *)
Definition two_large_bids : State :=
  mkState
    (<[1%positive := Order_new GoodTillCancel 1 Buy 100 3000000000]>
       (<[2%positive := Order_new GoodTillCancel 2 Buy 100 3000000000]> ∅))
    [(100, [1%positive; 2%positive])] []
    (<[1%N := mkOrderEntry 1 1]> (<[2%N := mkOrderEntry 2 2]> ∅)).

(** The engine after a sell of 5 at 100 (id 1) was submitted and a
    fill-and-kill buy of 10 at 100 (id 2) was created. *)
Definition ask_and_new_fak : State :=
  mkState
    (<[1%positive := Order_new GoodTillCancel 1 Sell 100 5]>
       (<[2%positive := Order_new FillAndKill 2 Buy 100 10]> ∅))
    [] [(100, [1%positive])]
    (<[1%N := mkOrderEntry 1 1]> ∅).

(** ** The rest of the order interface and the id generator *)

(** Subtraction on [Quantity] wraps modulo [2^32]. *)
Definition Quantity_sub (a b : Quantity) : Quantity :=
  ((a mod Quantity_modulus + Quantity_modulus - b mod Quantity_modulus)
   mod Quantity_modulus)%N.

(** [GetFilledQuantity] (line 49). *)
Definition GetFilledQuantity (o : Order) : Quantity :=
  Quantity_sub (GetInitialQuantity o) (GetRemainingQuantity o).

(** A caller filling one order several times in a row; the first throw
    ends the sequence. *)
Fixpoint Fill_all (quantities : list Quantity) (o : Order)
  : Order * option exn :=
  match quantities with
  | [] => (o, None)
  | quantity :: rest =>
      match Fill quantity o with
      | (o', None) => Fill_all rest o'
      | thrown => thrown
      end
  end.

Definition total (quantities : list Quantity) : N :=
  foldr N.add 0%N quantities.

Definition OrderId_modulus : N := 2 ^ 64.

(** [GenerateOrderId] (lines 28-31) as a transition on its static
    counter: the id returned and the counter after the call. *)
Definition GenerateOrderId (currentId : OrderId) : OrderId * OrderId :=
  (currentId, ((currentId + 1) mod OrderId_modulus)%N).

(** The initial value of the static counter (line 29). *)
Definition initial_currentId : OrderId := 1000%N.

(** The ids of [n] successive calls, and the counter after them. *)
Fixpoint GenerateOrderIds (n : nat) (currentId : OrderId)
  : list OrderId * OrderId :=
  match n with
  | O => ([], currentId)
  | S n =>
      let '(id, currentId) := GenerateOrderId currentId in
      let '(ids, currentId) := GenerateOrderIds n currentId in
      (id :: ids, currentId)
  end.

(** ** Notions used by the further properties *)

(** From [h] to [h'] the stored orders were at most filled: every order of
    [h] is still there with its type, id, side, price and initial quantity,
    and with no more remaining than before. *)
Definition only_fills (h h' : gmap positive Order) : Prop :=
  ∀ p o, h !! p = Some o →
    ∃ o', h' !! p = Some o' ∧
          o' = with_remaining o (GetRemainingQuantity o') ∧
          (GetRemainingQuantity o' ≤ GetRemainingQuantity o)%N.

(** What is left after the fill-and-kill buy of [ask_and_new_fak] was
    submitted: the sell is filled and gone, the buy rests with 5. *)
Definition fak_rests : State :=
  mkState
    (<[1%positive := mkOrder GoodTillCancel 1 Sell 100 5 0]>
       (<[2%positive := mkOrder FillAndKill 2 Buy 100 10 5]> ∅))
    [(100, [2%positive])] []
    (<[2%N := mkOrderEntry 2 2]> ∅).

(** A trade is between two different orders, for one quantity on both
    sides, at a buy price that is not below the sell price. *)
Definition fair_trade (t : Trade) : Prop :=
  ti_orderId_ (bidTrade_ t) ≠ ti_orderId_ (askTrade_ t) ∧
  ti_quantity_ (bidTrade_ t) = ti_quantity_ (askTrade_ t) ∧
  ti_price_ (askTrade_ t) ≤ ti_price_ (bidTrade_ t).

(** The queue of one side at one price, front first; empty when the level
    does not exist. *)
Definition queue_at (s : Side) (pr : Price) (st : State) : OrderPointers :=
  default [] (map_at pr (book s st)).

(** From [st] to [st'] no queue gained an order or changed the order of
    the orders it kept. *)
Definition queues_shrink (st st' : State) : Prop :=
  ∀ s pr, queue_at s pr st' `sublist_of` queue_at s pr st.

(** Every queue of [st'] is a subsequence of the queue it was in [st],
    followed by at most one order that was not resting in [st]. *)
Definition keeps_time_priority (st st' : State) : Prop :=
  ∀ s pr, ∃ new,
    queue_at s pr st' `sublist_of` queue_at s pr st ++ new ∧
    (length new ≤ 1)%nat ∧ ∀ p, p ∈ new → p ∉ resting st.


(** The half of a trade that belongs to the order of side [s]. *)
Definition own_side (s : Side) (t : Trade) : TradeInfo :=
  match s with Buy => bidTrade_ t | Sell => askTrade_ t end.

(** The quantity that changed hands over a list of trades. *)
Definition traded (trades : Trades) : N :=
  foldr (λ t acc, (ti_quantity_ (bidTrade_ t) + acc)%N) 0%N trades.

(** Every level of [bids] is priced below every level of [asks]. *)
Definition apart (bids asks : list (Price * OrderPointers)) : Prop :=
  ∀ bp ap, bp ∈ bids.*1 → ap ∈ asks.*1 → bp < ap.

(** The state of the matching loop while the order just submitted is
    trading: [order] is alone in the best level of its side [s], at price
    [pr], and no level behind it crosses the other side. *)
Definition taking (s : Side) (order : OrderPointer) (pr : Price) (st : State)
  : Prop :=
  match s with
  | Buy => ∃ rest, bids_ st = (pr, [order]) :: rest ∧ apart rest (asks_ st)
  | Sell => ∃ rest, asks_ st = (pr, [order]) :: rest ∧ apart (bids_ st) rest
  end.


(** ** The driver ([main], lines 294-349)

    The generator is an oracle: [rng i] holds the four numbers it hands to
    the distributions in turn [i] of the loop, in the order of lines
    305-308.  What the program writes is kept as a list of events that
    carry the values printed; the sleep of line 332 does not touch the
    book. *)

Record Draws := mkDraws {
  sideDraw : Z;
  typeDraw : Z;
  priceDraw : Z;
  qtyDraw : Z
}.

(** The ranges of the four distributions (lines 297-300). *)
Definition in_range (d : Draws) : Prop :=
  0 ≤ sideDraw d ≤ 1 ∧ 0 ≤ typeDraw d ≤ 1 ∧
  1 ≤ priceDraw d ≤ 1000 ∧ 1 ≤ qtyDraw d ≤ 1000.

Inductive Output :=
  | OrderPlaced (id : OrderId) (type : OrderType) (side : Side)
      (price : Price) (qty : Quantity)
  | TradeExecuted (buyId sellId : OrderId) (price : Price) (quantity : Quantity)
  | BookPrinted (info : OrderbookLevelInfos)
  | FinalState (info : OrderbookLevelInfos).

(** The book, the static counter of [GenerateOrderId], and what was
    written so far. *)
Record Driver := mkDriver {
  orderbook : State;
  currentId : OrderId;
  output : list Output
}.

(** Lines 322-327: a trade is reported with the price and quantity of its
    buy half. *)
Definition trade_line (trade : Trade) : Output :=
  TradeExecuted (ti_orderId_ (bidTrade_ trade)) (ti_orderId_ (askTrade_ trade))
    (ti_price_ (bidTrade_ trade)) (ti_quantity_ (bidTrade_ trade)).

(** One turn of the loop (lines 305-332).  The quantity drawn is an [int]
    stored into the unsigned [Quantity]. *)
Definition main_turn (d : Draws) (w : Driver) : outcome Driver :=
  let side := if sideDraw d =? 0 then Buy else Sell in
  let type := if typeDraw d =? 0 then GoodTillCancel else FillAndKill in
  let price := priceDraw d in
  let qty := Z.to_N (qtyDraw d mod 2 ^ 32) in
  let '(id, nextId) := GenerateOrderId (currentId w) in
  let '(order, st) :=
    make_shared (Order_new type id side price qty) (orderbook w) in
  r ← AddOrder order st;
  info ← GetOrderInfos r.2;
  Ret (mkDriver info.2 nextId
         (output w ++ OrderPlaced id type side price qty ::
            (trade_line <$> r.1) ++ [BookPrinted info.1])).

Fixpoint main_loop (rng : nat → Draws) (i n : nat) (w : Driver)
  : outcome Driver :=
  match n with
  | O => Ret w
  | S n => w ← main_turn (rng i) w; main_loop rng (S i) n w
  end.

Definition initial_driver : Driver :=
  mkDriver empty_state initial_currentId [].

(** [main]: 5000 turns, then the final state of the book is written. *)
Definition main (rng : nat → Draws) : outcome (list Output) :=
  w ← main_loop rng 0 5000 initial_driver;
  bookInfo ← GetOrderInfos (orderbook w);
  Ret (output w ++ [FinalState bookInfo.1]).

(** The level totals of a book, without wrap-around. *)
Definition snapshot_of (st : State) : OrderbookLevelInfos :=
  mkOrderbookLevelInfos (exact_snapshot (heap st) (bids_ st))
    (exact_snapshot (heap st) (asks_ st)).

(** What holds of the driver after [n] turns. *)
Definition driver_inv (n : nat) (w : Driver) : Prop :=
  reachable (orderbook w) ∧
  currentId w = (initial_currentId + N.of_nat n)%N ∧
  (∀ id, is_Some (orders_ (orderbook w) !! id) → (id < currentId w)%N) ∧
  (size (orders_ (orderbook w)) ≤ n)%nat ∧
  (∀ p o, p ∈ resting (orderbook w) → heap (orderbook w) !! p = Some o →
          (GetRemainingQuantity o ≤ 1000)%N).


(** The engine after a buy of 10 at 98 (id 1), a buy of 10 at 99 (id 2)
    and a sell of 5 at 100 (id 3) were submitted and a buy of 3 at 100
    (id 4) was created. *)
Definition two_bids_one_ask : State :=
  mkState
    (<[1%positive := Order_new GoodTillCancel 1 Buy 98 10]>
       (<[2%positive := Order_new GoodTillCancel 2 Buy 99 10]>
          (<[3%positive := Order_new GoodTillCancel 3 Sell 100 5]>
             (<[4%positive := Order_new GoodTillCancel 4 Buy 100 3]> ∅))))
    [(99, [2%positive]); (98, [1%positive])] [(100, [3%positive])]
    (<[1%N := mkOrderEntry 1 1]>
       (<[2%N := mkOrderEntry 2 2]> (<[3%N := mkOrderEntry 3 3]> ∅))).


(** The book is not crossed, in the words of the specification: a side is
    empty, or the highest bid price is strictly below the lowest ask
    price. *)
Definition best_bid_below_best_ask (st : State) : Prop :=
  bids_ st = [] ∨ asks_ st = [] ∨
  ∃ bestBid bestAsk,
    highest_bid st bestBid ∧ lowest_ask st bestAsk ∧ bestBid < bestAsk.


(** Reduces the binds of the outcome monad at the head of a goal. *)
Ltac run_bind := cbn [mbind outcome_bind].

(** * Properties *)

(** ** The outcome monad *)

Lemma bind_Ret {A B} (a : A) (f : A → outcome B) : Ret a ≫= f = f a.
Proof. reflexivity. Qed.

Lemma bind_assoc {A B C} (m : outcome A) (f : A → outcome B)
    (g : B → outcome C) :
  (m ≫= f) ≫= g = m ≫= (λ a, f a ≫= g).
Proof. by destruct m. Qed.

Lemma bind_ext {A B} (m : outcome A) (f g : A → outcome B) :
  (∀ a, m = Ret a → f a = g a) → m ≫= f = m ≫= g.
Proof. destruct m; simpl; auto. Qed.

Lemma bind_Ret_inv {A B} (m : outcome A) (f : A → outcome B) b :
  m ≫= f = Ret b → ∃ a, m = Ret a ∧ f a = Ret b.
Proof. destruct m; simpl; intros; simplify_eq; eauto. Qed.

(** ** Price-ordered maps *)

Section PriceMapFacts.
Context {V : Type} (before : Price → Price → bool) `{!PriceOrder before}.
Implicit Types (m : list (Price * V)) (k : Price) (v : V).

Lemma price_sorted_cons k v m :
  price_sorted before ((k, v) :: m) ↔
    Forall (λ y, before k y.1 = true) m ∧ price_sorted before m.
Proof. unfold price_sorted. by rewrite StronglySorted_cons. Qed.

Lemma map_at_elem_of k v m : map_at k m = Some v → (k, v) ∈ m.
Proof.
  induction m as [|[k' v'] m IH]; simpl; [done|].
  destruct (Z.eqb_spec k k') as [->|Hne].
  - intros [= ->]. left.
  - intros H. right. auto.
Qed.

Lemma map_at_before_head k k0 v0 m :
  price_sorted before ((k0, v0) :: m) → before k k0 = true →
  map_at k ((k0, v0) :: m) = None.
Proof.
  intros [Hall _]%price_sorted_cons Hk.
  destruct (map_at k ((k0, v0) :: m)) as [v|] eqn:Hat; [|done].
  apply map_at_elem_of in Hat. exfalso.
  apply elem_of_cons in Hat as [[= -> ->]|Hin].
  - by rewrite before_irrefl in Hk.
  - rewrite Forall_forall in Hall. specialize (Hall _ Hin). simpl in Hall.
    pose proof (before_trans _ _ _ Hk Hall) as Hkk.
    by rewrite before_irrefl in Hkk.
Qed.

Lemma map_at_tail k k0 v0 v m :
  price_sorted before ((k0, v0) :: m) → map_at k m = Some v →
  k ≠ k0 ∧ before k0 k = true.
Proof.
  intros [Hall _]%price_sorted_cons Hat%map_at_elem_of.
  rewrite Forall_forall in Hall. specialize (Hall _ Hat). simpl in Hall.
  split; [|done]. intros ->. by rewrite before_irrefl in Hall.
Qed.

Lemma map_at_sorted_elem_of k v m :
  price_sorted before m → (k, v) ∈ m → map_at k m = Some v.
Proof.
  induction m as [|[k' v'] m IH]; intros Hs Hin.
  - by apply elem_of_nil in Hin.
  - simpl. apply elem_of_cons in Hin as [[= -> ->]|Hin].
    + by rewrite Z.eqb_refl.
    + pose proof Hs as [_ Hs']%price_sorted_cons.
      specialize (IH Hs' Hin).
      destruct (map_at_tail _ _ _ _ _ Hs IH) as [Hne _].
      by destruct (Z.eqb_spec k k').
Qed.

Lemma map_at_cons k k0 v0 m :
  map_at k ((k0, v0) :: m) = if decide (k = k0) then Some v0 else map_at k m.
Proof. cbn [map_at]. destruct (Z.eqb_spec k k0); by case_decide. Qed.

(** *** [operator[]] *)

Lemma map_subscript_keys k d m y :
  y ∈ map_subscript before k d m → y ∈ m ∨ y = (k, d).
Proof.
  induction m as [|[k' v'] m IH]; simpl.
  - intros ->%list_elem_of_singleton. by right.
  - destruct (Z.eqb_spec k k'); [by left|].
    destruct (before k k').
    + intros [->|?]%elem_of_cons; [by right|by left].
    + intros [->|?]%elem_of_cons; [left; left|].
      destruct IH as [?|?]; [done|left; by right|by right].
Qed.

Lemma map_subscript_sorted k d m :
  price_sorted before m → price_sorted before (map_subscript before k d m).
Proof.
  induction m as [|[k' v'] m IH]; simpl; intros Hs.
  - apply price_sorted_cons. split; [constructor|done].
  - destruct (Z.eqb_spec k k') as [->|Hne]; [done|].
    destruct (before k k') eqn:Hb.
    + apply price_sorted_cons. split; [|done].
      apply price_sorted_cons in Hs as [Hall _].
      constructor; [done|].
      eapply Forall_impl; [exact Hall|]. simpl. intros y Hy.
      by eapply before_trans.
    + apply price_sorted_cons in Hs as [Hall Hs].
      apply price_sorted_cons. split; [|auto].
      apply Forall_forall. intros y Hy.
      apply map_subscript_keys in Hy as [Hy| ->].
      * rewrite Forall_forall in Hall. auto.
      * simpl. destruct (before_total k k' Hne) as [?|?]; congruence.
Qed.

Lemma map_at_subscript k' k d m :
  price_sorted before m →
  map_at k' (map_subscript before k d m) =
    if decide (k' = k) then Some (default d (map_at k m)) else map_at k' m.
Proof.
  induction m as [|[k0 v0] m IH]; intros Hs.
  - simpl. destruct (Z.eqb_spec k' k); by case_decide.
  - cbn [map_subscript]. destruct (Z.eqb_spec k k0) as [->|Hne].
    + case_decide as Hk; [|done]. subst k'. simpl. by rewrite Z.eqb_refl.
    + destruct (before k k0) eqn:Hb.
      * rewrite map_at_cons. case_decide; [|done].
        by rewrite (map_at_before_head k k0 v0 m).
      * rewrite !map_at_cons.
        apply price_sorted_cons in Hs as [_ Hs]. rewrite (IH Hs).
        repeat case_decide; simplify_eq; done.
Qed.

(** *** Assignment through a reference *)

Lemma map_assign_keys k v m : (map_assign k v m).*1 = m.*1.
Proof.
  induction m as [|[k' v'] m IH]; [done|].
  cbn [map_assign]. destruct (k =? k'); [done|].
  rewrite !fmap_cons. by f_equal.
Qed.

Lemma price_sorted_keys {W} m (m' : list (Price * W)) :
  m.*1 = m'.*1 → price_sorted before m → price_sorted before m'.
Proof.
  unfold price_sorted. intros Heq Hs.
  apply (StronglySorted_fmap fst _ (λ x y, before x y = true)) in Hs;
    [|by intros [] []].
  rewrite Heq in Hs. clear Heq m.
  induction m' as [|[k w] m' IH]; [constructor|].
  simpl in Hs. apply StronglySorted_cons in Hs as [Hall Hs].
  apply StronglySorted_cons. split; [|auto].
  by rewrite Forall_fmap in Hall.
Qed.

Lemma map_assign_sorted k v m :
  price_sorted before m → price_sorted before (map_assign k v m).
Proof. apply price_sorted_keys. by rewrite map_assign_keys. Qed.

Lemma map_at_assign k' k v m :
  map_at k' (map_assign k v m) =
    if decide (k' = k) then (λ _, v) <$> map_at k m else map_at k' m.
Proof.
  induction m as [|[k0 v0] m IH]; simpl.
  - by case_decide.
  - destruct (Z.eqb_spec k k0) as [->|Hne]; simpl.
    + destruct (Z.eqb_spec k' k0); case_decide; done.
    + rewrite IH. destruct (Z.eqb_spec k' k0); case_decide; simplify_eq; done.
Qed.

(** *** [erase] *)

Lemma map_erase_sublist k m : map_erase k m `sublist_of` m.
Proof.
  induction m as [|[k0 v0] m IH]; simpl; [done|].
  destruct (k =? k0); [by apply sublist_cons|by apply sublist_skip].
Qed.

Lemma price_sorted_sublist m m' :
  m' `sublist_of` m → price_sorted before m → price_sorted before m'.
Proof.
  unfold price_sorted. intros Hsub Hs. revert m' Hsub.
  induction Hs as [|x m Hs IH Hall]; intros m' Hsub.
  - apply sublist_nil_r in Hsub as ->. constructor.
  - apply sublist_cons_r in Hsub as [Hsub|(m'' & -> & Hsub)]; [auto|].
    constructor; [auto|].
    apply Forall_forall. intros y Hy. rewrite Forall_forall in Hall.
    eauto using elem_of_sublist.
Qed.

Lemma map_erase_sorted k m :
  price_sorted before m → price_sorted before (map_erase k m).
Proof. apply price_sorted_sublist, map_erase_sublist. Qed.

Lemma map_at_erase k' k m :
  price_sorted before m →
  map_at k' (map_erase k m) =
    if decide (k' = k) then None else map_at k' m.
Proof.
  induction m as [|[k0 v0] m IH]; intros Hs.
  - simpl. by case_decide.
  - cbn [map_erase]. destruct (Z.eqb_spec k k0) as [->|Hne].
    + rewrite map_at_cons. case_decide as Hk.
      * subst k'. destruct (map_at k0 m) as [v|] eqn:Hat; [|done].
        by destruct (map_at_tail _ _ _ _ _ Hs Hat).
      * done.
    + rewrite !map_at_cons.
      apply price_sorted_cons in Hs as [_ Hs]. rewrite (IH Hs).
      repeat case_decide; simplify_eq; done.
Qed.
End PriceMapFacts.

(** ** Orders and fills *)

Lemma Fill_min_l (b : Order) (r : Quantity) :
  Fill (N.min (GetRemainingQuantity b) r) b =
    (with_remaining b
       (GetRemainingQuantity b - N.min (GetRemainingQuantity b) r)%N, None).
Proof.
  unfold Fill. destruct (N.ltb_spec (GetRemainingQuantity b)
    (N.min (GetRemainingQuantity b) r)); [lia|done].
Qed.

Lemma Fill_min_r (a : Order) (r : Quantity) :
  Fill (N.min r (GetRemainingQuantity a)) a =
    (with_remaining a
       (GetRemainingQuantity a - N.min r (GetRemainingQuantity a))%N, None).
Proof.
  unfold Fill. destruct (N.ltb_spec (GetRemainingQuantity a)
    (N.min r (GetRemainingQuantity a))); [lia|done].
Qed.

(** ** The body of the matching loop *)

(** What one pairing does when the two fronts are distinct live orders. *)
Lemma trade_front_spec bid ask bids asks h orders b a :
  h !! bid = Some b → h !! ask = Some a → bid ≠ ask →
  let quantity := N.min (GetRemainingQuantity b) (GetRemainingQuantity a) in
  let b' := with_remaining b (GetRemainingQuantity b - quantity)%N in
  let a' := with_remaining a (GetRemainingQuantity a - quantity)%N in
  trade_front bid ask bids asks h orders =
    Ret (if IsFilled b' then tail bids else bids,
         if IsFilled a' then tail asks else asks,
         <[ask := a']> (<[bid := b']> h),
         (if IsFilled a' then delete (GetOrderId a) else id)
           ((if IsFilled b' then delete (GetOrderId b) else id) orders),
         mkTrade (mkTradeInfo (GetOrderId b) (GetPrice b) quantity)
                 (mkTradeInfo (GetOrderId a) (GetPrice a) quantity)).
Proof.
  intros Hb Ha Hne. cbv zeta.
  unfold trade_front, Order_Fill, deref.
  rewrite Hb, Ha. run_bind. rewrite Fill_min_l.
  run_bind.
  rewrite lookup_insert_ne by done. rewrite Ha. run_bind.
  rewrite Fill_min_r. run_bind.
  rewrite (lookup_insert_ne _ ask bid) by auto. rewrite !lookup_insert_eq.
  run_bind.
  destruct (IsFilled (with_remaining b _)), (IsFilled (with_remaining a _));
    reflexivity.
Qed.

(** Whatever the store holds, a pairing that returns has popped a front. *)
Lemma trade_front_pops bid ask bids asks h orders bids' asks' h' orders' t :
  trade_front bid ask bids asks h orders = Ret (bids', asks', h', orders', t) →
  (bids' = bids ∨ bids' = tail bids) ∧ (asks' = asks ∨ asks' = tail asks) ∧
  (bids' = tail bids ∨ asks' = tail asks).
Proof.
  destruct (h !! bid) as [b|] eqn:Hb;
    [|by unfold trade_front, deref; rewrite Hb].
  destruct (h !! ask) as [a|] eqn:Ha;
    [|by unfold trade_front, deref; rewrite Hb, Ha].
  destruct (decide (bid = ask)) as [->|Hne].
  - unfold trade_front, Order_Fill, deref.
    simplify_eq. rewrite Hb. run_bind. rewrite Fill_min_l.
    run_bind. rewrite lookup_insert_eq.
    run_bind. unfold Fill at 1.
    destruct (_ <? _)%N eqn:Hlt; [done|]. run_bind.
    rewrite !lookup_insert_eq. run_bind.
    clear Hlt.
    match goal with
    | |- context [IsFilled ?x] => assert (IsFilled x = true) as ->
    end.
    { unfold IsFilled, GetRemainingQuantity, with_remaining. simpl.
      apply N.eqb_eq. lia. }
    intros [= <- <- <- <- <-]. auto.
  - rewrite (trade_front_spec _ _ _ _ _ _ b a) by done.
    set (b' := with_remaining b _). set (a' := with_remaining a _).
    assert (IsFilled b' = true ∨ IsFilled a' = true) as Hor.
    { unfold IsFilled, b', a', GetRemainingQuantity, with_remaining. simpl.
      rewrite !N.eqb_eq. lia. }
    destruct (IsFilled b'), (IsFilled a'); intros [= <- <- <- <- <-];
      destruct Hor; auto; done.
Qed.

(** ** The nested loops pair one front at a time *)

Lemma concat_erase_if_empty price orders rest :
  concat (erase_if_empty price orders rest).*2 = orders ++ concat rest.*2.
Proof. by destruct orders. Qed.

Lemma length_erase_if_empty price orders rest :
  (length (erase_if_empty price orders rest) ≤ S (length rest))%nat.
Proof. destruct orders; simpl; lia. Qed.

Lemma erase_if_empty_nonempty price orders rest :
  Forall (λ lvl : Price * OrderPointers, lvl.2 ≠ []) rest →
  Forall (λ lvl : Price * OrderPointers, lvl.2 ≠ [])
    (erase_if_empty price orders rest).
Proof. destruct orders; [done|]. intros. by constructor. Qed.

Lemma cross_step_Some st t st' :
  cross_step st = Ret (Some (t, st')) →
  ∃ bp bid bt br ap ask at_ ar bq' aq',
    bids_ st = (bp, bid :: bt) :: br ∧ asks_ st = (ap, ask :: at_) :: ar ∧
    (bp <? ap) = false ∧
    trade_front bid ask (bid :: bt) (ask :: at_) (heap st) (orders_ st) =
      Ret (bq', aq', heap st', orders_ st', t) ∧
    bids_ st' = erase_if_empty bp bq' br ∧
    asks_ st' = erase_if_empty ap aq' ar.
Proof.
  unfold cross_step.
  destruct (bids_ st) as [|[bp [|bid bt]] br]; [done..|].
  destruct (asks_ st) as [|[ap [|ask at_]] ar]; [done..|].
  destruct (bp <? ap) eqn:Hlt; [done|].
  intros ([[[[bq' aq'] h'] orders'] t'] & Htf & Heq)%bind_Ret_inv.
  simplify_eq. simpl. naive_solver.
Qed.

Lemma cross_step_decreases st t st' :
  cross_step st = Ret (Some (t, st')) →
  (length (resting st') < length (resting st))%nat ∧
  (levels_nonempty st → levels_nonempty st').
Proof.
  intros (bp & bid & bt & br & ap & ask & at_ & ar & bq' & aq' &
          Hb & Ha & _ & Htf & Hb' & Ha')%cross_step_Some.
  apply trade_front_pops in Htf as (Hbq & Haq & Hpop).
  unfold resting, levels_nonempty. rewrite Hb, Ha, Hb', Ha'. split.
  - assert (length bq' + length aq' < S (length bt) + S (length at_))%nat.
    { destruct Hbq as [->| ->], Haq as [->| ->], Hpop as [Hp|Hp];
        simpl in *; try lia; apply (f_equal length) in Hp; simpl in Hp; lia. }
    rewrite !concat_erase_if_empty, !fmap_cons. simpl.
    rewrite !length_app. simpl. rewrite !length_app. lia.
  - intros [[_ Hbr]%Forall_cons [_ Har]%Forall_cons].
    split; by apply erase_if_empty_nonempty.
Qed.

(** Spare fuel never changes the result of the one-pair loop. *)
Lemma cross_loop_fuel n m st :
  (length (resting st) ≤ n)%nat → (length (resting st) ≤ m)%nat →
  cross_loop n st = cross_loop m st.
Proof.
  revert m st. induction n as [|n IH]; intros m st Hn Hm.
  - destruct m as [|m]; [done|]. simpl.
    destruct (cross_step st) as [[[t st']|]| |] eqn:Hstep; try done.
    apply cross_step_decreases in Hstep as [? _]. lia.
  - simpl. destruct (cross_step st) as [[[t st']|]| |] eqn:Hstep.
    + pose proof Hstep as [Hlt _]%cross_step_decreases.
      destruct m as [|m]; [lia|]. simpl. rewrite Hstep. simpl.
      rewrite (IH m) by lia. done.
    + destruct m; simpl; by rewrite Hstep.
    + destruct m; simpl; by rewrite Hstep.
    + destruct m; simpl; by rewrite Hstep.
Qed.

Lemma cross_loop_unfold n st :
  (length (resting st) ≤ n)%nat →
  cross_loop n st =
    r ← cross_step st;
    match r with
    | None => Ret ([], st)
    | Some (t, st') =>
        r ← cross_loop (length (resting st')) st'; Ret (t :: r.1, r.2)
    end.
Proof.
  intros Hn. destruct n as [|n]; simpl.
  - destruct (cross_step st) as [[[t st']|]| |] eqn:Hstep; try done.
    apply cross_step_decreases in Hstep as [? _]. lia.
  - destruct (cross_step st) as [[[t st']|]| |] eqn:Hstep; try done.
    simpl. pose proof Hstep as [Hlt _]%cross_step_decreases.
    rewrite (cross_loop_fuel n (length (resting st'))) by lia. done.
Qed.

Lemma match_level_done fuel bids asks h orders trades :
  bids = [] ∨ asks = [] →
  match_level fuel bids asks h orders trades =
    Ret (bids, asks, h, orders, trades).
Proof.
  intros [-> | ->]; destruct fuel; simpl; [done..| |]; by destruct bids.
Qed.

Lemma match_best_then fuel bp ap bq aq br ar h orders acc :
  match_best bp ap bq aq br ar h orders acc
    ≫= (λ r, MatchOrders_loop fuel r.2 r.1) =
  r ← match_level (length bq + length aq) bq aq h orders acc;
  MatchOrders_loop fuel
    (mkState r.1.1.2 (erase_if_empty bp r.1.1.1.1 br)
       (erase_if_empty ap r.1.1.1.2 ar) r.1.2) r.2.
Proof.
  unfold match_best. rewrite bind_assoc. apply bind_ext.
  by intros [[[[??]?]?]?] _.
Qed.

Section NestedLoops.
Lemma loops_agree_of_level n : level_agrees n → loops_agree n.
Proof.
  intros HQ st fo acc Hn [Hb Ha] Hfo.
  destruct st as [h bids asks idx]. simpl in *.
  destruct bids as [|[bp bq] br].
  { destruct fo, n; simpl; by rewrite app_nil_r. }
  destruct asks as [|[ap aq] ar].
  { destruct fo, n; simpl; destruct bq; simpl; by rewrite app_nil_r. }
  apply Forall_cons in Hb as [Hbq Hbr]. apply Forall_cons in Ha as [Haq Har].
  simpl in Hbq, Haq.
  destruct (bp <? ap) eqn:Hlt.
  { destruct bq as [|bid bt]; [done|]. destruct aq as [|ask at_]; [done|].
    destruct fo, n; simpl; unfold cross_step; simpl; rewrite Hlt; simpl;
      by rewrite app_nil_r. }
  destruct fo as [|fo]; [simpl in Hfo; lia|].
  cbn [MatchOrders_loop bids_ asks_ heap orders_]. rewrite Hlt.
  rewrite match_best_then. apply HQ; auto. simpl in Hfo. lia.
Qed.

Lemma level_agrees_0 : level_agrees 0.
Proof.
  intros fi bp bq br ap aq ar h idx acc fo Hbq _ _ _ _ Hn.
  destruct bq; [done|]. unfold resting in Hn. simpl in Hn. lia.
Qed.

Lemma level_agrees_S n : loops_agree n → level_agrees n → level_agrees (S n).
Proof.
  intros HP HQ fi bp bq br ap aq ar h idx acc fo Hbq Haq Hlt Hbr Har Hn Hfi Hfo.
  destruct bq as [|bid bt]; [done|]. destruct aq as [|ask at_]; [done|].
  destruct fi as [|fi]; [simpl in Hfi; lia|].
  cbn [match_level cross_loop]. unfold cross_step.
  cbn [bids_ asks_ heap orders_]. rewrite Hlt. rewrite !bind_assoc.
  destruct (trade_front bid ask (bid :: bt) (ask :: at_) h idx)
    as [[[[[bq' aq'] h'] idx'] t]|e|] eqn:Htf; [|done..].
  run_bind.
  set (st' := mkState h' (erase_if_empty bp bq' br)
                (erase_if_empty ap aq' ar) idx').
  assert (cross_step (mkState h ((bp, bid :: bt) :: br)
            ((ap, ask :: at_) :: ar) idx) = Ret (Some (t, st'))) as Hstep.
  { unfold cross_step. cbn [bids_ asks_ heap orders_]. rewrite Hlt, Htf.
    reflexivity. }
  apply cross_step_decreases in Hstep as [Hres Hne].
  pose proof (trade_front_pops _ _ _ _ _ _ _ _ _ _ _ Htf)
    as (Hbq' & Haq' & Hpop).
  assert (∀ r : outcome (Trades * State),
    (r ≫= λ r, Ret ((acc ++ [t]) ++ r.1, r.2)) =
    ((r ≫= λ r, Ret (t :: r.1, r.2)) ≫= λ r, Ret (acc ++ r.1, r.2))) as Hassoc.
  { intros [[ts s]| |]; simpl; [|done..]. by rewrite <-app_assoc. }
  rewrite <-Hassoc.
  destruct (decide (bq' = [] ∨ aq' = [])) as [Hdone|Hmore].
  - rewrite match_level_done by done. cbn [mbind outcome_bind fst snd].
    fold st'. apply HP.
    + lia.
    + apply Hne. split; by constructor.
    + subst st'. cbn [bids_ asks_].
      pose proof (length_erase_if_empty bp bq' br).
      pose proof (length_erase_if_empty ap aq' ar).
      destruct Hdone as [-> | ->]; simpl in *; lia.
  - assert (bq' ≠ [] ∧ aq' ≠ []) as [Hbq'' Haq''] by tauto.
    assert (st' = mkState h' ((bp, bq') :: br) ((ap, aq') :: ar) idx') as Hst'.
    { subst st'. by destruct bq', aq'. }
    rewrite Hst' in *. apply HQ; auto.
    + lia.
    + simpl in Hfi.
      destruct Hbq' as [->| ->], Haq' as [->| ->], Hpop as [Hp|Hp];
        simpl in *; try lia; apply (f_equal length) in Hp; simpl in Hp; lia.
Qed.

Lemma level_agrees_all n : level_agrees n.
Proof.
  induction n as [|n IH]; [apply level_agrees_0|].
  apply level_agrees_S; [|done]. by apply loops_agree_of_level.
Qed.

Lemma loops_agree_all n : loops_agree n.
Proof. apply loops_agree_of_level, level_agrees_all. Qed.
End NestedLoops.

(** [MatchOrders] is the one-pair loop run to completion. *)
Lemma MatchOrders_cross_loop st :
  levels_nonempty st →
  MatchOrders st = cross_loop (length (resting st)) st.
Proof.
  intros Hne. unfold MatchOrders.
  rewrite (loops_agree_all (length (resting st))) by (done || lia).
  by destruct (cross_loop _ _) as [[??]| |].
Qed.

(** ** Well-formed states, unfolded *)

Lemma wf_sorted st s : wf st → price_sorted (before s) (book s st).
Proof. intros (? & ? & _). by destruct s. Qed.

Lemma wf_level st s pr q :
  wf st → map_at pr (book s st) = Some q → level_ok st s (pr, q).
Proof.
  intros (_ & _ & Hb & Ha & _) Hat%map_at_elem_of.
  destruct s; simpl in Hat; [rewrite Forall_forall in Hb|rewrite Forall_forall in Ha]; auto.
Qed.

Lemma wf_resting st s pr q p :
  wf st → map_at pr (book s st) = Some q → p ∈ q →
  ∃ o, heap st !! p = Some o ∧ GetSide o = s ∧ GetPrice o = pr ∧
       orders_ st !! GetOrderId o = Some (mkOrderEntry p p).
Proof.
  intros Hwf Hat Hp.
  destruct (wf_level _ _ _ _ Hwf Hat) as (_ & _ & Hall).
  rewrite Forall_forall in Hall. specialize (Hall _ Hp).
  unfold rests_ok in Hall. simpl in Hall.
  destruct (heap st !! p) as [o|]; [|done]. eauto.
Qed.

Lemma wf_indexed st id e :
  wf st → orders_ st !! id = Some e →
  ∃ o q, e = mkOrderEntry (order_ e) (order_ e) ∧
         heap st !! order_ e = Some o ∧ GetOrderId o = id ∧
         map_at (GetPrice o) (book (GetSide o) st) = Some q ∧ order_ e ∈ q.
Proof.
  intros (_ & _ & _ & _ & Hidx) He.
  specialize (Hidx _ _ He). destruct Hidx as [Hloc Hidx].
  destruct (heap st !! order_ e) as [o|]; [|done].
  destruct Hidx as [Hid Hidx].
  destruct (map_at (GetPrice o) (book (GetSide o) st)) as [q|] eqn:Hq; [|done].
  exists o, q. split_and!; try done.
  destruct e as [p l]. simpl in *. by subst.
Qed.

Lemma wf_intro st :
  (∀ s, price_sorted (before s) (book s st)) →
  (∀ s pr q, map_at pr (book s st) = Some q →
     q ≠ [] ∧ NoDup q ∧
     ∀ p, p ∈ q →
       ∃ o, heap st !! p = Some o ∧ GetSide o = s ∧ GetPrice o = pr ∧
            orders_ st !! GetOrderId o = Some (mkOrderEntry p p)) →
  (∀ id e, orders_ st !! id = Some e →
     ∃ o q, location_ e = order_ e ∧ heap st !! order_ e = Some o ∧
            GetOrderId o = id ∧
            map_at (GetPrice o) (book (GetSide o) st) = Some q ∧
            order_ e ∈ q) →
  wf st.
Proof.
  intros Hs Hl Hi.
  assert (∀ s, Forall (level_ok st s) (book s st)) as Hlev.
  { intros s. apply Forall_forall. intros [pr q] Hin.
    apply (map_at_sorted_elem_of (before s)) in Hin; [|done].
    destruct (Hl _ _ _ Hin) as (Hne & Hnd & Hall).
    split_and!; [done..|]. apply Forall_forall. intros p Hp.
    destruct (Hall _ Hp) as (o & Ho & ?). unfold rests_ok. simpl.
    by rewrite Ho. }
  split_and!.
  - apply (Hs Buy).
  - apply (Hs Sell).
  - apply (Hlev Buy).
  - apply (Hlev Sell).
  - intros id e He. destruct (Hi _ _ He) as (o & q & Hloc & Ho & Hid & Hq & Hin).
    split; [done|]. by rewrite Ho, Hq.
Qed.

(** The order behind a resting pointer determines where it rests. *)
Lemma wf_resting_unique st s pr q s' pr' q' p :
  wf st → map_at pr (book s st) = Some q → p ∈ q →
  map_at pr' (book s' st) = Some q' → p ∈ q' → s = s' ∧ pr = pr'.
Proof.
  intros Hwf Hq Hp Hq' Hp'.
  destruct (wf_resting _ _ _ _ _ Hwf Hq Hp) as (o & Ho & <- & <- & _).
  destruct (wf_resting _ _ _ _ _ Hwf Hq' Hp') as (o' & Ho' & <- & <- & _).
  by simplify_eq.
Qed.

Lemma wf_empty : wf empty_state.
Proof. apply (bool_decide_unpack _). by vm_compute. Qed.

Lemma wf_heap_agrees st h' :
  wf st → heap_agrees (heap st) h' →
  wf (mkState h' (bids_ st) (asks_ st) (orders_ st)).
Proof.
  intros Hwf Hag. apply wf_intro.
  - intros s. apply (wf_sorted _ s) in Hwf. by destruct s.
  - intros s pr q Hq.
    assert (map_at pr (book s st) = Some q) as Hq' by by destruct s.
    destruct (wf_level _ _ _ _ Hwf Hq') as (Hne & Hnd & _).
    split_and!; [done..|]. intros p Hp.
    destruct (wf_resting _ _ _ _ _ Hwf Hq' Hp) as (o & Ho & Hs & Hpr & Hid).
    destruct (Hag _ _ Ho) as (o' & Ho' & Hid' & Hs' & Hpr').
    exists o'. simpl. rewrite Hid', Hs', Hpr'. done.
  - intros id e He. simpl in He.
    destruct (wf_indexed _ _ _ Hwf He) as (o & q & -> & Ho & Hid & Hq & Hin).
    destruct (Hag _ _ Ho) as (o' & Ho' & Hid' & Hs' & Hpr').
    exists o', q. simpl in *. rewrite Hid', Hs', Hpr'.
    split_and!; done.
Qed.

Lemma make_shared_wf o st : wf st → wf (make_shared o st).2.
Proof.
  intros Hwf. apply (wf_heap_agrees st); [done|].
  intros p o' Ho'. exists o'. split; [|done].
  rewrite lookup_insert_ne; [done|]. intros <-.
  pose proof (is_fresh (dom (heap st))) as Hfresh.
  apply Hfresh. apply elem_of_dom. eauto.
Qed.

(** ** Erasing one order from its queue *)

Lemma list_erase_Some p q q' :
  list_erase p q = Some q' →
  ∃ l1 l2, q = l1 ++ p :: l2 ∧ q' = l1 ++ l2 ∧ p ∉ l1.
Proof.
  revert q'. induction q as [|x q IH]; intros q'; simpl; [done|].
  case_decide as Hx.
  - intros [= <-]. subst x. exists [], q. split_and!; [done..|].
    apply not_elem_of_nil.
  - destruct (list_erase p q) as [q''|]; [|done]. intros [= <-].
    destruct (IH _ eq_refl) as (l1 & l2 & -> & -> & Hnin).
    exists (x :: l1), l2. split_and!; [done..|].
    rewrite not_elem_of_cons. auto.
Qed.

Lemma list_erase_elem_of p q : p ∈ q → is_Some (list_erase p q).
Proof.
  induction q as [|x q IH]; [by intros ?%elem_of_nil|].
  simpl. case_decide; [eauto|].
  intros [?|Hin]%elem_of_cons; [congruence|].
  destruct (IH Hin) as [q' ->]. eauto.
Qed.

Lemma list_erase_NoDup p q q' :
  NoDup q → list_erase p q = Some q' →
  NoDup q' ∧ ∀ x, x ∈ q' ↔ x ∈ q ∧ x ≠ p.
Proof.
  intros Hnd (l1 & l2 & -> & -> & Hnin)%list_erase_Some.
  apply NoDup_app in Hnd as (Hl1 & Hdisj & [Hp Hl2]%NoDup_cons).
  split.
  - apply NoDup_app. split_and!; [done| |done].
    intros x Hx Hx'. apply (Hdisj x Hx). by right.
  - intros x. rewrite !elem_of_app, elem_of_cons. split.
    + intros [Hx|Hx]; (split; [tauto|]); intros ->; [done|done].
    + intros [[Hx|[Hx|Hx]] Hne]; tauto.
Qed.

Section CancelIn.
Context (before : Price → Price → bool) `{!PriceOrder before}.

Lemma cancel_in_spec (m : list (Price * OrderPointers)) pr p q :
  price_sorted before m → map_at pr m = Some q → p ∈ q →
  ∃ q' m',
    list_erase p q = Some q' ∧ cancel_in pr p m = Ret m' ∧
    price_sorted before m' ∧
    ∀ pr', map_at pr' m' =
      if decide (pr' = pr)
      then (if decide (q' = []) then None else Some q')
      else map_at pr' m.
Proof.
  intros Hs Hq Hp. destruct (list_erase_elem_of _ _ Hp) as [q' Hq'].
  unfold cancel_in. rewrite Hq, Hq'. exists q'.
  destruct q' as [|x q'].
  - eexists. split_and!; [done..| |].
    + by apply map_erase_sorted, map_assign_sorted.
    + intros pr'. rewrite (map_at_erase before)
        by by apply map_assign_sorted.
      rewrite map_at_assign. by repeat case_decide.
  - eexists. split_and!; [done..| |].
    + by apply map_assign_sorted.
    + intros pr'. rewrite map_at_assign, Hq. by repeat case_decide.
Qed.

Lemma map_at_erase_if_empty (m : list (Price * OrderPointers)) pr q q' pr' :
  price_sorted before ((pr, q) :: m) →
  map_at pr' (erase_if_empty pr q' m) =
    if decide (pr' = pr)
    then (if decide (q' = []) then None else Some q')
    else map_at pr' ((pr, q) :: m).
Proof.
  intros Hs. rewrite (map_at_cons pr' pr q m).
  destruct q' as [|x q']; simpl erase_if_empty.
  - case_decide as Hpr; [|done]. subst pr'. rewrite decide_True by done.
    destruct (map_at pr m) as [v|] eqn:Hat; [|done].
    by destruct (map_at_tail before _ _ _ _ _ Hs Hat).
  - rewrite map_at_cons. by repeat case_decide.
Qed.

Lemma erase_if_empty_sorted (m : list (Price * OrderPointers)) pr q q' :
  price_sorted before ((pr, q) :: m) →
  price_sorted before (erase_if_empty pr q' m).
Proof.
  intros Hs. destruct q' as [|x q']; simpl.
  - by apply price_sorted_cons in Hs as [_ ?].
  - by apply (price_sorted_keys before ((pr, q) :: m)).
Qed.
End CancelIn.

(** Taking one resting order out of its queue and out of the index keeps
    the state well-formed.  Both [CancelOrder] and the pop of a filled
    order in [MatchOrders] are instances. *)
Lemma wf_remove st st' p o q q' :
  wf st → heap st !! p = Some o →
  map_at (GetPrice o) (book (GetSide o) st) = Some q → p ∈ q →
  list_erase p q = Some q' →
  heap st' = heap st →
  orders_ st' = delete (GetOrderId o) (orders_ st) →
  (∀ s, price_sorted (before s) (book s st')) →
  (∀ s pr, map_at pr (book s st') =
     if decide (s = GetSide o ∧ pr = GetPrice o)
     then (if decide (q' = []) then None else Some q')
     else map_at pr (book s st)) →
  wf st'.
Proof.
  intros Hwf Ho Hq Hp Herase Hheap Hidx Hsorted Hmap.
  destruct (wf_level _ _ _ _ Hwf Hq) as (_ & Hnd & _).
  destruct (list_erase_NoDup _ _ _ Hnd Herase) as [Hnd' Hmem].
  destruct (wf_resting _ _ _ _ _ Hwf Hq Hp) as (o' & Ho' & _ & _ & Hidxp).
  assert (o' = o) as -> by congruence. clear Ho'.
  assert (∀ s pr q0 x ox, map_at pr (book s st) = Some q0 → x ∈ q0 →
            heap st !! x = Some ox → GetOrderId ox = GetOrderId o → x = p)
    as Hsame.
  { intros s pr q0 x ox Hq0 Hx Hox Hid.
    destruct (wf_resting _ _ _ _ _ Hwf Hq0 Hx) as (ox' & Hox' & _ & _ & Hidx0).
    assert (ox' = ox) as -> by congruence. rewrite Hid in Hidx0. congruence. }
  apply wf_intro; [done| |].
  - intros s pr q0 Hq0. rewrite Hmap in Hq0. case_decide as Hsp.
    + destruct Hsp as [-> ->]. case_decide; [done|]. simplify_eq.
      split_and!; [done..|]. intros x [Hx Hxp]%Hmem.
      destruct (wf_resting _ _ _ _ _ Hwf Hq Hx) as (ox & Hox & Hs & Hpr & Hidx0).
      exists ox. rewrite Hheap, Hidx. split_and!; try done.
      rewrite lookup_delete_ne; [done|]. intros Heq.
      apply Hxp. eapply Hsame; eauto.
    + destruct (wf_level _ _ _ _ Hwf Hq0) as (Hne & Hnd0 & _).
      split_and!; [done..|]. intros x Hx.
      destruct (wf_resting _ _ _ _ _ Hwf Hq0 Hx) as (ox & Hox & Hs & Hpr & Hidx0).
      exists ox. rewrite Hheap, Hidx. split_and!; try done.
      rewrite lookup_delete_ne; [done|]. intros Heq.
      assert (x = p) as -> by (eapply Hsame; eauto).
      apply Hsp. by simplify_eq.
  - intros id e He. rewrite Hidx in He.
    apply lookup_delete_Some in He as [Hne He].
    destruct (wf_indexed _ _ _ Hwf He) as (o1 & q1 & Hloc & Ho1 & Hid1 & Hq1 & Hin1).
    assert (order_ e ≠ p) as Hep.
    { intros Heq. rewrite Heq in Ho1. by simplify_eq. }
    rewrite Hheap.
    destruct (decide (GetSide o1 = GetSide o ∧ GetPrice o1 = GetPrice o))
      as [[Hs Hpr]|Hsp].
    + rewrite Hs, Hpr in Hq1. simplify_eq.
      assert (order_ e ∈ q') as Hin' by by apply Hmem.
      exists o1, q'. split_and!; try done; [by rewrite Hloc|].
      rewrite Hmap, decide_True by done. rewrite decide_False; [done|].
      intros ->. by apply elem_of_nil in Hin'.
    + exists o1, q1. split_and!; try done; [by rewrite Hloc|].
      by rewrite Hmap, decide_False.
Qed.

(** ** [CancelOrder] *)

Lemma CancelOrder_absent st id :
  orders_ st !! id = None → CancelOrder id st = Ret (tt, st).
Proof. intros H. unfold CancelOrder. by rewrite H. Qed.

Lemma CancelOrder_present st id e :
  wf st → orders_ st !! id = Some e →
  ∃ o q q' st',
    heap st !! order_ e = Some o ∧ GetOrderId o = id ∧
    map_at (GetPrice o) (book (GetSide o) st) = Some q ∧ order_ e ∈ q ∧
    list_erase (order_ e) q = Some q' ∧
    CancelOrder id st = Ret (tt, st') ∧
    heap st' = heap st ∧ orders_ st' = delete id (orders_ st) ∧
    (∀ s pr, map_at pr (book s st') =
       if decide (s = GetSide o ∧ pr = GetPrice o)
       then (if decide (q' = []) then None else Some q')
       else map_at pr (book s st)) ∧
    (∀ s, s ≠ GetSide o → book s st' = book s st) ∧
    wf st'.
Proof.
  intros Hwf He.
  destruct (wf_indexed _ _ _ Hwf He) as (o & q & Hloc & Ho & Hid & Hq & Hin).
  pose proof (wf_sorted _ (GetSide o) Hwf) as Hs.
  destruct (cancel_in_spec _ _ _ _ _ Hs Hq Hin)
    as (q' & m' & Herase & Hcancel & Hs' & Hmap).
  exists o, q, q'.
  assert (∃ st', CancelOrder id st = Ret (tt, st') ∧
            heap st' = heap st ∧ orders_ st' = delete id (orders_ st) ∧
            book (GetSide o) st' = m' ∧
            (∀ s, s ≠ GetSide o → book s st' = book s st))
    as (st' & Hret & Hheap & Hidx & Hbook & Hother).
  { unfold CancelOrder. rewrite He, Hloc. unfold deref. rewrite Ho.
    run_bind.
    destruct (GetSide o) eqn:Hside; simpl in Hcancel; rewrite Hcancel;
      run_bind; eexists; (split; [reflexivity|]);
      split_and!; try done; by intros []. }
  exists st'.
  assert (∀ s pr, map_at pr (book s st') =
       if decide (s = GetSide o ∧ pr = GetPrice o)
       then (if decide (q' = []) then None else Some q')
       else map_at pr (book s st)) as Hmap'.
  { intros s pr. destruct (decide (s = GetSide o)) as [->|Hne].
    - rewrite Hbook, Hmap. by repeat case_decide; try tauto.
    - rewrite (Hother s Hne). rewrite decide_False; [done|tauto]. }
  split_and!; try done.
  apply (wf_remove st st' (order_ e) o q q'); try done.
  - by subst id.
  - intros s. destruct (decide (s = GetSide o)) as [->|Hne].
    + by rewrite Hbook.
    + rewrite (Hother s Hne). by apply wf_sorted.
Qed.

(** ** One pairing keeps the state well-formed *)

Lemma book_with_book s s' m orders st :
  book s' (with_book s m orders st) = if decide (s' = s) then m else book s' st.
Proof. by destruct s, s'. Qed.

(** Popping the front of the best level is erasing that order. *)
Lemma wf_pop_front st s pr p t rest o :
  wf st → book s st = (pr, p :: t) :: rest → heap st !! p = Some o →
  wf (with_book s (erase_if_empty pr t rest)
        (delete (GetOrderId o) (orders_ st)) st).
Proof.
  intros Hwf Hbook Ho.
  assert (map_at pr (book s st) = Some (p :: t)) as Hq.
  { rewrite Hbook. simpl. by rewrite Z.eqb_refl. }
  assert (p ∈ p :: t) as Hp by left.
  destruct (wf_resting _ _ _ _ _ Hwf Hq Hp) as (o' & Ho' & Hs & Hpr & _).
  assert (o' = o) as -> by congruence. subst s pr.
  pose proof (wf_sorted _ (GetSide o) Hwf) as Hsorted. rewrite Hbook in Hsorted.
  apply (wf_remove st _ p o (p :: t) t); try done.
  - simpl. by rewrite decide_True.
  - by destruct (GetSide o).
  - by destruct (GetSide o).
  - intros s. rewrite book_with_book. case_decide as Hs.
    + subst s. by eapply erase_if_empty_sorted.
    + by apply wf_sorted.
  - intros s pr. rewrite book_with_book.
    destruct (decide (s = GetSide o)) as [->|Hne].
    + rewrite (map_at_erase_if_empty _ _ _ _ _ _ Hsorted), Hbook.
      by repeat case_decide; try tauto.
    + rewrite decide_False; [done|tauto].
Qed.

Lemma wf_heads st bp bid bt br ap ask at_ ar :
  wf st → bids_ st = (bp, bid :: bt) :: br → asks_ st = (ap, ask :: at_) :: ar →
  ∃ b a, heap st !! bid = Some b ∧ heap st !! ask = Some a ∧ bid ≠ ask ∧
         GetSide b = Buy ∧ GetSide a = Sell ∧
         GetPrice b = bp ∧ GetPrice a = ap.
Proof.
  intros Hwf Hb Ha.
  assert (map_at bp (book Buy st) = Some (bid :: bt)) as Hbq.
  { simpl. rewrite Hb. simpl. by rewrite Z.eqb_refl. }
  assert (map_at ap (book Sell st) = Some (ask :: at_)) as Haq.
  { simpl. rewrite Ha. simpl. by rewrite Z.eqb_refl. }
  destruct (wf_resting _ _ _ _ bid Hwf Hbq) as (b & Hhb & Hsb & Hpb & _); [left|].
  destruct (wf_resting _ _ _ _ ask Hwf Haq) as (a & Hha & Hsa & Hpa & _); [left|].
  exists b, a. split_and!; try done. intros ->. congruence.
Qed.

Lemma heap_agrees_fill h bid ask b a rb ra :
  h !! bid = Some b → h !! ask = Some a →
  heap_agrees h (<[ask := with_remaining a ra]> (<[bid := with_remaining b rb]> h)).
Proof.
  intros Hb Ha p o Ho.
  destruct (decide (p = ask)) as [->|Hpa].
  { rewrite lookup_insert_eq. eexists. split; [done|]. by simplify_eq. }
  rewrite lookup_insert_ne by done.
  destruct (decide (p = bid)) as [->|Hpb].
  { rewrite lookup_insert_eq. eexists. split; [done|]. by simplify_eq. }
  rewrite lookup_insert_ne by done. eauto.
Qed.

Lemma cross_step_wf st :
  wf st →
  (cross_step st = Ret None ∧ uncrossed st) ∨
  (∃ t st', cross_step st = Ret (Some (t, st')) ∧ wf st').
Proof.
  intros Hwf. unfold cross_step, uncrossed.
  destruct (bids_ st) as [|[bp bq] br] eqn:Hb; [by left|].
  destruct (asks_ st) as [|[ap aq] ar] eqn:Ha; [left; by destruct bq|].
  destruct bq as [|bid bt].
  { assert (map_at bp (book Buy st) = Some []) as Hq.
    { simpl. rewrite Hb. simpl. by rewrite Z.eqb_refl. }
    by destruct (wf_level _ _ _ _ Hwf Hq) as [? _]. }
  destruct aq as [|ask at_].
  { assert (map_at ap (book Sell st) = Some []) as Hq.
    { simpl. rewrite Ha. simpl. by rewrite Z.eqb_refl. }
    by destruct (wf_level _ _ _ _ Hwf Hq) as [? _]. }
  destruct (Z.ltb_spec bp ap) as [Hlt|Hge]; [by left|right].
  destruct (wf_heads _ _ _ _ _ _ _ _ _ Hwf Hb Ha)
    as (b & a & Hhb & Hha & Hne & Hsb & Hsa & Hpb & Hpa).
  rewrite (trade_front_spec _ _ _ _ _ _ b a) by done.
  run_bind.
  set (q := N.min _ _).
  set (b' := with_remaining b _). set (a' := with_remaining a _).
  set (h' := <[ask := a']> (<[bid := b']> (heap st))).
  eexists _, _. split; [reflexivity|].
  (* the fills *)
  pose proof (wf_heap_agrees st h' Hwf
                (heap_agrees_fill _ _ _ _ _ _ _ Hhb Hha)) as Hwf1.
  assert (h' !! bid = Some b') as Hhb'.
  { unfold h'. rewrite lookup_insert_ne by auto. by rewrite lookup_insert_eq. }
  assert (h' !! ask = Some a') as Hha'.
  { unfold h'. by rewrite lookup_insert_eq. }
  (* the bid side *)
  set (st2 := mkState h'
          (if IsFilled b' then erase_if_empty bp bt br else bids_ st) (asks_ st)
          ((if IsFilled b' then delete (GetOrderId b) else id) (orders_ st))).
  assert (wf st2) as Hwf2.
  { unfold st2. destruct (IsFilled b'); [|done].
    apply (wf_pop_front _ Buy bp bid bt br b' Hwf1); done. }
  (* the ask side *)
  assert (wf (mkState h'
          (if IsFilled b' then erase_if_empty bp bt br else bids_ st)
          (if IsFilled a' then erase_if_empty ap at_ ar else asks_ st)
          ((if IsFilled a' then delete (GetOrderId a) else id)
             ((if IsFilled b' then delete (GetOrderId b) else id) (orders_ st)))))
    as Hwf3.
  { destruct (IsFilled a'); [|done].
    apply (wf_pop_front _ Sell ap ask at_ ar a' Hwf2); done. }
  rewrite Hb, Ha in Hwf3.
  by destruct (IsFilled b'), (IsFilled a').
Qed.

Lemma wf_levels_nonempty st : wf st → levels_nonempty st.
Proof.
  intros (_ & _ & Hb & Ha & _).
  split; (eapply Forall_impl; [eassumption|]); by intros [??] [? _].
Qed.

(** On a well-formed book the one-pair loop returns, and leaves a
    well-formed book that is not crossed. *)
Lemma cross_loop_wf n st :
  wf st → (length (resting st) ≤ n)%nat →
  ∃ ts st', cross_loop n st = Ret (ts, st') ∧ wf st' ∧ uncrossed st'.
Proof.
  revert st. induction n as [|n IH]; intros st Hwf Hn.
  - destruct (cross_step_wf st Hwf) as [[Hstep Hun]|(t & st' & Hstep & Hwf')].
    + exists [], st. simpl. by rewrite Hstep.
    + apply cross_step_decreases in Hstep as [? _]. lia.
  - destruct (cross_step_wf st Hwf) as [[Hstep Hun]|(t & st' & Hstep & Hwf')].
    + exists [], st. simpl. by rewrite Hstep.
    + pose proof Hstep as [Hlt _]%cross_step_decreases.
      destruct (IH st' Hwf') as (ts & st'' & Hloop & Hwf'' & Hun); [lia|].
      exists (t :: ts), st''. simpl. rewrite Hstep. simpl. by rewrite Hloop.
Qed.

Lemma MatchOrders_wf st :
  wf st → ∃ ts st', MatchOrders st = Ret (ts, st') ∧ wf st' ∧ uncrossed st'.
Proof.
  intros Hwf. rewrite MatchOrders_cross_loop by by apply wf_levels_nonempty.
  by apply cross_loop_wf.
Qed.

(** ** Not crossed, level by level *)

Lemma uncrossed_all st :
  wf st →
  uncrossed st ↔
    ∀ bp bq ap aq,
      map_at bp (bids_ st) = Some bq → map_at ap (asks_ st) = Some aq → bp < ap.
Proof.
  intros Hwf. pose proof (wf_sorted st Buy Hwf) as Hsb.
  pose proof (wf_sorted st Sell Hwf) as Hsa. simpl in Hsb, Hsa.
  unfold uncrossed. split.
  - intros Hun bp bq ap aq Hb Ha.
    destruct (bids_ st) as [|[b0 q0] br]; [done|].
    destruct (asks_ st) as [|[a0 r0] ar]; [done|].
    rewrite map_at_cons in Hb, Ha.
    assert (bp ≤ b0).
    { destruct (decide (bp = b0)); [lia|].
      destruct (map_at_tail Z.gtb _ _ _ _ _ Hsb Hb). lia. }
    assert (a0 ≤ ap).
    { destruct (decide (ap = a0)); [lia|].
      destruct (map_at_tail Z.ltb _ _ _ _ _ Hsa Ha). lia. }
    lia.
  - intros Hall.
    destruct (bids_ st) as [|[b0 q0] br]; [done|].
    destruct (asks_ st) as [|[a0 r0] ar]; [done|].
    apply (Hall b0 q0 a0 r0); simpl; by rewrite Z.eqb_refl.
Qed.

(** A state whose levels are among those of an uncrossed state is
    uncrossed. *)
Lemma uncrossed_sub st st' :
  wf st → wf st' → uncrossed st →
  (∀ s pr, is_Some (map_at pr (book s st')) → is_Some (map_at pr (book s st))) →
  uncrossed st'.
Proof.
  intros Hwf Hwf' Hun Hsub. apply uncrossed_all; [done|].
  intros bp bq ap aq Hb Ha.
  destruct (Hsub Buy bp) as [bq' Hb']; [by eexists|].
  destruct (Hsub Sell ap) as [aq' Ha']; [by eexists|].
  by apply (proj1 (uncrossed_all st Hwf) Hun bp bq' ap aq').
Qed.

(** ** [AddOrder] *)

Section MapPush.
Context (before : Price → Price → bool) `{!PriceOrder before}.

Lemma map_push_spec (m : list (Price * OrderPointers)) pr p :
  price_sorted before m →
  price_sorted before (map_push before pr p m) ∧
  ∀ pr', map_at pr' (map_push before pr p m) =
    if decide (pr' = pr) then Some (default [] (map_at pr m) ++ [p])
    else map_at pr' m.
Proof.
  intros Hs. unfold map_push.
  pose proof (map_subscript_sorted before pr [] m Hs) as Hs1.
  pose proof (map_at_subscript before pr pr [] m Hs) as Hat.
  rewrite decide_True in Hat by done. rewrite Hat. split.
  - by apply map_assign_sorted.
  - intros pr'. rewrite map_at_assign, Hat.
    case_decide; [done|]. rewrite map_at_subscript by done.
    by rewrite decide_False.
Qed.
End MapPush.

Lemma enqueue_eq order o st :
  orders_ st !! GetOrderId o = None →
  enqueue order o st =
    with_book (GetSide o)
      (map_push (before (GetSide o)) (GetPrice o) order (book (GetSide o) st))
      (<[GetOrderId o := mkOrderEntry order order]> (orders_ st)) st.
Proof.
  intros Hid. unfold enqueue, umap_insert.
  destruct (GetSide o); simpl; by rewrite Hid.
Qed.

Lemma enqueue_wf order o st :
  wf st → heap st !! order = Some o → orders_ st !! GetOrderId o = None →
  wf (enqueue order o st).
Proof.
  intros Hwf Ho Hid. rewrite enqueue_eq by done.
  pose proof (wf_sorted _ (GetSide o) Hwf) as Hs.
  destruct (map_push_spec _ _ (GetPrice o) order Hs) as [Hs' Hmap].
  set (st' := with_book _ _ _ _).
  assert (heap st' = heap st) as Hheap by by (unfold st'; destruct (GetSide o)).
  assert (orders_ st' = <[GetOrderId o := mkOrderEntry order order]> (orders_ st))
    as Hidx by by (unfold st'; destruct (GetSide o)).
  assert (∀ s pr, map_at pr (book s st') =
            if decide (s = GetSide o ∧ pr = GetPrice o)
            then Some (default [] (map_at pr (book s st)) ++ [order])
            else map_at pr (book s st)) as Hbook.
  { intros s pr. unfold st'. rewrite book_with_book.
    destruct (decide (s = GetSide o)) as [->|Hne].
    - rewrite Hmap. repeat case_decide; try tauto. by destruct_and!; subst.
    - rewrite decide_False; [done|tauto]. }
  assert (∀ s pr q x, map_at pr (book s st) = Some q → x ∈ q →
            ∃ ox, heap st' !! x = Some ox ∧ GetSide ox = s ∧ GetPrice ox = pr ∧
                  orders_ st' !! GetOrderId ox = Some (mkOrderEntry x x) ∧
                  x ≠ order) as Hold.
  { intros s pr q x Hq Hx.
    destruct (wf_resting _ _ _ _ _ Hwf Hq Hx) as (ox & Hox & ? & ? & Hidx0).
    assert (GetOrderId ox ≠ GetOrderId o) as Hne by congruence.
    exists ox. rewrite Hheap, Hidx, lookup_insert_ne by done.
    split_and!; try done. intros ->. congruence. }
  apply wf_intro.
  - intros s. unfold st'. rewrite book_with_book. case_decide as Hsd.
    + by subst s.
    + by apply wf_sorted.
  - intros s pr q Hq. rewrite Hbook in Hq. case_decide as Hsp.
    + destruct Hsp as [-> ->]. simplify_eq.
      destruct (map_at (GetPrice o) (book (GetSide o) st)) as [q|] eqn:Hq;
        simpl.
      * destruct (wf_level _ _ _ _ Hwf Hq) as (_ & Hnd & _).
        split_and!.
        -- by destruct q.
        -- apply NoDup_app. split_and!; [done| |apply NoDup_singleton].
           intros x Hx ->%list_elem_of_singleton.
           by destruct (Hold _ _ _ _ Hq Hx) as (? & _ & _ & _ & _ & ?).
        -- intros x [Hx| ->%list_elem_of_singleton]%elem_of_app.
           ++ destruct (Hold _ _ _ _ Hq Hx) as (ox & ? & ? & ? & ? & _). eauto.
           ++ exists o. rewrite Hheap, Hidx, lookup_insert_eq. done.
      * split_and!; [done|apply NoDup_singleton|].
        intros x ->%list_elem_of_singleton.
        exists o. rewrite Hheap, Hidx, lookup_insert_eq. done.
    + destruct (wf_level _ _ _ _ Hwf Hq) as (Hne & Hnd & _).
      split_and!; [done..|]. intros x Hx.
      destruct (Hold _ _ _ _ Hq Hx) as (ox & ? & ? & ? & ? & _). eauto.
  - intros id e He. rewrite Hidx in He. rewrite Hheap.
    apply lookup_insert_Some in He as [[<- <-]|[Hne He]].
    + simpl. exists o. eexists. rewrite Hbook, decide_True by done.
      split_and!; try done. apply elem_of_app. right. left.
    + destruct (wf_indexed _ _ _ Hwf He) as (o1 & q1 & Hloc & Ho1 & Hid1 & Hq1 & Hin1).
      exists o1. rewrite Hbook. case_decide as Hsp.
      * destruct Hsp as [Hs1 Hp1]. eexists. split_and!; try done.
        { by rewrite Hloc. }
        rewrite Hq1. simpl. apply elem_of_app. by left.
      * exists q1. split_and!; try done. by rewrite Hloc.
Qed.

Lemma AddOrder_wf st order o :
  wf st → heap st !! order = Some o →
  ∃ ts st', AddOrder order st = Ret (ts, st') ∧ wf st' ∧
            (uncrossed st → uncrossed st').
Proof.
  intros Hwf Ho. unfold AddOrder, deref. rewrite Ho. run_bind.
  case_decide as Hdup; [by exists [], st|].
  destruct (_ && _); [by exists [], st|].
  assert (orders_ st !! GetOrderId o = None) as Hid.
  { destruct (orders_ st !! GetOrderId o) eqn:E; [|done].
    exfalso. apply Hdup. by eexists. }
  destruct (MatchOrders_wf _ (enqueue_wf _ _ _ Hwf Ho Hid))
    as (ts & st' & Hret & Hwf' & Hun).
  by exists ts, st'.
Qed.

Lemma AddOrder_Ret_wf st order ts st' :
  wf st → AddOrder order st = Ret (ts, st') →
  wf st' ∧ (uncrossed st → uncrossed st').
Proof.
  intros Hwf Hret.
  destruct (heap st !! order) as [o|] eqn:Ho.
  - destruct (AddOrder_wf _ _ _ Hwf Ho) as (ts' & st'' & Hret' & ? & ?).
    rewrite Hret in Hret'. by simplify_eq.
  - unfold AddOrder, deref in Hret. by rewrite Ho in Hret.
Qed.

Lemma CancelOrder_wf st id :
  wf st →
  ∃ st', CancelOrder id st = Ret (tt, st') ∧ wf st' ∧ heap st' = heap st ∧
         orders_ st' !! id = None ∧ (uncrossed st → uncrossed st').
Proof.
  intros Hwf. destruct (orders_ st !! id) as [e|] eqn:He.
  - destruct (CancelOrder_present _ _ _ Hwf He)
      as (o & q & q' & st' & Ho & Hid & Hq & Hin & Herase & Hret & Hheap &
          Hidx & Hmap & _ & Hwf').
    exists st'. split_and!; try done.
    + rewrite Hidx. apply lookup_delete_eq.
    + intros Hun. apply (uncrossed_sub st); try done.
      intros s pr. rewrite Hmap.
      destruct (decide (s = GetSide o ∧ pr = GetPrice o)) as [[-> ->]|];
        [|done].
      intros _. by eexists.
  - exists st. by rewrite CancelOrder_absent.
Qed.

Lemma uncrossed_same_books st st' :
  bids_ st' = bids_ st → asks_ st' = asks_ st → uncrossed st → uncrossed st'.
Proof. unfold uncrossed. by intros -> ->. Qed.

Lemma MatchOrder_wf st order :
  wf st →
  ∃ ts st', MatchOrder order st = Ret (ts, st') ∧ wf st' ∧
            (uncrossed st → uncrossed st').
Proof.
  intros Hwf. unfold MatchOrder.
  destruct (orders_ st !! om_orderId_ order) as [[existingOrder it]|] eqn:He;
    [|by exists [], st].
  destruct (wf_indexed _ _ _ Hwf He) as (o & _ & _ & Ho & _). simpl in Ho.
  destruct (CancelOrder_wf st (om_orderId_ order) Hwf)
    as (st1 & Hret & Hwf1 & Hheap & _ & Hun1).
  rewrite Hret. cbn [mbind outcome_bind snd]. unfold deref.
  rewrite Hheap, Ho. run_bind.
  destruct (make_shared (ToOrder order (GetOrderType o)) st1) as [p st2] eqn:Hms.
  pose proof (make_shared_wf (ToOrder order (GetOrderType o)) st1 Hwf1) as Hwf2.
  rewrite Hms in Hwf2. simpl in Hwf2.
  assert (heap st2 !! p = Some (ToOrder order (GetOrderType o))) as Hp.
  { unfold make_shared in Hms. simplify_eq. simpl. apply lookup_insert_eq. }
  destruct (AddOrder_wf _ _ _ Hwf2 Hp) as (ts & st' & Hadd & Hwf' & Hun2).
  exists ts, st'. split_and!; try done.
  intros Hun. apply Hun2. apply (uncrossed_same_books st1); [..|by auto];
    unfold make_shared in Hms; by simplify_eq.
Qed.

(** ** Reachable states are well-formed and never crossed *)

Lemma step_wf st st' :
  step st st' → wf st ∧ uncrossed st → wf st' ∧ uncrossed st'.
Proof.
  intros Hstep [Hwf Hun]. destruct Hstep as
    [o st|order st trades st' Hret|orderId st st' Hret|order st trades st' Hret].
  - split; [by apply make_shared_wf|]. by apply (uncrossed_same_books st).
  - destruct (AddOrder_Ret_wf _ _ _ _ Hwf Hret). auto.
  - destruct (CancelOrder_wf st orderId Hwf) as (st'' & Hret' & ? & _ & _ & ?).
    rewrite Hret in Hret'. simplify_eq. auto.
  - destruct (MatchOrder_wf st order Hwf) as (ts & st'' & Hret' & ? & ?).
    rewrite Hret in Hret'. simplify_eq. auto.
Qed.

Lemma reachable_wf st : reachable st → wf st ∧ uncrossed st.
Proof.
  unfold reachable. revert st. apply rtc_ind_r.
  - split; [apply wf_empty|done].
  - intros st st' _ Hstep IH. by eapply step_wf.
Qed.

(** * The specification, claim by claim *)

(** ** Fill *)

(** C8. [Fill] with a quantity above the remaining quantity raises the
    overfill error and leaves every field of the order as it was; with a
    quantity of at most the remaining quantity it raises nothing, lowers
    the remaining quantity by exactly that quantity, and keeps the other
    fields. *)
Theorem Fill_overfill_or_exact (o : Order) (quantity : Quantity) :
  ((GetRemainingQuantity o < quantity)%N →
     Fill quantity o = (o, Some (logic_error (GetOrderId o)))) ∧
  ((quantity ≤ GetRemainingQuantity o)%N →
     ∃ o', Fill quantity o = (o', None) ∧
       (GetRemainingQuantity o' + quantity = GetRemainingQuantity o)%N ∧
       GetOrderType o' = GetOrderType o ∧ GetOrderId o' = GetOrderId o ∧
       GetSide o' = GetSide o ∧ GetPrice o' = GetPrice o ∧
       GetInitialQuantity o' = GetInitialQuantity o).
Proof.
  unfold Fill. split; intros Hq.
  - by apply N.ltb_lt in Hq as ->.
  - apply N.ltb_ge in Hq as Hlt. rewrite Hlt. eexists. split; [done|].
    unfold GetRemainingQuantity, with_remaining in *. simpl.
    split_and!; try done. lia.
Qed.

Lemma Fill_overfill_or_exact_witness :
  Fill 11 (Order_new GoodTillCancel 1 Buy 100 10) =
    (Order_new GoodTillCancel 1 Buy 100 10, Some (logic_error 1)) ∧
  ∃ o', Fill 4 (Order_new GoodTillCancel 1 Buy 100 10) = (o', None) ∧
        (GetRemainingQuantity o' + 4 = 10)%N.
Proof.
  split.
  - apply (proj1 (Fill_overfill_or_exact
                    (Order_new GoodTillCancel 1 Buy 100 10) 11)).
    vm_compute. reflexivity.
  - destruct (proj2 (Fill_overfill_or_exact
                       (Order_new GoodTillCancel 1 Buy 100 10) 4))
      as (o' & Hfill & Hrem & _).
    + vm_compute. discriminate.
    + exists o'. split; [exact Hfill|exact Hrem].
Defined.

Lemma wf_one_bid : wf one_bid.
Proof. apply (bool_decide_unpack _). by vm_compute. Qed.

(** ** Rejected submissions *)

Lemma CanMatch_priced_to_cross side price st :
  wf st → CanMatch side price st = true ↔ priced_to_cross side price st.
Proof.
  intros Hwf. pose proof (wf_sorted st Buy Hwf) as Hsb.
  pose proof (wf_sorted st Sell Hwf) as Hsa. simpl in Hsb, Hsa.
  unfold CanMatch, priced_to_cross. destruct side.
  - destruct (asks_ st) as [|[a0 q0] ar].
    + split; [done|]. by intros (? & ? & ? & _).
    + rewrite Z.geb_le. split.
      * intros Hle. exists a0, q0. simpl. by rewrite Z.eqb_refl.
      * intros (ap & aq & Hat & Hle). rewrite map_at_cons in Hat.
        destruct (decide (ap = a0)) as [->|Hne]; [done|].
        destruct (map_at_tail Z.ltb _ _ _ _ _ Hsa Hat). lia.
  - destruct (bids_ st) as [|[b0 q0] br].
    + split; [done|]. by intros (? & ? & ? & _).
    + rewrite Z.leb_le. split.
      * intros Hle. exists b0, q0. simpl. by rewrite Z.eqb_refl.
      * intros (bp & bq & Hat & Hle). rewrite map_at_cons in Hat.
        destruct (decide (bp = b0)) as [->|Hne]; [done|].
        destruct (map_at_tail Z.gtb _ _ _ _ _ Hsb Hat). lia.
Qed.

(** C6. [AddOrder] returns no trade and the state it was called on (the
    store, both books and the index, unchanged) when the id of the
    submitted order is already in the index, and when the order is
    fill-and-kill and no resting order of the other side is priced to cross
    it; so an id that was not in the index is not in it afterwards. *)
Theorem AddOrder_rejected st order o :
  wf st → heap st !! order = Some o →
  is_Some (orders_ st !! GetOrderId o) ∨
  (GetOrderType o = FillAndKill ∧
   ¬ priced_to_cross (GetSide o) (GetPrice o) st) →
  AddOrder order st = Ret ([], st).
Proof.
  intros Hwf Ho Hrej.
  unfold AddOrder, deref. rewrite Ho. run_bind.
  case_decide as Hdup; [done|].
  destruct Hrej as [Hin|[Hfak Hno]]; [done|].
  rewrite bool_decide_eq_true_2 by done.
  destruct (CanMatch _ _ _) eqn:Hcan; [|done].
  by apply CanMatch_priced_to_cross in Hcan.
Qed.

Lemma AddOrder_rejected_witness :
  AddOrder 2%positive one_bid = Ret ([], one_bid) ∧
  AddOrder 3%positive one_bid = Ret ([], one_bid) ∧
  orders_ one_bid !! 3%N = None.
Proof.
  split_and!.
  - apply (AddOrder_rejected one_bid 2%positive
             (Order_new GoodTillCancel 1 Sell 100 5) wf_one_bid).
    + vm_compute. reflexivity.
    + left. vm_compute. eexists. reflexivity.
  - apply (AddOrder_rejected one_bid 3%positive
             (Order_new FillAndKill 3 Sell 101 5) wf_one_bid).
    + vm_compute. reflexivity.
    + right. split; [reflexivity|].
      intros (bp & bq & Hat & Hle). vm_compute in Hle.
      unfold one_bid in Hat. simpl in Hat.
      destruct (Z.eqb_spec bp 100); [|discriminate]. subst. by apply Hle.
  - vm_compute. reflexivity.
Defined.

(** ** Cancel *)

Lemma filter_ne_id (p : OrderPointer) (q : OrderPointers) :
  p ∉ q → filter (λ x, x ≠ p) q = q.
Proof.
  induction q as [|x q IH]; [done|].
  intros [Hx Hq]%not_elem_of_cons.
  rewrite filter_cons_True by auto. by rewrite IH.
Qed.

Lemma list_erase_filter p q q' :
  NoDup q → list_erase p q = Some q' → q' = filter (λ x, x ≠ p) q.
Proof.
  intros Hnd (l1 & l2 & -> & -> & Hnin)%list_erase_Some.
  apply NoDup_app in Hnd as (_ & Hdisj & [Hp _]%NoDup_cons).
  rewrite filter_app, filter_cons_False by (intros H; by apply H).
  by rewrite !filter_ne_id.
Qed.

Lemma CancelOrder_erases st id st' :
  CancelOrder id st = Ret (tt, st') →
  heap st' = heap st ∧ orders_ st' !! id = None.
Proof.
  unfold CancelOrder.
  destruct (orders_ st !! id) as [[order it]|] eqn:He.
  - intros (o & _ & Hret)%bind_Ret_inv.
    destruct (GetSide o);
      apply bind_Ret_inv in Hret as (m & _ & Hret); simplify_eq; simpl;
      (split; [done|apply lookup_delete_eq]).
  - by intros [= <-].
Qed.

(** C7. Cancelling an id that is not in the index changes nothing, so a
    second cancel of the same id changes nothing.  Cancelling an id that is
    in the index takes its order, and no other, out of the queue of the
    order's side and price, keeping the others in their order; the level
    disappears when that leaves its queue empty; the id leaves the index;
    the store, the other index entries and all other levels stay as they
    were. *)
Theorem CancelOrder_exact st id :
  wf st →
  (orders_ st !! id = None → CancelOrder id st = Ret (tt, st)) ∧
  (∀ st1, CancelOrder id st = Ret (tt, st1) →
          CancelOrder id st1 = Ret (tt, st1)) ∧
  (∀ e, orders_ st !! id = Some e →
     ∃ o q st',
       heap st !! order_ e = Some o ∧ GetOrderId o = id ∧
       map_at (GetPrice o) (book (GetSide o) st) = Some q ∧ order_ e ∈ q ∧
       CancelOrder id st = Ret (tt, st') ∧
       heap st' = heap st ∧ orders_ st' = delete id (orders_ st) ∧
       (∀ s pr, map_at pr (book s st') =
          if decide (s = GetSide o ∧ pr = GetPrice o)
          then match filter (λ x, x ≠ order_ e) q with
               | [] => None
               | q' => Some q'
               end
          else map_at pr (book s st)) ∧
       wf st').
Proof.
  intros Hwf. split_and!.
  - apply CancelOrder_absent.
  - intros st1 [_ Hnone]%CancelOrder_erases. by apply CancelOrder_absent.
  - intros e He.
    destruct (CancelOrder_present _ _ _ Hwf He)
      as (o & q & q' & st' & Ho & Hid & Hq & Hin & Herase & Hret & Hheap &
          Hidx & Hmap & _ & Hwf').
    exists o, q, st'. split_and!; try done.
    intros s pr. rewrite Hmap.
    destruct (wf_level _ _ _ _ Hwf Hq) as (_ & Hnd & _). simpl in Hnd.
    rewrite <-(list_erase_filter _ _ _ Hnd Herase).
    destruct (decide (s = GetSide o ∧ pr = GetPrice o)); [|done].
    by destruct q'.
Qed.

Lemma CancelOrder_exact_witness :
  CancelOrder 1 one_bid =
    Ret (tt, mkState (heap one_bid) [] [] ∅) ∧
  CancelOrder 1 (mkState (heap one_bid) [] [] ∅) =
    Ret (tt, mkState (heap one_bid) [] [] ∅) ∧
  ∃ st', CancelOrder 1 one_bid = Ret (tt, st') ∧
         orders_ st' = delete 1%N (orders_ one_bid) ∧ wf st'.
Proof.
  destruct (CancelOrder_exact one_bid 1 wf_one_bid) as (_ & Hidem & Hin).
  split_and!.
  - vm_compute. reflexivity.
  - apply Hidem. vm_compute. reflexivity.
  - destruct (Hin (mkOrderEntry 1 1)) as (o & q & st' & H); [done|].
    exists st'. tauto.
Defined.

(** ** Modify *)


(** ** Matching *)

Lemma book_enqueue s order o st :
  book s (enqueue order o st) =
    if decide (s = GetSide o)
    then map_push (before s) (GetPrice o) order (book s st)
    else book s st.
Proof. unfold enqueue. by destruct s, (GetSide o). Qed.

Lemma cross_step_uncrossed st :
  wf st → uncrossed st → cross_step st = Ret None.
Proof.
  intros Hwf Hun.
  destruct (cross_step_wf st Hwf) as [[? _]|(t & st' & Hstep & _)]; [done|].
  apply cross_step_Some in Hstep
    as (bp & bid & bt & br & ap & ask & at_ & ar & bq' & aq' &
        Hb & Ha & Hlt & _).
  unfold uncrossed in Hun. rewrite Hb, Ha in Hun. lia.
Qed.

Lemma wf_crossed_book : wf crossed_book.
Proof. apply (bool_decide_unpack _). by vm_compute. Qed.

Lemma AddOrder_accepted st order o :
  heap st !! order = Some o → orders_ st !! GetOrderId o = None →
  GetOrderType o = GoodTillCancel ∨
    CanMatch (GetSide o) (GetPrice o) st = true →
  AddOrder order st = MatchOrders (enqueue order o st).
Proof.
  intros Ho Hid Hok. unfold AddOrder, deref. rewrite Ho.
  run_bind.
  rewrite decide_False by (rewrite Hid; by intros [??]).
  destruct Hok as [Hgtc|Hcan].
  - rewrite bool_decide_eq_false_2; [done|]. by rewrite Hgtc.
  - rewrite Hcan. by rewrite andb_false_r.
Qed.

(** C2. An accepted order joins the back of the queue of its level, which
    leaves a well-formed book, and [AddOrder] returns what [MatchOrders]
    returns on that book.  On a well-formed book [MatchOrders] does nothing
    when a side is empty or the best bid is below the best ask.  Otherwise it pairs the
    front order of the best bid level with the front order of the best ask
    level: the trade is for the smaller of the two remaining quantities,
    both orders are filled by it, the buy side of the trade carries the bid
    order's id and price and the sell side the ask order's, an order left
    with nothing remaining is popped from the front of its queue and its id
    is erased from the index, a level whose queue is emptied is erased, and
    matching goes on from the resulting book.  Orders join at the back and
    leave at the front, so within a level the earliest arrival trades
    first. *)
Theorem MatchOrders_pairs_fronts st :
  wf st →
  (uncrossed st → MatchOrders st = Ret ([], st)) ∧
  (∀ bp bid bt br ap ask at_ ar,
     bids_ st = (bp, bid :: bt) :: br → asks_ st = (ap, ask :: at_) :: ar →
     ap ≤ bp →
     ∃ b a,
       heap st !! bid = Some b ∧ heap st !! ask = Some a ∧
       GetPrice b = bp ∧ GetPrice a = ap ∧
       let quantity := N.min (GetRemainingQuantity b) (GetRemainingQuantity a) in
       let b' := with_remaining b (GetRemainingQuantity b - quantity)%N in
       let a' := with_remaining a (GetRemainingQuantity a - quantity)%N in
       let st' :=
         mkState (<[ask := a']> (<[bid := b']> (heap st)))
           (if IsFilled b' then erase_if_empty bp bt br else bids_ st)
           (if IsFilled a' then erase_if_empty ap at_ ar else asks_ st)
           ((if IsFilled a' then delete (GetOrderId a) else id)
              ((if IsFilled b' then delete (GetOrderId b) else id)
                 (orders_ st))) in
       MatchOrders st =
         r ← MatchOrders st';
         Ret (mkTrade (mkTradeInfo (GetOrderId b) (GetPrice b) quantity)
                      (mkTradeInfo (GetOrderId a) (GetPrice a) quantity)
                :: r.1, r.2)) ∧
  (∀ order o s,
     map_at (GetPrice o) (book s (enqueue order o st)) =
       if decide (s = GetSide o)
       then Some (default [] (map_at (GetPrice o) (book s st)) ++ [order])
       else map_at (GetPrice o) (book s st)) ∧
  (∀ order o,
     heap st !! order = Some o → orders_ st !! GetOrderId o = None →
     GetOrderType o = GoodTillCancel ∨
       CanMatch (GetSide o) (GetPrice o) st = true →
     wf (enqueue order o st) ∧
     AddOrder order st = MatchOrders (enqueue order o st)).
Proof.
  intros Hwf. pose proof (wf_levels_nonempty _ Hwf) as Hne. split_and!.
  - intros Hun. rewrite MatchOrders_cross_loop by done.
    rewrite cross_loop_unfold by lia.
    by rewrite cross_step_uncrossed.
  - intros bp bid bt br ap ask at_ ar Hb Ha Hle.
    destruct (wf_heads _ _ _ _ _ _ _ _ _ Hwf Hb Ha)
      as (b & a & Hhb & Hha & Hneq & Hsb & Hsa & Hpb & Hpa).
    exists b, a. split_and!; try done. cbv zeta.
    set (quantity := N.min _ _).
    set (b' := with_remaining b _). set (a' := with_remaining a _).
    set (st' := mkState _ _ _ _).
    assert (cross_step st =
      Ret (Some (mkTrade (mkTradeInfo (GetOrderId b) (GetPrice b) quantity)
                   (mkTradeInfo (GetOrderId a) (GetPrice a) quantity), st')))
      as Hstep.
    { unfold cross_step. rewrite Hb, Ha.
      destruct (Z.ltb_spec bp ap); [lia|].
      rewrite (trade_front_spec _ _ _ _ _ _ b a) by done.
      run_bind. fold quantity b' a'. unfold st'.
      rewrite Hb, Ha. by destruct (IsFilled b'), (IsFilled a'). }
    rewrite MatchOrders_cross_loop by done.
    rewrite cross_loop_unfold by lia. rewrite Hstep.
    run_bind.
    apply cross_step_decreases in Hstep as [_ Hne'].
    by rewrite MatchOrders_cross_loop by auto.
  - intros order o s. rewrite book_enqueue.
    case_decide as Hs; [|done].
    destruct (map_push_spec (before s) (book s st) (GetPrice o) order
                (wf_sorted _ s Hwf)) as [_ Hmap].
    by rewrite Hmap, decide_True.
  - intros order o Ho Hid Hok. split.
    + by apply enqueue_wf.
    + by apply AddOrder_accepted.
Qed.

Lemma MatchOrders_pairs_fronts_witness :
  MatchOrders crossed_book =
    Ret ([mkTrade (mkTradeInfo 1 100 4) (mkTradeInfo 2 100 4)],
         mkState
           (<[2%positive := mkOrder GoodTillCancel 2 Sell 100 4 0]>
              (<[1%positive := mkOrder GoodTillCancel 1 Buy 100 10 6]>
                 (heap crossed_book)))
           [(100, [1%positive])] [] (delete 2%N (orders_ crossed_book))).
Proof.
  destruct (MatchOrders_pairs_fronts crossed_book wf_crossed_book)
    as (_ & Hstep & _ & _).
  destruct (Hstep 100 1%positive [] [] 100 2%positive [] [])
    as (b & a & Hb & Ha & _ & _ & Heq); [reflexivity|reflexivity|lia|].
  vm_compute in Hb, Ha. simplify_eq. rewrite Heq. vm_compute. reflexivity.
Defined.

(** ** Never crossed *)

Lemma uncrossed_best st :
  wf st → uncrossed st →
  bids_ st = [] ∨ asks_ st = [] ∨
  ∃ bestBid bestAsk,
    highest_bid st bestBid ∧ lowest_ask st bestAsk ∧ bestBid < bestAsk.
Proof.
  intros Hwf Hun. pose proof (wf_sorted st Buy Hwf) as Hsb.
  pose proof (wf_sorted st Sell Hwf) as Hsa. simpl in Hsb, Hsa.
  unfold uncrossed, highest_bid, lowest_ask in *.
  destruct (bids_ st) as [|[b0 q0] br]; [by left|].
  destruct (asks_ st) as [|[a0 r0] ar]; [by right; left|].
  right; right. exists b0, a0. split_and!; [| | | |done].
  - simpl. rewrite Z.eqb_refl. by eexists.
  - intros p' [q Hq]. rewrite map_at_cons in Hq.
    destruct (decide (p' = b0)); [lia|].
    destruct (map_at_tail Z.gtb _ _ _ _ _ Hsb Hq). lia.
  - simpl. rewrite Z.eqb_refl. by eexists.
  - intros p' [q Hq]. rewrite map_at_cons in Hq.
    destruct (decide (p' = a0)); [lia|].
    destruct (map_at_tail Z.ltb _ _ _ _ _ Hsa Hq). lia.
Qed.

(** C3. On a reachable state [AddOrder] of a live order returns, and in
    the state it returns the bid side is empty, or the ask side is empty,
    or the highest bid price is strictly below the lowest ask price. *)
Theorem AddOrder_leaves_uncrossed st order :
  reachable st → is_Some (heap st !! order) →
  ∃ trades st',
    AddOrder order st = Ret (trades, st') ∧
    (bids_ st' = [] ∨ asks_ st' = [] ∨
     ∃ bestBid bestAsk,
       highest_bid st' bestBid ∧ lowest_ask st' bestAsk ∧ bestBid < bestAsk).
Proof.
  intros [Hwf Hun]%reachable_wf [o Ho].
  destruct (AddOrder_wf _ _ _ Hwf Ho) as (trades & st' & Hret & Hwf' & Hun').
  exists trades, st'. split; [done|]. apply uncrossed_best; auto.
Qed.

Lemma reachable_bid_and_new_ask : reachable bid_and_new_ask.
Proof.
  unfold reachable.
  eapply rtc_l; [apply (step_make_shared (Order_new GoodTillCancel 1 Buy 100 10))|].
  eapply rtc_l; [eapply (step_AddOrder 1%positive); vm_compute; reflexivity|].
  eapply rtc_l; [apply (step_make_shared (Order_new GoodTillCancel 2 Sell 101 5))|].
  vm_compute. apply rtc_refl.
Qed.

Lemma reachable_two_bids_one_ask : reachable two_bids_one_ask.
Proof.
  unfold reachable.
  eapply rtc_l; [apply (step_make_shared (Order_new GoodTillCancel 1 Buy 98 10))|].
  eapply rtc_l; [eapply (step_AddOrder 1%positive); vm_compute; reflexivity|].
  eapply rtc_l; [apply (step_make_shared (Order_new GoodTillCancel 2 Buy 99 10))|].
  eapply rtc_l; [eapply (step_AddOrder 2%positive); vm_compute; reflexivity|].
  eapply rtc_l; [apply (step_make_shared (Order_new GoodTillCancel 3 Sell 100 5))|].
  eapply rtc_l; [eapply (step_AddOrder 3%positive); vm_compute; reflexivity|].
  eapply rtc_l; [apply (step_make_shared (Order_new GoodTillCancel 4 Buy 100 3))|].
  vm_compute. apply rtc_refl.
Qed.

(** A buy of 3 at 100 meets the resting sell of 5 at 100 and trades; the
    book it leaves has bids at 99 and 98 below the ask at 100. *)
Lemma AddOrder_leaves_uncrossed_witness :
  ∃ st',
    AddOrder 4%positive two_bids_one_ask =
      Ret ([mkTrade (mkTradeInfo 4 100 3) (mkTradeInfo 3 100 3)], st') ∧
    ∃ bestBid bestAsk,
      highest_bid st' bestBid ∧ lowest_ask st' bestAsk ∧ bestBid < bestAsk.
Proof.
  destruct (AddOrder_leaves_uncrossed two_bids_one_ask 4%positive
              reachable_two_bids_one_ask)
    as (trades & st' & Hadd & Hbest).
  { vm_compute. eexists. reflexivity. }
  vm_compute in Hadd. injection Hadd as <- <-.
  eexists. split; [vm_compute; reflexivity|].
  destruct Hbest as [Hb|[Ha|Hbest]]; [discriminate Hb|discriminate Ha|].
  exact Hbest.
Defined.

(** ** Level snapshots *)

Lemma accumulate_spec h orders sum :
  (∀ p, p ∈ orders → is_Some (h !! p)) → (sum < Quantity_modulus)%N →
  accumulate h orders sum =
    Ret ((sum + level_total h orders) mod Quantity_modulus)%N.
Proof.
  revert sum. induction orders as [|p orders IH]; intros sum Hlive Hsum.
  - simpl. rewrite N.add_0_r, N.mod_small by done. done.
  - destruct (Hlive p) as [o Ho]; [left|].
    simpl. unfold deref. rewrite Ho. cbn [mbind outcome_bind from_option].
    rewrite IH.
    + unfold Quantity_add. f_equal.
      rewrite N.Div0.add_mod_idemp_l. f_equal. lia.
    + intros p' Hp'. apply Hlive. by right.
    + unfold Quantity_add. by apply N.mod_lt.
Qed.

Lemma level_infos_spec h m infos :
  (∀ lvl p, lvl ∈ m → p ∈ lvl.2 → is_Some (h !! p)) →
  level_infos h m infos = Ret (infos ++ wrapped_snapshot h m).
Proof.
  revert infos. induction m as [|[pr q] m IH]; intros infos Hlive.
  - simpl. by rewrite app_nil_r.
  - simpl. unfold CreateLevelInfo.
    rewrite accumulate_spec; [|intros p Hp; apply (Hlive (pr, q)); [left|done]|done].
    run_bind. rewrite IH.
    + by rewrite <-app_assoc.
    + intros lvl p Hlvl. apply Hlive. by right.
Qed.

Lemma wf_live st s lvl p :
  wf st → lvl ∈ book s st → p ∈ lvl.2 → is_Some (heap st !! p).
Proof.
  intros Hwf Hlvl Hp. destruct lvl as [pr q].
  apply (map_at_sorted_elem_of (before s)) in Hlvl; [|by apply wf_sorted].
  destruct (wf_resting _ _ _ _ _ Hwf Hlvl Hp) as (o & Ho & _). by eexists.
Qed.

Lemma GetOrderInfos_wf st :
  wf st →
  GetOrderInfos st =
    Ret (mkOrderbookLevelInfos (wrapped_snapshot (heap st) (bids_ st))
           (wrapped_snapshot (heap st) (asks_ st)), st).
Proof.
  intros Hwf. unfold GetOrderInfos.
  rewrite (level_infos_spec _ (bids_ st))
    by (intros ??; by apply (wf_live st Buy)).
  run_bind.
  rewrite (level_infos_spec _ (asks_ st))
    by (intros ??; by apply (wf_live st Sell)).
  done.
Qed.

Lemma wrapped_snapshot_prices h m :
  li_price_ <$> wrapped_snapshot h m = m.*1.
Proof.
  unfold wrapped_snapshot. rewrite <-list_fmap_compose.
  apply list_fmap_ext. by intros i [??] _.
Qed.

Lemma wrapped_snapshot_sorted before `{!PriceOrder before} h m :
  price_sorted before m →
  StronglySorted (λ x y, before (li_price_ x) (li_price_ y) = true)
    (wrapped_snapshot h m).
Proof.
  unfold price_sorted, wrapped_snapshot. intros Hs.
  induction Hs as [|x m Hs IH Hall]; [constructor|].
  rewrite fmap_cons. constructor; [done|].
  rewrite Forall_fmap. by eapply Forall_impl.
Qed.

Lemma StronglySorted_weaken {A} (R R' : A → A → Prop) l :
  (∀ x y, R x y → R' x y) → StronglySorted R l → StronglySorted R' l.
Proof.
  intros HR Hs. induction Hs as [|x l Hs IH Hall]; constructor; [done|].
  eapply Forall_impl; [exact Hall|]. auto.
Qed.

Lemma reachable_two_large_bids : reachable two_large_bids.
Proof.
  unfold reachable.
  eapply rtc_l;
    [apply (step_make_shared (Order_new GoodTillCancel 1 Buy 100 3000000000))|].
  eapply rtc_l; [eapply (step_AddOrder 1%positive); vm_compute; reflexivity|].
  eapply rtc_l;
    [apply (step_make_shared (Order_new GoodTillCancel 2 Buy 100 3000000000))|].
  eapply rtc_l; [eapply (step_AddOrder 2%positive); vm_compute; reflexivity|].
  vm_compute. apply rtc_refl.
Qed.

(** C9, as stated, fails: with two buys of 3,000,000,000 resting at 100
    the snapshot reports 1,705,032,704 for the level, not the sum
    6,000,000,000 of the remaining quantities. *)
Lemma GetOrderInfos_total_wraps :
  reachable two_large_bids ∧
  GetOrderInfos two_large_bids =
    Ret (mkOrderbookLevelInfos [mkLevelInfo 100 1705032704] [],
         two_large_bids) ∧
  exact_snapshot (heap two_large_bids) (bids_ two_large_bids) =
    [mkLevelInfo 100 6000000000] ∧
  [mkLevelInfo 100 1705032704] ≠
    exact_snapshot (heap two_large_bids) (bids_ two_large_bids).
Proof.
  split_and!.
  - exact reachable_two_large_bids.
  - vm_compute. reflexivity.
  - vm_compute. reflexivity.
  - vm_compute. discriminate.
Qed.

(** C9, amended.  On a well-formed book [GetOrderInfos] returns, for each
    side, one pair per level of that side in the order of the map: its
    price and the sum of the remaining quantities of its orders reduced
    modulo [2^32] (the exact sum whenever that is below [2^32]); bid prices
    are strictly descending and ask prices strictly ascending; the state is
    returned unchanged. *)
Theorem GetOrderInfos_snapshot st :
  wf st →
  ∃ infos,
    GetOrderInfos st = Ret (infos, st) ∧
    oli_bids_ infos = wrapped_snapshot (heap st) (bids_ st) ∧
    oli_asks_ infos = wrapped_snapshot (heap st) (asks_ st) ∧
    StronglySorted (λ x y, li_price_ y < li_price_ x) (oli_bids_ infos) ∧
    StronglySorted (λ x y, li_price_ x < li_price_ y) (oli_asks_ infos) ∧
    (∀ s, Forall (λ lvl, (level_total (heap st) lvl.2 < Quantity_modulus)%N)
            (book s st) →
          wrapped_snapshot (heap st) (book s st) =
            exact_snapshot (heap st) (book s st)).
Proof.
  intros Hwf. eexists. split; [by apply GetOrderInfos_wf|]. simpl.
  split_and!; try done.
  - eapply StronglySorted_weaken;
      [|apply (wrapped_snapshot_sorted Z.gtb), (wf_sorted st Buy Hwf)].
    simpl. intros x y Hxy. lia.
  - eapply StronglySorted_weaken;
      [|apply (wrapped_snapshot_sorted Z.ltb), (wf_sorted st Sell Hwf)].
    simpl. intros x y Hxy. lia.
  - intros s Hsmall. unfold wrapped_snapshot, exact_snapshot.
    apply Forall_fmap_ext_1. eapply Forall_impl; [exact Hsmall|].
    intros [pr q] Hq. simpl in *. f_equal. by apply N.mod_small.
Qed.

Lemma GetOrderInfos_snapshot_witness :
  ∃ infos,
    GetOrderInfos one_bid = Ret (infos, one_bid) ∧
    oli_bids_ infos = [mkLevelInfo 100 10] ∧ oli_asks_ infos = [].
Proof.
  destruct (GetOrderInfos_snapshot one_bid wf_one_bid)
    as (infos & Hret & Hb & Ha & _).
  exists infos. split; [exact Hret|]. split.
  - rewrite Hb. vm_compute. reflexivity.
  - rewrite Ha. vm_compute. reflexivity.
Defined.

(** ** Termination *)

Lemma match_level_ends fuel bq aq h idx acc bq' aq' h' idx' acc' :
  match_level fuel bq aq h idx acc = Ret (bq', aq', h', idx', acc') →
  bq' = [] ∨ aq' = [].
Proof.
  revert bq aq h idx acc.
  induction fuel as [|fuel IH]; intros bq aq h idx acc.
  - destruct bq as [|bid bt]; simpl; [intros [= <- <- <- <- <-]; by left|].
    destruct aq as [|ask at_]; [intros [= <- <- <- <- <-]; by right|done].
  - destruct bq as [|bid bt]; simpl; [intros [= <- <- <- <- <-]; by left|].
    destruct aq as [|ask at_]; [intros [= <- <- <- <- <-]; by right|].
    intros ([[[[bq1 aq1] h1] idx1] t1] & _ & Hrest)%bind_Ret_inv.
    by apply IH in Hrest.
Qed.

Lemma match_best_erases bp ap bq aq br ar h orders acc trades st' :
  match_best bp ap bq aq br ar h orders acc = Ret (trades, st') →
  (length (bids_ st') + length (asks_ st') <
   length ((bp, bq) :: br) + length ((ap, aq) :: ar))%nat.
Proof.
  unfold match_best.
  intros ([[[[bq1 aq1] h1] idx1] t1] & Hlevel & Hret)%bind_Ret_inv.
  simplify_eq. simpl.
  pose proof (length_erase_if_empty bp bq1 br).
  pose proof (length_erase_if_empty ap aq1 ar).
  apply match_level_ends in Hlevel as [-> | ->]; simpl in *; lia.
Qed.

Lemma MatchOrders_loop_spare_fuel st fuel :
  levels_nonempty st → (length (bids_ st) + length (asks_ st) ≤ fuel)%nat →
  MatchOrders_loop fuel st [] = MatchOrders st.
Proof.
  intros Hne Hfuel. unfold MatchOrders.
  rewrite (loops_agree_all (length (resting st))) by (done || lia).
  by rewrite (loops_agree_all (length (resting st)) st
                (length (bids_ st) + length (asks_ st))%nat) by (done || lia).
Qed.

(** C10. Every public operation returns on every reachable state:
    [AddOrder] for any live order pointer, with the matching loop it runs
    after queueing the order, [CancelOrder], [MatchOrder], [Size] and
    [GetOrderInfos]; the matching loop returns within the fuel
    [MatchOrders] gives it, and more fuel gives the same result.  A turn of
    the inner matching loop that returns has popped at least one of the two
    fronts, and a turn of the outer loop that returns has erased at least
    one price level. *)
Theorem operations_return st :
  reachable st →
  (∀ order, is_Some (heap st !! order) →
     ∃ trades st', AddOrder order st = Ret (trades, st')) ∧
  (∀ order o, heap st !! order = Some o →
     orders_ st !! GetOrderId o = None →
     ∃ trades st',
       MatchOrders (enqueue order o st) = Ret (trades, st') ∧
       ∀ fuel,
         (length (bids_ (enqueue order o st)) +
          length (asks_ (enqueue order o st)) ≤ fuel)%nat →
         MatchOrders_loop fuel (enqueue order o st) [] = Ret (trades, st')) ∧
  (∀ orderId, ∃ st', CancelOrder orderId st = Ret (tt, st')) ∧
  (∀ order, ∃ trades st', MatchOrder order st = Ret (trades, st')) ∧
  Size st = Ret (size (orders_ st), st) ∧
  (∃ infos, GetOrderInfos st = Ret (infos, st)) ∧
  (∀ bid ask bids asks h orders bids' asks' h' orders' trade,
     trade_front bid ask (bid :: bids) (ask :: asks) h orders =
       Ret (bids', asks', h', orders', trade) →
     (length bids' + length asks' <
      length (bid :: bids) + length (ask :: asks))%nat) ∧
  (∀ bp ap bq aq br ar h orders acc trades st',
     match_best bp ap bq aq br ar h orders acc = Ret (trades, st') →
     (length (bids_ st') + length (asks_ st') <
      length ((bp, bq) :: br) + length ((ap, aq) :: ar))%nat).
Proof.
  intros [Hwf Hun]%reachable_wf. split_and!.
  - intros order [o Ho].
    destruct (AddOrder_wf _ _ _ Hwf Ho) as (ts & st' & ? & _). eauto.
  - intros order o Ho Hid.
    pose proof (enqueue_wf _ _ _ Hwf Ho Hid) as Hwf1.
    destruct (MatchOrders_wf _ Hwf1) as (ts & st' & Hret & _).
    exists ts, st'. split; [done|]. intros fuel Hfuel.
    rewrite MatchOrders_loop_spare_fuel; [done| |done].
    by apply wf_levels_nonempty.
  - intros orderId.
    destruct (CancelOrder_wf st orderId Hwf) as (st' & ? & _). eauto.
  - intros order.
    destruct (MatchOrder_wf st order Hwf) as (ts & st' & ? & _). eauto.
  - done.
  - eexists. by apply GetOrderInfos_wf.
  - intros bid ask bids asks h orders bids' asks' h' orders' trade Htf.
    apply trade_front_pops in Htf as (Hb & Ha & Hpop). simpl in *.
    destruct Hb as [->| ->], Ha as [->| ->], Hpop as [Hp|Hp];
      simpl in *; try lia; apply (f_equal length) in Hp; simpl in Hp; lia.
  - intros. by eapply match_best_erases.
Qed.

(** A buy of 3 at 100 that meets the resting sell of 5 at 100: the call
    returns with the trade, and so does the matching loop on the book the
    order was queued into, with more fuel than [MatchOrders] gives it. *)
Lemma operations_return_witness :
  (∃ st',
     AddOrder 4%positive two_bids_one_ask =
       Ret ([mkTrade (mkTradeInfo 4 100 3) (mkTradeInfo 3 100 3)], st')) ∧
  (∃ st',
     MatchOrders_loop 10
       (enqueue 4%positive (Order_new GoodTillCancel 4 Buy 100 3)
          two_bids_one_ask) [] =
       Ret ([mkTrade (mkTradeInfo 4 100 3) (mkTradeInfo 3 100 3)], st')) ∧
  (∃ trades st',
     MatchOrder (mkOrderModify 2 100 Buy 3) two_bids_one_ask =
       Ret (trades, st')).
Proof.
  destruct (operations_return two_bids_one_ask reachable_two_bids_one_ask)
    as (Hadd & Hloop & _ & Hmod & _).
  split_and!.
  - destruct (Hadd 4%positive) as (trades & st' & H);
      [vm_compute; eexists; reflexivity|].
    pose proof H as H'. vm_compute in H'. injection H' as <- <-.
    eexists. exact H.
  - destruct (Hloop 4%positive (Order_new GoodTillCancel 4 Buy 100 3))
      as (trades & st' & H & Hfuel); [vm_compute; reflexivity..|].
    specialize (Hfuel 10%nat ltac:(vm_compute; lia)).
    vm_compute in H. injection H as <- <-.
    eexists. exact Hfuel.
  - apply Hmod.
Defined.

(** ** Fill-and-kill *)

Lemma reachable_ask_and_new_fak : reachable ask_and_new_fak.
Proof.
  unfold reachable.
  eapply rtc_l; [apply (step_make_shared (Order_new GoodTillCancel 1 Sell 100 5))|].
  eapply rtc_l; [eapply (step_AddOrder 1%positive); vm_compute; reflexivity|].
  eapply rtc_l; [apply (step_make_shared (Order_new FillAndKill 2 Buy 100 10))|].
  vm_compute. apply rtc_refl.
Qed.

(** C1 does not hold of the code.  A fill-and-kill buy of 10 at 100 that
    meets a resting sell of 5 at 100 trades 5, and its remainder of 5 is
    left resting at the front of the bid level 100 and in the index:
    [MatchOrders] never removes the unfilled rest of the order that
    [AddOrder] queued. *)
Theorem FillAndKill_remainder_rests :
  reachable ask_and_new_fak ∧
  ∃ st',
    AddOrder 2%positive ask_and_new_fak =
      Ret ([mkTrade (mkTradeInfo 2 100 5) (mkTradeInfo 1 100 5)], st') ∧
    bids_ st' = [(100, [2%positive])] ∧ asks_ st' = [] ∧
    orders_ st' !! 2%N = Some (mkOrderEntry 2 2) ∧
    heap st' !! 2%positive = Some (mkOrder FillAndKill 2 Buy 100 10 5).
Proof.
  split; [exact reachable_ask_and_new_fak|].
  eexists. split; [vm_compute; reflexivity|].
  split_and!; vm_compute; reflexivity.
Qed.

(** ** The index and the book *)

Lemma elem_of_concat {A} (x : A) (ls : list (list A)) :
  x ∈ concat ls ↔ ∃ l, x ∈ l ∧ l ∈ ls.
Proof.
  induction ls as [|l ls IH]; simpl.
  - split; [by intros ?%elem_of_nil|]. by intros (l & _ & ?%elem_of_nil).
  - rewrite elem_of_app, IH. split.
    + intros [Hx|(l' & Hx & Hl')]; [exists l; split; [done|left]|].
      exists l'. split; [done|by right].
    + intros (l' & Hx & [->|Hl']%elem_of_cons); [by left|].
      right. eauto.
Qed.

Lemma elem_of_levels (m : list (Price * OrderPointers)) p :
  p ∈ concat m.*2 ↔ ∃ pr q, (pr, q) ∈ m ∧ p ∈ q.
Proof.
  rewrite elem_of_concat. split.
  - intros (q & Hp & ([pr q'] & -> & Hin)%list_elem_of_fmap). eauto.
  - intros (pr & q & Hin & Hp). exists q. split; [done|].
    apply list_elem_of_fmap. by exists (pr, q).
Qed.

Lemma elem_of_resting st p :
  wf st →
  p ∈ resting st ↔ ∃ s pr q, map_at pr (book s st) = Some q ∧ p ∈ q.
Proof.
  intros Hwf. unfold resting. rewrite elem_of_app, !elem_of_levels. split.
  - intros [(pr & q & Hin & Hp)|(pr & q & Hin & Hp)].
    + exists Buy, pr, q. split; [|done].
      by apply (map_at_sorted_elem_of Z.gtb), Hin; apply (wf_sorted st Buy).
    + exists Sell, pr, q. split; [|done].
      by apply (map_at_sorted_elem_of Z.ltb), Hin; apply (wf_sorted st Sell).
  - intros (s & pr & q & Hq%map_at_elem_of & Hp).
    destruct s; [left|right]; eauto.
Qed.

Lemma NoDup_levels st s (m : list (Price * OrderPointers)) :
  wf st → m `sublist_of` book s st → NoDup (concat m.*2).
Proof.
  intros Hwf. induction m as [|[pr q] m IH]; intros Hsub; [constructor|].
  pose proof (wf_sorted st s Hwf) as Hsorted.
  pose proof (price_sorted_sublist _ _ _ Hsub Hsorted) as Hs.
  assert ((pr, q) ∈ book s st) as Hin.
  { eapply elem_of_sublist; [|exact Hsub]. left. }
  apply (map_at_sorted_elem_of (before s)) in Hin; [|done].
  rewrite fmap_cons. simpl. apply NoDup_app. split_and!.
  - by destruct (wf_level _ _ _ _ Hwf Hin) as (_ & ? & _).
  - intros x Hx (pr' & q' & Hin' & Hx')%elem_of_levels.
    assert (map_at pr' m = Some q') as Hat'.
    { apply (map_at_sorted_elem_of (before s)); [|done].
      by apply price_sorted_cons in Hs as [_ ?]. }
    destruct (map_at_tail (before s) _ _ _ _ _ Hs Hat') as [Hne _].
    assert ((pr', q') ∈ book s st) as Hin''.
    { eapply elem_of_sublist; [|exact Hsub]. by right. }
    apply (map_at_sorted_elem_of (before s)) in Hin''; [|done].
    by destruct (wf_resting_unique _ _ _ _ _ _ _ _ Hwf Hin Hx Hin'' Hx').
  - apply IH. etrans; [|exact Hsub]. by apply sublist_cons.
Qed.

Lemma NoDup_resting st : wf st → NoDup (resting st).
Proof.
  intros Hwf. unfold resting. apply NoDup_app. split_and!.
  - by apply (NoDup_levels st Buy).
  - intros x (pr & q & Hin & Hx)%elem_of_levels
             (pr' & q' & Hin' & Hx')%elem_of_levels.
    apply (map_at_sorted_elem_of Z.gtb) in Hin; [|by apply (wf_sorted st Buy)].
    apply (map_at_sorted_elem_of Z.ltb) in Hin'; [|by apply (wf_sorted st Sell)].
    by destruct (wf_resting_unique st Buy pr q Sell pr' q' x).
  - by apply (NoDup_levels st Sell).
Qed.

Lemma filter_unique {A} (P : A → Prop) `{∀ x, Decision (P x)} (l : list A) p :
  NoDup l → p ∈ l → (∀ x, x ∈ l → P x ↔ x = p) → filter P l = [p].
Proof.
  induction l as [|y l IH]; intros Hnd Hp HP; [by apply elem_of_nil in Hp|].
  apply NoDup_cons in Hnd as [Hy Hnd].
  destruct (decide (P y)) as [HPy|HPy].
  - assert (y = p) as -> by (apply HP; [left|done]).
    rewrite filter_cons_True by done. f_equal.
    clear IH Hp HPy. induction l as [|z l IH]; [done|].
    apply not_elem_of_cons in Hy as [Hz Hy].
    apply NoDup_cons in Hnd as [_ Hnd].
    rewrite filter_cons_False.
    + apply IH; [done..|]. intros x Hx. apply HP.
      apply elem_of_cons in Hx as [->|Hx]; [left|right; by right].
    + intros HPz. apply Hz. symmetry. apply HP; [right; left|done].
  - rewrite filter_cons_False by done.
    apply IH; [done| |].
    + apply elem_of_cons in Hp as [->|?]; [|done].
      exfalso. apply HPy. apply HP; [left|done].
    + intros x Hx. apply HP. by right.
Qed.

Lemma filter_none {A} (P : A → Prop) `{∀ x, Decision (P x)} (l : list A) :
  (∀ x, x ∈ l → ¬ P x) → filter P l = [].
Proof.
  induction l as [|y l IH]; intros HP; [done|].
  rewrite filter_cons_False by (apply HP; left).
  apply IH. intros x Hx. apply HP. by right.
Qed.

Lemma resting_with_id_indexed st id e :
  wf st → orders_ st !! id = Some e → resting_with_id st id = [order_ e].
Proof.
  intros Hwf He.
  destruct (wf_indexed _ _ _ Hwf He) as (o & q & Hloc & Ho & Hid & Hq & Hin).
  unfold resting_with_id. apply filter_unique.
  - by apply NoDup_resting.
  - apply elem_of_resting; eauto.
  - intros x (s & pr & q' & Hq' & Hx)%elem_of_resting; [|done].
    destruct (wf_resting _ _ _ _ _ Hwf Hq' Hx) as (ox & Hox & _ & _ & Hidx).
    rewrite Hox. simpl. split.
    + intros [= Hidx']. rewrite Hidx', He in Hidx. by simplify_eq.
    + intros ->. rewrite Ho in Hox. by simplify_eq.
Qed.

Lemma resting_with_id_absent st id :
  wf st → orders_ st !! id = None → resting_with_id st id = [].
Proof.
  intros Hwf Hnone. unfold resting_with_id. apply filter_none.
  intros x (s & pr & q' & Hq' & Hx)%elem_of_resting; [|done].
  destruct (wf_resting _ _ _ _ _ Hwf Hq' Hx) as (ox & Hox & _ & _ & Hidx).
  rewrite Hox. simpl. intros [= Hid]. congruence.
Qed.

(** The index has as many entries as there are resting orders. *)
Lemma size_index_resting st : wf st → size (orders_ st) = length (resting st).
Proof.
  intros Hwf.
  set (key := λ p, from_option GetOrderId 0%N (heap st !! p)).
  assert (NoDup (key <$> resting st)) as Hnd.
  { apply NoDup_fmap_2_strong; [|by apply NoDup_resting].
    intros x y (s & pr & q & Hq & Hx)%elem_of_resting
               (s' & pr' & q' & Hq' & Hy)%elem_of_resting; try done.
    destruct (wf_resting _ _ _ _ _ Hwf Hq Hx) as (ox & Hox & _ & _ & Hidx).
    destruct (wf_resting _ _ _ _ _ Hwf Hq' Hy) as (oy & Hoy & _ & _ & Hidy).
    unfold key. rewrite Hox, Hoy. simpl. intros Heq.
    rewrite Heq in Hidx. congruence. }
  rewrite <-size_dom, <-(length_fmap key).
  rewrite <-(size_list_to_set (C:=gset N)) by done. f_equal.
  apply set_eq. intros id. rewrite elem_of_dom, elem_of_list_to_set.
  rewrite list_elem_of_fmap. split.
  - intros [e He].
    destruct (wf_indexed _ _ _ Hwf He) as (o & q & _ & Ho & Hid & Hq & Hin).
    exists (order_ e). split.
    + unfold key. by rewrite Ho.
    + apply elem_of_resting; eauto.
  - intros (p & -> & (s & pr & q & Hq & Hp)%elem_of_resting); [|done].
    destruct (wf_resting _ _ _ _ _ Hwf Hq Hp) as (o & Ho & _ & _ & Hidx).
    unfold key. rewrite Ho. simpl. by eexists.
Qed.

(** C4. In every reachable state: an id is in the index exactly when one
    queue slot, and only one, holds an order with that id, and that slot
    holds the order the index entry designates; no queue slot holds an
    order whose id is not in the index; a side has a level at a price
    exactly when some resting order has that side and price, and the queue
    of a level is never empty; [Size] returns the number of index entries,
    which is the number of resting orders. *)
Theorem index_matches_book st :
  reachable st →
  (∀ id, is_Some (orders_ st !! id) ↔ length (resting_with_id st id) = 1%nat) ∧
  (∀ id e, orders_ st !! id = Some e → resting_with_id st id = [order_ e]) ∧
  (∀ id, orders_ st !! id = None → resting_with_id st id = []) ∧
  (∀ s pr, is_Some (map_at pr (book s st)) ↔
           ∃ p o, p ∈ resting st ∧ heap st !! p = Some o ∧
                  GetSide o = s ∧ GetPrice o = pr) ∧
  (∀ s pr q, map_at pr (book s st) = Some q → q ≠ []) ∧
  Size st = Ret (size (orders_ st), st) ∧
  size (orders_ st) = length (resting st).
Proof.
  intros [Hwf _]%reachable_wf. split_and!.
  - intros id. split.
    + intros [e He]. by rewrite (resting_with_id_indexed _ _ _ Hwf He).
    + intros Hlen. destruct (orders_ st !! id) as [e|] eqn:He; [by eexists|].
      by rewrite (resting_with_id_absent _ _ Hwf He) in Hlen.
  - intros id e. by apply resting_with_id_indexed.
  - intros id. by apply resting_with_id_absent.
  - intros s pr. split.
    + intros [q Hq]. destruct (wf_level _ _ _ _ Hwf Hq) as (Hne & _).
      simpl in Hne. destruct q as [|p q]; [done|].
      destruct (wf_resting _ _ _ _ p Hwf Hq) as (o & Ho & Hs & Hpr & _); [left|].
      exists p, o. split_and!; try done.
      apply elem_of_resting; [done|]. exists s, pr, (p :: q). split; [done|left].
    + intros (p & o & (s' & pr' & q & Hq & Hp)%elem_of_resting & Ho & Hs & Hpr);
        [|done].
      destruct (wf_resting _ _ _ _ _ Hwf Hq Hp) as (o' & Ho' & Hs' & Hpr' & _).
      assert (o' = o) as -> by congruence. subst. by eexists.
  - intros s pr q Hq. by destruct (wf_level _ _ _ _ Hwf Hq) as (? & _).
  - done.
  - by apply size_index_resting.
Qed.

Lemma index_matches_book_witness :
  resting_with_id bid_and_new_ask 1 = [1%positive] ∧
  resting_with_id bid_and_new_ask 2 = [] ∧
  size (orders_ bid_and_new_ask) = length (resting bid_and_new_ask).
Proof.
  destruct (index_matches_book bid_and_new_ask reachable_bid_and_new_ask)
    as (_ & Hin & Hout & _ & _ & _ & Hsize).
  split_and!.
  - apply (Hin 1%N (mkOrderEntry 1 1)). vm_compute. reflexivity.
  - apply Hout. vm_compute. reflexivity.
  - exact Hsize.
Defined.

(** * Further properties of the code *)

(** ** The id generator *)

Lemma GenerateOrderIds_spec n c :
  (c < OrderId_modulus)%N →
  GenerateOrderIds n c =
    ((λ k, ((c + N.of_nat k) mod OrderId_modulus)%N) <$> seq 0 n,
     ((c + N.of_nat n) mod OrderId_modulus)%N).
Proof.
  revert c. induction n as [|n IH]; intros c Hc.
  - simpl. by rewrite N.add_0_r, N.mod_small.
  - cbn [GenerateOrderIds GenerateOrderId].
    rewrite IH by by apply N.mod_lt.
    cbn [seq]. rewrite fmap_cons, <-fmap_S_seq, <-list_fmap_compose.
    f_equal; [f_equal|].
    + f_equal. rewrite N.add_0_r. by rewrite N.mod_small.
    + apply list_fmap_ext. intros i k _. simpl.
      rewrite N.Div0.add_mod_idemp_l. f_equal. lia.
    + rewrite N.Div0.add_mod_idemp_l. f_equal. lia.
Qed.

Lemma mod_inj_near (a b m : N) :
  (a ≤ b)%N → (b - a < m)%N → (a mod m = b mod m)%N → a = b.
Proof.
  intros Hab Hlt Heq. destruct (decide (m = 0%N)) as [->|Hm]; [lia|].
  pose proof (N.Div0.div_mod a m) as Ha.
  pose proof (N.Div0.div_mod b m) as Hb.
  rewrite Heq in Ha.
  assert (a / m ≤ b / m)%N by by apply N.Div0.div_le_mono.
  assert (b - a = m * (b / m - a / m))%N as Hd by nia.
  destruct (decide (b / m - a / m = 0)%N) as [H0|H0]; [lia|]. nia.
Qed.

(** X1. Starting from any counter value, the [k]-th call of
    [GenerateOrderId] returns the counter plus [k] modulo [2^64], and the
    ids of the first [2^64] calls are pairwise distinct; from the initial
    counter 1000 the first id is 1000. *)
Theorem GenerateOrderId_ids_distinct (n : nat) (c : OrderId) :
  (c < OrderId_modulus)%N → (N.of_nat n ≤ OrderId_modulus)%N →
  NoDup (GenerateOrderIds n c).1 ∧
  (∀ k, (k < n)%nat →
        (GenerateOrderIds n c).1 !! k =
          Some ((c + N.of_nat k) mod OrderId_modulus)%N) ∧
  (GenerateOrderIds n c).2 = ((c + N.of_nat n) mod OrderId_modulus)%N ∧
  (GenerateOrderId initial_currentId).1 = 1000%N.
Proof.
  intros Hc Hn. rewrite GenerateOrderIds_spec by done. simpl.
  split_and!; try done.
  - apply NoDup_fmap_2_strong; [|apply NoDup_seq].
    intros x y [_ Hx]%elem_of_seq [_ Hy]%elem_of_seq Heq. simpl in *.
    destruct (decide (x ≤ y)%nat).
    + apply (mod_inj_near _ _ OrderId_modulus) in Heq; lia.
    + symmetry in Heq.
      apply (mod_inj_near _ _ OrderId_modulus) in Heq; lia.
  - intros k Hk. rewrite list_lookup_fmap, lookup_seq_lt by done. done.
Qed.

Lemma GenerateOrderId_ids_distinct_witness :
  NoDup (GenerateOrderIds 3 initial_currentId).1 ∧
  (GenerateOrderIds 3 initial_currentId).1 = [1000; 1001; 1002]%N ∧
  (GenerateOrderIds 1 (OrderId_modulus - 1)).2 = 0%N.
Proof.
  destruct (GenerateOrderId_ids_distinct 3 initial_currentId)
    as (Hnd & _ & _ & _); [vm_compute; reflexivity|vm_compute; discriminate|].
  destruct (GenerateOrderId_ids_distinct 1 (OrderId_modulus - 1))
    as (_ & _ & Hc & _); [vm_compute; reflexivity|vm_compute; discriminate|].
  split_and!; [exact Hnd|vm_compute; reflexivity|].
  rewrite Hc. vm_compute. reflexivity.
Defined.

(** ** Filling one order repeatedly *)

Lemma GetFilledQuantity_exact o :
  (GetRemainingQuantity o ≤ GetInitialQuantity o)%N →
  (GetInitialQuantity o < Quantity_modulus)%N →
  GetFilledQuantity o = (GetInitialQuantity o - GetRemainingQuantity o)%N.
Proof.
  intros Hle Hlt. unfold GetFilledQuantity, Quantity_sub.
  rewrite (N.mod_small (GetInitialQuantity o)) by lia.
  rewrite (N.mod_small (GetRemainingQuantity o)) by lia.
  replace (GetInitialQuantity o + Quantity_modulus - GetRemainingQuantity o)%N
    with ((GetInitialQuantity o - GetRemainingQuantity o)
          + 1 * Quantity_modulus)%N by lia.
  rewrite N.Div0.mod_add. apply N.mod_small. lia.
Qed.

Lemma Fill_all_ok quantities o :
  (total quantities ≤ GetRemainingQuantity o)%N →
  Fill_all quantities o =
    (with_remaining o (GetRemainingQuantity o - total quantities)%N, None).
Proof.
  revert o. induction quantities as [|q qs IH]; intros o Hle; simpl in *.
  - rewrite N.sub_0_r. by destruct o.
  - unfold Fill. destruct (N.ltb_spec (GetRemainingQuantity o) q); [lia|].
    rewrite IH.
    + unfold with_remaining, GetRemainingQuantity. simpl. do 2 f_equal. lia.
    + unfold with_remaining, GetRemainingQuantity in *. simpl. lia.
Qed.

Lemma with_remaining_twice o r r' :
  with_remaining (with_remaining o r) r' = with_remaining o r'.
Proof. done. Qed.

Lemma with_remaining_same o : with_remaining o (GetRemainingQuantity o) = o.
Proof. by destruct o. Qed.

(** When the requested quantities exceed what remains, the fills before
    the first one that does not fit succeed, that one throws, and the order
    is left as those fills left it. *)
Lemma Fill_all_overfill quantities o :
  (GetRemainingQuantity o < total quantities)%N →
  ∃ filled failing rest,
    quantities = filled ++ failing :: rest ∧
    (total filled ≤ GetRemainingQuantity o)%N ∧
    (GetRemainingQuantity o < total filled + failing)%N ∧
    Fill_all quantities o =
      (with_remaining o (GetRemainingQuantity o - total filled)%N,
       Some (logic_error (GetOrderId o))).
Proof.
  revert o. induction quantities as [|q qs IH]; intros o Hlt; simpl in *.
  - lia.
  - unfold Fill. destruct (N.ltb_spec (GetRemainingQuantity o) q) as [Hq|Hq].
    + exists [], q, qs. simpl. split_and!; [done|lia|lia|].
      by rewrite N.sub_0_r, with_remaining_same.
    + destruct (IH (with_remaining o (remainingQuantity_ o - q)%N))
        as (filled & failing & rest & -> & Hle & Hgt & Hfill).
      { unfold with_remaining, GetRemainingQuantity in *. simpl. lia. }
      exists (q :: filled), failing, rest.
      unfold with_remaining, GetRemainingQuantity in *. simpl in *.
      split_and!; [done|lia|lia|].
      rewrite Hfill. f_equal. f_equal. lia.
Qed.

(** X2. An order built by the constructor with a quantity below [2^32]
    and then filled several times: while the requested quantities add up
    to at most the order's quantity every fill succeeds, the remaining
    quantity is the quantity minus their sum, [GetFilledQuantity] is their
    sum, and [IsFilled] holds exactly when the sum reaches the quantity;
    as soon as they add up to more, the fills before the first one that
    does not fit succeed, that one ends the sequence with the overfill
    error of the order, and the order is left exactly as the fills before
    it left it: its remaining quantity is the quantity minus their sum. *)
Theorem Fill_all_accounts (orderType : OrderType) (orderId : OrderId)
    (side : Side) (price : Price) (quantity : Quantity)
    (quantities : list Quantity) :
  (quantity < Quantity_modulus)%N →
  let o := Order_new orderType orderId side price quantity in
  ((total quantities ≤ quantity)%N →
     ∃ o', Fill_all quantities o = (o', None) ∧
           GetRemainingQuantity o' = (quantity - total quantities)%N ∧
           GetFilledQuantity o' = total quantities ∧
           GetInitialQuantity o' = quantity ∧
           (IsFilled o' = true ↔ total quantities = quantity)) ∧
  ((quantity < total quantities)%N →
     ∃ filled failing rest,
       quantities = filled ++ failing :: rest ∧
       (total filled ≤ quantity)%N ∧ (quantity < total filled + failing)%N ∧
       Fill_all quantities o =
         (mkOrder orderType orderId side price quantity
            (quantity - total filled)%N,
          Some (logic_error orderId)) ∧
       GetFilledQuantity
         (mkOrder orderType orderId side price quantity
            (quantity - total filled)%N) = total filled).
Proof.
  intros Hq o. split.
  - intros Hle. eexists. split; [by apply Fill_all_ok|].
    split_and!; try done.
    + rewrite GetFilledQuantity_exact; simpl; unfold GetRemainingQuantity,
        GetInitialQuantity; simpl; lia.
    + unfold IsFilled, GetRemainingQuantity. simpl. rewrite N.eqb_eq. lia.
  - intros Hlt. destruct (Fill_all_overfill quantities o)
      as (filled & failing & rest & Hsplit & Hle & Hgt & Hfill); [done|].
    exists filled, failing, rest. split_and!; [done..|].
    rewrite GetFilledQuantity_exact; unfold GetRemainingQuantity,
      GetInitialQuantity in *; simpl in *; lia.
Qed.

(** Fills of 4 and 6 use up an order of 10.  Fills of 4 and 7: the first
    succeeds, the second throws, and the order keeps the 6 that the first
    fill left. *)
Lemma Fill_all_accounts_witness :
  (∃ o', Fill_all [4; 6]%N (Order_new GoodTillCancel 1 Buy 100 10) = (o', None) ∧
         GetFilledQuantity o' = 10%N ∧ IsFilled o' = true) ∧
  Fill_all [4; 7]%N (Order_new GoodTillCancel 1 Buy 100 10) =
    (mkOrder GoodTillCancel 1 Buy 100 10 6, Some (logic_error 1)).
Proof.
  destruct (Fill_all_accounts GoodTillCancel 1 Buy 100 10 [4; 6]%N)
    as [Hok _]; [vm_compute; reflexivity|].
  destruct (Fill_all_accounts GoodTillCancel 1 Buy 100 10 [4; 7]%N)
    as [_ Hbad]; [vm_compute; reflexivity|].
  split.
  - destruct Hok as (o' & Hfill & _ & Hfilled & _ & Hiff);
      [vm_compute; discriminate|].
    exists o'. split_and!; [exact Hfill|exact Hfilled|].
    apply Hiff. vm_compute. reflexivity.
  - destruct Hbad as (filled & failing & rest & Hsplit & Hle & Hgt & Hfill & _);
      [vm_compute; reflexivity|].
    rewrite Hfill. do 3 f_equal.
    destruct filled as [|a [|b filled]]; simpl in *.
    + injection Hsplit as <- _. lia.
    + injection Hsplit as <- _. reflexivity.
    + injection Hsplit as _ _ Hnil. by destruct filled.
Defined.

(** ** Orders in the store are only ever filled *)

Lemma only_fills_refl h : only_fills h h.
Proof. intros p o Ho. exists o. split_and!; [done| |done]. by destruct o. Qed.

Lemma only_fills_trans h1 h2 h3 :
  only_fills h1 h2 → only_fills h2 h3 → only_fills h1 h3.
Proof.
  intros H12 H23 p o Ho.
  destruct (H12 _ _ Ho) as (o2 & Ho2 & Hs2 & Hle2).
  destruct (H23 _ _ Ho2) as (o3 & Ho3 & Hs3 & Hle3).
  exists o3. split_and!; [done| |lia].
  rewrite Hs3, Hs2. by destruct o.
Qed.

Lemma Order_Fill_only_fills p quantity h h' :
  Order_Fill p quantity h = Ret h' → only_fills h h'.
Proof.
  unfold Order_Fill, deref. destruct (h !! p) as [o|] eqn:Ho; [|done].
  run_bind. unfold Fill.
  destruct (N.ltb_spec (GetRemainingQuantity o) quantity); [done|].
  intros [= <-] p' o' Ho'. destruct (decide (p' = p)) as [->|Hne].
  - rewrite lookup_insert_eq. eexists. split; [done|]. simplify_eq.
    unfold with_remaining, GetRemainingQuantity. simpl. split; [done|lia].
  - rewrite lookup_insert_ne by done. by apply only_fills_refl.
Qed.

Lemma trade_front_only_fills bid ask bids asks h orders r :
  trade_front bid ask bids asks h orders = Ret r →
  only_fills h r.1.1.2.
Proof.
  unfold trade_front.
  intros (b & _ & Hr)%bind_Ret_inv. apply bind_Ret_inv in Hr as (a & _ & Hr).
  apply bind_Ret_inv in Hr as (h1 & Hf1 & Hr).
  apply bind_Ret_inv in Hr as (h2 & Hf2 & Hr).
  apply bind_Ret_inv in Hr as (b' & _ & Hr).
  apply bind_Ret_inv in Hr as (a' & _ & Hr).
  destruct (IsFilled b'), (IsFilled a'); simplify_eq; simpl;
    eauto using only_fills_trans, Order_Fill_only_fills.
Qed.

Lemma match_level_only_fills fuel bids asks h orders trades r :
  match_level fuel bids asks h orders trades = Ret r →
  only_fills h r.1.1.2.
Proof.
  revert bids asks h orders trades.
  induction fuel as [|fuel IH]; intros bids asks h orders trades.
  - destruct bids as [|bid bt]; simpl;
      [intros [= <-]; apply only_fills_refl|].
    destruct asks; [intros [= <-]; apply only_fills_refl|done].
  - destruct bids as [|bid bt]; simpl;
      [intros [= <-]; apply only_fills_refl|].
    destruct asks as [|ask at_]; [intros [= <-]; apply only_fills_refl|].
    intros ([[[[bq1 aq1] h1] idx1] t1] & Htf & Hrest)%bind_Ret_inv.
    apply trade_front_only_fills in Htf. apply IH in Hrest.
    by eapply only_fills_trans.
Qed.

Lemma MatchOrders_loop_only_fills fuel st trades r :
  MatchOrders_loop fuel st trades = Ret r →
  only_fills (heap st) (heap r.2).
Proof.
  revert st trades. induction fuel as [|fuel IH]; intros st trades.
  - simpl. destruct (bids_ st) as [|[bp bq] br];
      [intros [= <-]; apply only_fills_refl|].
    destruct (asks_ st) as [|[ap aq] ar];
      [intros [= <-]; apply only_fills_refl|].
    destruct (bp <? ap); [intros [= <-]; apply only_fills_refl|done].
  - simpl. destruct (bids_ st) as [|[bp bq] br];
      [intros [= <-]; apply only_fills_refl|].
    destruct (asks_ st) as [|[ap aq] ar];
      [intros [= <-]; apply only_fills_refl|].
    destruct (bp <? ap); [intros [= <-]; apply only_fills_refl|].
    intros ([ts1 st1] & Hbest & Hrest)%bind_Ret_inv.
    apply IH in Hrest. simpl in Hrest.
    unfold match_best in Hbest.
    apply bind_Ret_inv in Hbest as ([[[[bq1 aq1] h1] idx1] t1] & Hlevel & Hret).
    apply match_level_only_fills in Hlevel. simplify_eq. simpl in *.
    by eapply only_fills_trans.
Qed.

Lemma enqueue_heap order o st : heap (enqueue order o st) = heap st.
Proof. unfold enqueue. by destruct (GetSide o). Qed.

Lemma AddOrder_only_fills order st trades st' :
  AddOrder order st = Ret (trades, st') → only_fills (heap st) (heap st').
Proof.
  unfold AddOrder. intros (o & _ & Hret)%bind_Ret_inv.
  case_decide; [simplify_eq; apply only_fills_refl|].
  destruct (_ && _); [simplify_eq; apply only_fills_refl|].
  apply MatchOrders_loop_only_fills in Hret.
  by rewrite enqueue_heap in Hret.
Qed.

Lemma make_shared_only_fills o st :
  only_fills (heap st) (heap (make_shared o st).2).
Proof.
  intros p o' Ho'. simpl. rewrite lookup_insert_ne.
  - by apply only_fills_refl.
  - intros <-. pose proof (is_fresh (dom (heap st))) as Hfresh.
    apply Hfresh, elem_of_dom. eauto.
Qed.

Lemma MatchOrder_only_fills order st trades st' :
  MatchOrder order st = Ret (trades, st') → only_fills (heap st) (heap st').
Proof.
  unfold MatchOrder.
  destruct (orders_ st !! om_orderId_ order) as [[existingOrder it]|];
    [|intros [= <- <-]; apply only_fills_refl].
  intros ([[] st1] & Hcancel & Hret)%bind_Ret_inv. simpl in Hret.
  apply bind_Ret_inv in Hret as (existing & _ & Hret).
  apply AddOrder_only_fills in Hret. simpl in Hret.
  apply CancelOrder_erases in Hcancel as [Hheap _].
  pose proof (make_shared_only_fills
                (ToOrder order (GetOrderType existing)) st1) as H12.
  simpl in H12. rewrite Hheap in H12, Hret.
  by eapply only_fills_trans.
Qed.

Lemma step_only_fills st st' :
  step st st' → only_fills (heap st) (heap st').
Proof.
  intros [o st0|order st0 trades st0' Hret|orderId st0 st0' Hret
         |order st0 trades st0' Hret].
  - apply make_shared_only_fills.
  - by eapply AddOrder_only_fills.
  - apply CancelOrder_erases in Hret as [-> _]. apply only_fills_refl.
  - by eapply MatchOrder_only_fills.
Qed.

Lemma rtc_step_only_fills st st' :
  rtc step st st' → only_fills (heap st) (heap st').
Proof.
  induction 1 as [|st1 st2 st3 Hstep _ IH]; [apply only_fills_refl|].
  eapply only_fills_trans; [by apply step_only_fills|done].
Qed.

(** X3. Whatever the state, through any sequence of [make_shared],
    [AddOrder], [CancelOrder] and [MatchOrder] calls every order of the
    store stays in the store with its type, id, side, price and initial
    quantity, and its remaining quantity never grows. *)
Theorem operations_only_fill st st' :
  rtc step st st' → only_fills (heap st) (heap st').
Proof. apply rtc_step_only_fills. Qed.

Lemma operations_only_fill_witness :
  only_fills (heap ask_and_new_fak) (heap fak_rests).
Proof.
  apply operations_only_fill. apply rtc_once.
  apply (step_AddOrder 2%positive ask_and_new_fak
           [mkTrade (mkTradeInfo 2 100 5) (mkTradeInfo 1 100 5)]).
  vm_compute. reflexivity.
Defined.

(** ** Every trade is between two crossing orders *)

(** One pairing on a well-formed, crossed book, spelled out. *)
Lemma cross_step_spec st bp bid bt br ap ask at_ ar :
  wf st → bids_ st = (bp, bid :: bt) :: br → asks_ st = (ap, ask :: at_) :: ar →
  ap ≤ bp →
  ∃ b a,
    heap st !! bid = Some b ∧ heap st !! ask = Some a ∧ bid ≠ ask ∧
    GetSide b = Buy ∧ GetSide a = Sell ∧ GetPrice b = bp ∧ GetPrice a = ap ∧
    orders_ st !! GetOrderId b = Some (mkOrderEntry bid bid) ∧
    orders_ st !! GetOrderId a = Some (mkOrderEntry ask ask) ∧
    let quantity := N.min (GetRemainingQuantity b) (GetRemainingQuantity a) in
    let b' := with_remaining b (GetRemainingQuantity b - quantity)%N in
    let a' := with_remaining a (GetRemainingQuantity a - quantity)%N in
    cross_step st =
      Ret (Some
        (mkTrade (mkTradeInfo (GetOrderId b) (GetPrice b) quantity)
                 (mkTradeInfo (GetOrderId a) (GetPrice a) quantity),
         mkState (<[ask := a']> (<[bid := b']> (heap st)))
           (if IsFilled b' then erase_if_empty bp bt br else bids_ st)
           (if IsFilled a' then erase_if_empty ap at_ ar else asks_ st)
           ((if IsFilled a' then delete (GetOrderId a) else id)
              ((if IsFilled b' then delete (GetOrderId b) else id)
                 (orders_ st))))).
Proof.
  intros Hwf Hb Ha Hle.
  assert (map_at bp (book Buy st) = Some (bid :: bt)) as Hbq.
  { simpl. rewrite Hb. simpl. by rewrite Z.eqb_refl. }
  assert (map_at ap (book Sell st) = Some (ask :: at_)) as Haq.
  { simpl. rewrite Ha. simpl. by rewrite Z.eqb_refl. }
  destruct (wf_resting _ _ _ _ bid Hwf Hbq) as (b & Hhb & Hsb & Hpb & Hib); [left|].
  destruct (wf_resting _ _ _ _ ask Hwf Haq) as (a & Hha & Hsa & Hpa & Hia); [left|].
  assert (bid ≠ ask) as Hne by (intros ->; congruence).
  exists b, a. split_and!; try done. cbv zeta.
  unfold cross_step. rewrite Hb, Ha.
  destruct (Z.ltb_spec bp ap); [lia|].
  rewrite (trade_front_spec _ _ _ _ _ _ b a) by done. run_bind.
  by destruct (IsFilled (with_remaining b _)), (IsFilled (with_remaining a _)).
Qed.

Lemma cross_step_fair st t st' :
  wf st → cross_step st = Ret (Some (t, st')) → fair_trade t ∧ wf st'.
Proof.
  intros Hwf Hstep. split.
  - pose proof Hstep as (bp & bid & bt & br & ap & ask & at_ & ar & bq' & aq' &
      Hb & Ha & Hlt & _)%cross_step_Some.
    apply Z.ltb_ge in Hlt.
    destruct (cross_step_spec _ _ _ _ _ _ _ _ _ Hwf Hb Ha Hlt)
      as (b & a & _ & _ & Hne & _ & _ & Hpb & Hpa & Hib & Hia & Heq).
    cbv zeta in Heq. rewrite Hstep in Heq. simplify_eq.
    split_and!; simpl; [|done|lia].
    intros Hid. rewrite Hid in Hib. congruence.
  - destruct (cross_step_wf st Hwf) as [[Hnone _]|(t' & st'' & Hsome & Hwf')];
      congruence.
Qed.

Lemma cross_loop_fair n st trades st' :
  wf st → cross_loop n st = Ret (trades, st') → Forall fair_trade trades.
Proof.
  revert st trades st'. induction n as [|n IH]; intros st trades st' Hwf; simpl;
    destruct (cross_step st) as [[[t st1]|]|e|] eqn:Hstep; simpl; try done;
    try (intros [= <- <-]; constructor).
  destruct (cross_step_fair _ _ _ Hwf Hstep) as [Hfair Hwf1].
  intros ([ts st2] & Hloop & Hret)%bind_Ret_inv. simplify_eq. simpl.
  constructor; [done|]. by eapply IH.
Qed.

Lemma MatchOrders_fair st trades st' :
  wf st → MatchOrders st = Ret (trades, st') → Forall fair_trade trades.
Proof.
  intros Hwf. rewrite MatchOrders_cross_loop by by apply wf_levels_nonempty.
  by apply cross_loop_fair.
Qed.

Lemma AddOrder_fair st order trades st' :
  wf st → AddOrder order st = Ret (trades, st') → Forall fair_trade trades.
Proof.
  intros Hwf. unfold AddOrder, deref.
  destruct (heap st !! order) as [o|] eqn:Ho; [|done]. run_bind.
  case_decide as Hdup; [intros [= <- <-]; constructor|].
  destruct (_ && _); [intros [= <- <-]; constructor|].
  apply MatchOrders_fair, enqueue_wf; [done..|].
  destruct (orders_ st !! GetOrderId o) eqn:E; [|done].
  exfalso. apply Hdup. by eexists.
Qed.

Lemma MatchOrder_fair st order trades st' :
  wf st → MatchOrder order st = Ret (trades, st') → Forall fair_trade trades.
Proof.
  intros Hwf. unfold MatchOrder.
  destruct (orders_ st !! om_orderId_ order) as [[existingOrder it]|];
    [|intros [= <- <-]; constructor].
  destruct (CancelOrder_wf st (om_orderId_ order) Hwf)
    as (st1 & Hret & Hwf1 & _).
  rewrite Hret. run_bind.
  intros (existing & _ & Hadd)%bind_Ret_inv.
  pose proof (make_shared_wf (ToOrder order (GetOrderType existing)) _ Hwf1)
    as Hwf2.
  destruct (make_shared _ _) as [p st2]. by eapply AddOrder_fair.
Qed.

(** X4. On a well-formed book every trade that [AddOrder] or
    [MatchOrder] returns is between two orders with different ids, reports
    the same quantity on its buy side and on its sell side, and has a buy
    price that is not below its sell price. *)
Theorem trades_are_fair st :
  wf st →
  (∀ order trades st',
     AddOrder order st = Ret (trades, st') → Forall fair_trade trades) ∧
  (∀ order trades st',
     MatchOrder order st = Ret (trades, st') → Forall fair_trade trades).
Proof.
  intros Hwf. split; intros order trades st'.
  - by apply AddOrder_fair.
  - by apply MatchOrder_fair.
Qed.

Lemma trades_are_fair_witness :
  Forall fair_trade [mkTrade (mkTradeInfo 2 100 5) (mkTradeInfo 1 100 5)].
Proof.
  destruct (trades_are_fair ask_and_new_fak) as [Hadd _].
  - apply (bool_decide_unpack _). vm_compute. exact I.
  - apply (Hadd 2%positive _ fak_rests). vm_compute. reflexivity.
Defined.

(** ** The book is never crossed, whatever the operation *)

(** X5. Every reachable state is not crossed: the bid side is empty, or
    the ask side is empty, or the highest bid price is strictly below the
    lowest ask price.  On a reachable state every [CancelOrder] call and
    every [MatchOrder] call returns, and the state it returns is not
    crossed either. *)
Theorem reachable_never_crossed st :
  reachable st →
  best_bid_below_best_ask st ∧
  (∀ orderId, ∃ st',
     CancelOrder orderId st = Ret (tt, st') ∧ best_bid_below_best_ask st') ∧
  (∀ order, ∃ trades st',
     MatchOrder order st = Ret (trades, st') ∧ best_bid_below_best_ask st').
Proof.
  intros [Hwf Hun]%reachable_wf. split_and!.
  - by apply uncrossed_best.
  - intros orderId.
    destruct (CancelOrder_wf st orderId Hwf) as (st' & Hret & Hwf' & _ & _ & Hun').
    exists st'. split; [done|]. apply uncrossed_best; auto.
  - intros order.
    destruct (MatchOrder_wf st order Hwf) as (ts & st' & Hret & Hwf' & Hun').
    exists ts, st'. split; [done|]. apply uncrossed_best; auto.
Qed.

(** With bids at 99 and 98 below an ask at 100, moving the bid at 99 up
    to 100 trades against the ask; what is left is the bid at 98 below the
    rest of the ask at 100. *)
Lemma reachable_never_crossed_witness :
  (∃ bestBid bestAsk,
     highest_bid two_bids_one_ask bestBid ∧
     lowest_ask two_bids_one_ask bestAsk ∧ bestBid < bestAsk) ∧
  ∃ st',
    MatchOrder (mkOrderModify 2 100 Buy 3) two_bids_one_ask =
      Ret ([mkTrade (mkTradeInfo 2 100 3) (mkTradeInfo 3 100 3)], st') ∧
    ∃ bestBid bestAsk,
      highest_bid st' bestBid ∧ lowest_ask st' bestAsk ∧ bestBid < bestAsk.
Proof.
  destruct (reachable_never_crossed two_bids_one_ask reachable_two_bids_one_ask)
    as (Hhere & _ & Hmod).
  split.
  - destruct Hhere as [Hb|[Ha|Hbest]]; [discriminate Hb|discriminate Ha|].
    exact Hbest.
  - destruct (Hmod (mkOrderModify 2 100 Buy 3)) as (trades & st' & Hret & Hbest).
    pose proof Hret as Hret'. vm_compute in Hret'. injection Hret' as <- <-.
    eexists. split; [exact Hret|].
    destruct Hbest as [Hb|[Ha|Hbest]]; [discriminate Hb|discriminate Ha|].
    exact Hbest.
Defined.

(** ** Submitting and cancelling an order that does not trade *)

Section SortedMaps.
Context {V : Type} (before : Price → Price → bool) `{!PriceOrder before}.

(** Sorted maps with the same entries are the same list. *)
Lemma price_sorted_ext (m m' : list (Price * V)) :
  price_sorted before m → price_sorted before m' →
  (∀ k, map_at k m = map_at k m') → m = m'.
Proof.
  revert m'. induction m as [|[k v] m IH]; intros m' Hs Hs' Heq.
  - destruct m' as [|[k' v'] m']; [done|].
    specialize (Heq k'). simpl in Heq. by rewrite Z.eqb_refl in Heq.
  - destruct m' as [|[k' v'] m'].
    { specialize (Heq k). simpl in Heq. by rewrite Z.eqb_refl in Heq. }
    assert (k = k') as <-.
    { destruct (decide (k = k')) as [|Hne]; [done|]. exfalso.
      destruct (before_total k k' Hne) as [Hb|Hb].
      - pose proof (Heq k) as Hk.
        rewrite (map_at_before_head before k k' v' m' Hs' Hb) in Hk.
        simpl in Hk. by rewrite Z.eqb_refl in Hk.
      - pose proof (Heq k') as Hk.
        rewrite (map_at_before_head before k' k v m Hs Hb) in Hk.
        simpl in Hk. by rewrite Z.eqb_refl in Hk. }
    pose proof (Heq k) as Hk. simpl in Hk. rewrite Z.eqb_refl in Hk.
    simplify_eq. f_equal.
    pose proof Hs as [_ Hs1]%price_sorted_cons.
    pose proof Hs' as [_ Hs1']%price_sorted_cons.
    apply IH; [done..|]. intros j.
    destruct (decide (j = k)) as [->|Hne].
    + destruct (map_at k m) as [w|] eqn:E.
      { by destruct (map_at_tail before _ _ _ _ _ Hs E). }
      destruct (map_at k m') as [w|] eqn:E'; [|done].
      by destruct (map_at_tail before _ _ _ _ _ Hs' E').
    + specialize (Heq j). rewrite !map_at_cons in Heq.
      by rewrite !decide_False in Heq.
Qed.
End SortedMaps.

Lemma map_at_enqueue st order o s pr :
  wf st →
  map_at pr (book s (enqueue order o st)) =
    if decide (s = GetSide o ∧ pr = GetPrice o)
    then Some (default [] (map_at pr (book s st)) ++ [order])
    else map_at pr (book s st).
Proof.
  intros Hwf. rewrite book_enqueue.
  destruct (decide (s = GetSide o)) as [->|Hne].
  - destruct (map_push_spec (before (GetSide o)) (book (GetSide o) st)
                (GetPrice o) order (wf_sorted _ _ Hwf)) as [_ Hmap].
    rewrite Hmap. destruct (decide (pr = GetPrice o)) as [->|Hpr].
    + by rewrite decide_True.
    + rewrite decide_False; [done|tauto].
  - rewrite decide_False; [done|tauto].
Qed.

Lemma MatchOrders_uncrossed st :
  wf st → uncrossed st → MatchOrders st = Ret ([], st).
Proof.
  intros Hwf Hun. rewrite MatchOrders_cross_loop by by apply wf_levels_nonempty.
  rewrite cross_loop_unfold by lia. by rewrite cross_step_uncrossed.
Qed.

Lemma enqueue_uncrossed st order o :
  wf st → uncrossed st → heap st !! order = Some o →
  orders_ st !! GetOrderId o = None →
  ¬ priced_to_cross (GetSide o) (GetPrice o) st →
  uncrossed (enqueue order o st).
Proof.
  intros Hwf Hun Ho Hid Hno.
  pose proof (enqueue_wf _ _ _ Hwf Ho Hid) as Hwf1.
  apply uncrossed_all; [done|]. intros bp bq ap aq Hb Ha.
  pose proof (map_at_enqueue st order o Buy bp Hwf) as Hb'.
  pose proof (map_at_enqueue st order o Sell ap Hwf) as Ha'.
  cbn [book] in Hb', Ha'. rewrite Hb in Hb'. rewrite Ha in Ha'.
  pose proof (proj1 (uncrossed_all st Hwf) Hun) as Hall.
  unfold priced_to_cross in Hno.
  destruct (decide (Buy = GetSide o ∧ bp = GetPrice o)) as [[Hs ->]|_];
    destruct (decide (Sell = GetSide o ∧ ap = GetPrice o)) as [[Hs' ->]|_];
    try congruence.
  - rewrite <-Hs in Hno.
    destruct (decide (GetPrice o < ap)); [done|].
    exfalso. apply Hno. exists ap, aq. split; [done|lia].
  - rewrite <-Hs' in Hno.
    destruct (decide (bp < GetPrice o)); [done|].
    exfalso. apply Hno. exists bp, bq. split; [done|lia].
  - by eapply Hall.
Qed.

Lemma list_erase_snoc p l : p ∉ l → list_erase p (l ++ [p]) = Some l.
Proof.
  induction l as [|x l IH]; simpl.
  - intros _. by rewrite decide_True.
  - intros [Hx Hl]%not_elem_of_cons. rewrite decide_False by auto.
    by rewrite IH.
Qed.

Lemma State_eq st st' :
  heap st' = heap st → (∀ s, book s st' = book s st) →
  orders_ st' = orders_ st → st' = st.
Proof.
  destruct st, st'. simpl. intros -> Hbook ->.
  pose proof (Hbook Buy) as Hb. pose proof (Hbook Sell) as Ha.
  simpl in Hb, Ha. by subst.
Qed.

Lemma AddOrder_rests st order o :
  wf st → uncrossed st → heap st !! order = Some o →
  orders_ st !! GetOrderId o = None →
  GetOrderType o = GoodTillCancel →
  ¬ priced_to_cross (GetSide o) (GetPrice o) st →
  AddOrder order st = Ret ([], enqueue order o st).
Proof.
  intros Hwf Hun Ho Hid Hgtc Hno.
  rewrite (AddOrder_accepted st order o) by auto.
  apply MatchOrders_uncrossed; [by apply enqueue_wf|by apply enqueue_uncrossed].
Qed.

Lemma enqueue_then_cancel st order o :
  wf st → heap st !! order = Some o → orders_ st !! GetOrderId o = None →
  CancelOrder (GetOrderId o) (enqueue order o st) = Ret (tt, st).
Proof.
  intros Hwf Ho Hid.
  pose proof (enqueue_wf _ _ _ Hwf Ho Hid) as Hwf1.
  assert (orders_ (enqueue order o st) =
          <[GetOrderId o := mkOrderEntry order order]> (orders_ st)) as Hidx1.
  { rewrite enqueue_eq by done. by destruct (GetSide o). }
  assert (orders_ (enqueue order o st) !! GetOrderId o =
          Some (mkOrderEntry order order)) as He.
  { rewrite Hidx1. apply lookup_insert_eq. }
  destruct (CancelOrder_present _ _ _ Hwf1 He)
    as (o' & q & q' & st2 & Ho' & _ & Hq & Hin & Herase & Hret & Hheap &
        Hidx & Hmap & _ & Hwf2).
  cbn [order_] in Ho', Hin, Herase. rewrite enqueue_heap, Ho in Ho'.
  simplify_eq.
  rewrite Hret. do 2 f_equal.
  rewrite map_at_enqueue, decide_True in Hq by done. simplify_eq.
  set (qold := default [] (map_at (GetPrice o') (book (GetSide o') st))) in *.
  assert (order ∉ qold) as Hnin.
  { intros Hin'. unfold qold in Hin'.
    destruct (map_at (GetPrice o') (book (GetSide o') st)) as [q0|] eqn:Hq0;
      simpl in Hin'; [|by apply elem_of_nil in Hin'].
    destruct (wf_resting _ _ _ _ _ Hwf Hq0 Hin') as (o2 & Ho2 & _ & _ & Hi2).
    congruence. }
  rewrite list_erase_snoc in Herase by done. simplify_eq.
  apply State_eq.
  - by rewrite Hheap, enqueue_heap.
  - intros s. apply (price_sorted_ext (before s));
      [by apply wf_sorted..|].
    intros pr. rewrite Hmap, map_at_enqueue by done.
    destruct (decide (s = GetSide o' ∧ pr = GetPrice o')) as [[-> ->]|]; [|done].
    destruct (map_at (GetPrice o') (book (GetSide o') st)) as [q0|] eqn:Hq0;
      simpl; [|done].
    destruct (wf_level _ _ _ _ Hwf Hq0) as (Hne & _). simpl in Hne.
    by rewrite decide_False.
  - rewrite Hidx, Hidx1. by apply delete_insert_id.
Qed.

(** X6. On a reachable state, a good-till-cancel order with a new id
    that no resting order of the other side is priced to cross is queued
    without a trade at the back of the level of its side and price and
    entered in the index, which grows by one; cancelling its id then gives
    back exactly the state [AddOrder] was called on. *)
Theorem AddOrder_then_CancelOrder st order o :
  reachable st → heap st !! order = Some o →
  orders_ st !! GetOrderId o = None →
  GetOrderType o = GoodTillCancel →
  ¬ priced_to_cross (GetSide o) (GetPrice o) st →
  ∃ st1,
    AddOrder order st = Ret ([], st1) ∧
    map_at (GetPrice o) (book (GetSide o) st1) =
      Some (default [] (map_at (GetPrice o) (book (GetSide o) st)) ++ [order]) ∧
    orders_ st1 !! GetOrderId o = Some (mkOrderEntry order order) ∧
    size (orders_ st1) = S (size (orders_ st)) ∧
    CancelOrder (GetOrderId o) st1 = Ret (tt, st).
Proof.
  intros [Hwf Hun]%reachable_wf Ho Hid Hgtc Hno.
  exists (enqueue order o st).
  assert (orders_ (enqueue order o st) =
          <[GetOrderId o := mkOrderEntry order order]> (orders_ st)) as Hidx1.
  { rewrite enqueue_eq by done. by destruct (GetSide o). }
  split_and!.
  - by apply AddOrder_rests.
  - by rewrite map_at_enqueue, decide_True.
  - rewrite Hidx1. apply lookup_insert_eq.
  - rewrite Hidx1. by apply map_size_insert_None.
  - by apply enqueue_then_cancel.
Qed.

Lemma AddOrder_then_CancelOrder_witness :
  ∃ st1,
    AddOrder 2%positive bid_and_new_ask = Ret ([], st1) ∧
    CancelOrder 2 st1 = Ret (tt, bid_and_new_ask).
Proof.
  destruct (AddOrder_then_CancelOrder bid_and_new_ask 2%positive
              (Order_new GoodTillCancel 2 Sell 101 5)
              reachable_bid_and_new_ask)
    as (st1 & Hadd & _ & _ & _ & Hcancel).
  - vm_compute. reflexivity.
  - vm_compute. reflexivity.
  - reflexivity.
  - intros (bp & bq & Hat & Hle). vm_compute in Hle.
    unfold bid_and_new_ask in Hat. simpl in Hat.
    destruct (Z.eqb_spec bp 100); [|discriminate]. subst. by apply Hle.
  - exists st1. split; [exact Hadd|exact Hcancel].
Defined.

(** ** Time priority *)

Lemma queues_shrink_refl st : queues_shrink st st.
Proof. by intros s pr. Qed.

Lemma queues_shrink_trans st1 st2 st3 :
  queues_shrink st1 st2 → queues_shrink st2 st3 → queues_shrink st1 st3.
Proof. intros H12 H23 s pr. etrans; [apply H23|apply H12]. Qed.

Lemma pop_front_sublist before `{!PriceOrder before} pr p t
    (rest : list (Price * OrderPointers)) pr' :
  price_sorted before ((pr, p :: t) :: rest) →
  default [] (map_at pr' (erase_if_empty pr t rest)) `sublist_of`
    default [] (map_at pr' ((pr, p :: t) :: rest)).
Proof.
  intros Hs. rewrite (map_at_erase_if_empty before rest pr (p :: t) t pr' Hs).
  case_decide as Hp; [|done]. subst pr'. simpl. rewrite Z.eqb_refl. simpl.
  case_decide; simpl; [apply sublist_nil_l|by apply sublist_cons].
Qed.

Lemma cross_step_shrinks st t st' :
  wf st → cross_step st = Ret (Some (t, st')) → queues_shrink st st'.
Proof.
  intros Hwf Hstep.
  pose proof Hstep as (bp & bid & bt & br & ap & ask & at_ & ar & bq' & aq' &
    Hb & Ha & Hlt & _)%cross_step_Some.
  apply Z.ltb_ge in Hlt.
  destruct (cross_step_spec _ _ _ _ _ _ _ _ _ Hwf Hb Ha Hlt)
    as (b & a & _ & _ & _ & _ & _ & _ & _ & _ & _ & Heq).
  cbv zeta in Heq. rewrite Hstep in Heq. simplify_eq.
  pose proof (wf_sorted st Buy Hwf) as Hsb.
  pose proof (wf_sorted st Sell Hwf) as Hsa.
  simpl in Hsb, Hsa. rewrite Hb in Hsb. rewrite Ha in Hsa.
  intros [] pr; unfold queue_at; simpl.
  - destruct (IsFilled _); [|done]. rewrite Hb.
    by apply (pop_front_sublist Z.gtb).
  - destruct (IsFilled (with_remaining a _)); [|done]. rewrite Ha.
    by apply (pop_front_sublist Z.ltb).
Qed.

Lemma cross_loop_shrinks n st trades st' :
  wf st → cross_loop n st = Ret (trades, st') → queues_shrink st st'.
Proof.
  revert st trades st'. induction n as [|n IH]; intros st trades st' Hwf; simpl;
    destruct (cross_step st) as [[[t st1]|]|e|] eqn:Hstep; simpl; try done;
    try (intros [= <- <-]; apply queues_shrink_refl).
  destruct (cross_step_fair _ _ _ Hwf Hstep) as [_ Hwf1].
  intros ([ts st2] & Hloop & Hret)%bind_Ret_inv. simplify_eq. simpl.
  eapply queues_shrink_trans; [by eapply cross_step_shrinks|by eapply IH].
Qed.

Lemma MatchOrders_shrinks st trades st' :
  wf st → MatchOrders st = Ret (trades, st') → queues_shrink st st'.
Proof.
  intros Hwf. rewrite MatchOrders_cross_loop by by apply wf_levels_nonempty.
  by apply cross_loop_shrinks.
Qed.

Lemma CancelOrder_shrinks st id st' :
  wf st → CancelOrder id st = Ret (tt, st') → queues_shrink st st'.
Proof.
  intros Hwf Hret. destruct (orders_ st !! id) as [e|] eqn:He.
  - destruct (CancelOrder_present _ _ _ Hwf He)
      as (o & q & q' & st2 & _ & _ & Hq & _ & Herase & Hret2 & _ & _ & Hmap & _).
    rewrite Hret in Hret2. simplify_eq. intros s pr. unfold queue_at.
    rewrite Hmap.
    destruct (decide (s = GetSide o ∧ pr = GetPrice o)) as [[-> ->]|]; [|done].
    rewrite Hq. simpl.
    apply list_erase_Some in Herase as (l1 & l2 & -> & -> & _).
    case_decide; simpl; [apply sublist_nil_l|].
    apply sublist_app; [done|by apply sublist_cons].
  - rewrite CancelOrder_absent in Hret by done. simplify_eq.
    apply queues_shrink_refl.
Qed.

Lemma queue_at_enqueue st order o s pr :
  wf st →
  queue_at s pr (enqueue order o st) =
    if decide (s = GetSide o ∧ pr = GetPrice o)
    then queue_at s pr st ++ [order] else queue_at s pr st.
Proof.
  intros Hwf. unfold queue_at. rewrite map_at_enqueue by done.
  by case_decide.
Qed.

Lemma not_resting_new st p o :
  wf st → heap st !! p = Some o → orders_ st !! GetOrderId o = None →
  p ∉ resting st.
Proof.
  intros Hwf Ho Hid (s & pr & q & Hq & Hp)%elem_of_resting; [|done].
  destruct (wf_resting _ _ _ _ _ Hwf Hq Hp) as (o' & Ho' & _ & _ & Hi).
  congruence.
Qed.

Lemma not_resting_dead st p : wf st → heap st !! p = None → p ∉ resting st.
Proof.
  intros Hwf Ho (s & pr & q & Hq & Hp)%elem_of_resting; [|done].
  destruct (wf_resting _ _ _ _ _ Hwf Hq Hp) as (o' & Ho' & _). congruence.
Qed.

Lemma AddOrder_priority st order trades st' :
  wf st → AddOrder order st = Ret (trades, st') →
  ∀ s pr, ∃ new,
    queue_at s pr st' `sublist_of` queue_at s pr st ++ new ∧
    (new = [] ∨
     new = [order] ∧
     ∃ o, heap st !! order = Some o ∧ orders_ st !! GetOrderId o = None).
Proof.
  intros Hwf. unfold AddOrder, deref.
  destruct (heap st !! order) as [o|] eqn:Ho; [|done]. run_bind.
  assert (∀ s pr, ∃ new,
    queue_at s pr st `sublist_of` queue_at s pr st ++ new ∧
    (new = [] ∨
     new = [order] ∧
     ∃ o0, Some o = Some o0 ∧ orders_ st !! GetOrderId o0 = None)) as Hsame.
  { intros s pr. exists []. rewrite app_nil_r. by split; [|left]. }
  case_decide as Hdup; [by intros [= <- <-]|].
  destruct (_ && _); [by intros [= <- <-]|].
  assert (orders_ st !! GetOrderId o = None) as Hid.
  { destruct (orders_ st !! GetOrderId o) eqn:E; [|done].
    exfalso. apply Hdup. by eexists. }
  intros Hmatch s pr.
  pose proof (MatchOrders_shrinks _ _ _ (enqueue_wf _ _ _ Hwf Ho Hid) Hmatch s pr)
    as Hsub.
  rewrite queue_at_enqueue in Hsub by done.
  case_decide.
  - exists [order]. split; [done|]. right. split; [done|]. by exists o.
  - exists []. rewrite app_nil_r. by split; [|left].
Qed.

Lemma step_keeps_time_priority st st' :
  wf st → step st st' → keeps_time_priority st st'.
Proof.
  intros Hwf Hstep s pr. destruct Hstep as [o st|order st trades st' Hadd|
    orderId st st' Hcancel|order st trades st' Hmod].
  - exists []. rewrite app_nil_r.
    split_and!; [by destruct s|simpl; lia|by intros p ?%elem_of_nil].
  - destruct (AddOrder_priority _ _ _ _ Hwf Hadd s pr)
      as (new & Hsub & [->|[-> (o & Ho & Hid)]]).
    + exists []. split_and!; [done|simpl; lia|by intros p ?%elem_of_nil].
    + exists [order]. split_and!; [done|simpl; lia|].
      intros p ->%list_elem_of_singleton. by eapply not_resting_new.
  - exists []. rewrite app_nil_r.
    split_and!; [|simpl; lia|by intros p ?%elem_of_nil].
    by apply (CancelOrder_shrinks _ _ _ Hwf Hcancel).
  - unfold MatchOrder in Hmod.
    destruct (orders_ st !! om_orderId_ order) as [[existingOrder it]|].
    2:{ simplify_eq. exists []. rewrite app_nil_r.
        split_and!; [done|simpl; lia|by intros p ?%elem_of_nil]. }
    destruct (CancelOrder_wf st (om_orderId_ order) Hwf)
      as (st1 & Hret & Hwf1 & Hheap & _).
    rewrite Hret in Hmod. revert Hmod. run_bind.
    intros (existing & _ & Hadd)%bind_Ret_inv.
    pose proof (make_shared_wf (ToOrder order (GetOrderType existing)) _ Hwf1)
      as Hwf2.
    unfold make_shared in Hadd, Hwf2. simpl in Hadd, Hwf2.
    destruct (AddOrder_priority _ _ _ _ Hwf2 Hadd s pr) as (new & Hsub & Hnew).
    pose proof (CancelOrder_shrinks _ _ _ Hwf Hret s pr) as Hsub1.
    exists new. split_and!.
    + etrans; [exact Hsub|]. apply sublist_app; [|done].
      by destruct s.
    + destruct Hnew as [->|[-> _]]; simpl; lia.
    + destruct Hnew as [->|[-> _]]; [by intros p ?%elem_of_nil|].
      intros p ->%list_elem_of_singleton. apply not_resting_dead; [done|].
      rewrite <-Hheap. apply not_elem_of_dom, is_fresh.
Qed.

(** X7. Time priority: on a well-formed book, after a [make_shared],
    [AddOrder], [CancelOrder] or [MatchOrder] call every queue is a
    subsequence of the queue it was before the call, followed by at most
    one order that was not resting before; no operation lets an order
    overtake another one of its queue. *)
Theorem operations_keep_time_priority st st' :
  wf st → step st st' → keeps_time_priority st st'.
Proof. apply step_keeps_time_priority. Qed.

Lemma operations_keep_time_priority_witness :
  wf bid_and_new_ask ∧ keeps_time_priority bid_and_new_ask bid_and_ask.
Proof.
  assert (wf bid_and_new_ask) as Hwf.
  { apply (bool_decide_unpack _). by vm_compute. }
  split; [exact Hwf|].
  apply (operations_keep_time_priority _ _ Hwf).
  apply (step_AddOrder 2%positive _ []). vm_compute. reflexivity.
Defined.

(** ** The steps of a modify *)

Lemma CancelOrder_queues st id e st1 :
  wf st → orders_ st !! id = Some e → CancelOrder id st = Ret (tt, st1) →
  ∀ s pr, queue_at s pr st1 = filter (λ x, x ≠ order_ e) (queue_at s pr st).
Proof.
  intros Hwf He Hret s pr.
  destruct (CancelOrder_present _ _ _ Hwf He)
    as (o & q & q' & st2 & Ho & _ & Hq & Hin & Herase & Hret2 & _ & _ & Hmap & _).
  rewrite Hret in Hret2. simplify_eq. unfold queue_at. rewrite Hmap.
  destruct (decide (s = GetSide o ∧ pr = GetPrice o)) as [[-> ->]|Hne].
  - rewrite Hq. simpl.
    destruct (wf_level _ _ _ _ Hwf Hq) as (_ & Hnd & _). simpl in Hnd.
    rewrite <-(list_erase_filter _ _ _ Hnd Herase). by case_decide; subst.
  - destruct (map_at pr (book s st)) as [q0|] eqn:Hq0; [|done]. simpl.
    rewrite filter_ne_id; [done|]. intros Hin0. apply Hne.
    by destruct (wf_resting_unique _ _ _ _ _ _ _ _ Hwf Hq0 Hin0 Hq Hin).
Qed.

Lemma priced_to_cross_same_books side price st st' :
  bids_ st' = bids_ st → asks_ st' = asks_ st →
  priced_to_cross side price st' ↔ priced_to_cross side price st.
Proof. unfold priced_to_cross. by intros -> ->. Qed.

Lemma AddOrder_killed st order o :
  wf st → heap st !! order = Some o → GetOrderType o = FillAndKill →
  ¬ priced_to_cross (GetSide o) (GetPrice o) st →
  AddOrder order st = Ret ([], st).
Proof.
  intros Hwf Ho Hfak Hno. unfold AddOrder, deref. rewrite Ho. run_bind.
  case_decide; [done|].
  rewrite bool_decide_eq_true_2 by done.
  destruct (CanMatch (GetSide o) (GetPrice o) st) eqn:Hcan; [|done].
  by apply (CanMatch_priced_to_cross _ _ _ Hwf) in Hcan.
Qed.

Lemma MatchOrder_present st om e existing st1 :
  orders_ st !! om_orderId_ om = Some e →
  heap st !! order_ e = Some existing →
  CancelOrder (om_orderId_ om) st = Ret (tt, st1) → heap st1 = heap st →
  MatchOrder om st =
    AddOrder (fresh (dom (heap st)))
      (mkState
         (<[fresh (dom (heap st)) := ToOrder om (GetOrderType existing)]> (heap st))
         (bids_ st1) (asks_ st1) (orders_ st1)).
Proof.
  intros He Ho Hret Hheap. unfold MatchOrder. rewrite He. destruct e as [p it].
  rewrite Hret. run_bind. simpl in *. unfold deref. by rewrite Hheap, Ho.
Qed.

(** ** The submitted order is a party to every trade of its [AddOrder] *)

Lemma erase_if_empty_prices pr (q : OrderPointers) rest x :
  x ∈ (erase_if_empty pr q rest).*1 → x ∈ pr :: rest.*1.
Proof. destruct q; simpl; [by right|done]. Qed.

Lemma apart_uncrossed st : apart (bids_ st) (asks_ st) → uncrossed st.
Proof.
  unfold apart, uncrossed. destruct (bids_ st) as [|[bp ?] ?]; [done|].
  destruct (asks_ st) as [|[ap ?] ?]; [done|].
  intros H. apply H; simpl; left.
Qed.

Lemma uncrossed_apart st : wf st → uncrossed st → apart (bids_ st) (asks_ st).
Proof.
  intros Hwf Hun bp ap [[? bq] [-> Hb]]%list_elem_of_fmap
    [[? aq] [-> Ha]]%list_elem_of_fmap. simpl.
  apply (map_at_sorted_elem_of Z.gtb) in Hb; [|apply (wf_sorted st Buy Hwf)].
  apply (map_at_sorted_elem_of Z.ltb) in Ha; [|apply (wf_sorted st Sell Hwf)].
  by eapply (proj1 (uncrossed_all st Hwf) Hun).
Qed.

Lemma apart_mono bids asks bids' asks' :
  apart bids asks →
  (∀ x, x ∈ bids'.*1 → x ∈ bids.*1) → (∀ x, x ∈ asks'.*1 → x ∈ asks.*1) →
  apart bids' asks'.
Proof. intros H Hb Ha bp ap ??. apply H; auto. Qed.

Lemma cross_loop_uncrossed n st :
  wf st → uncrossed st → cross_loop n st = Ret ([], st).
Proof. intros Hwf Hun. destruct n; simpl; by rewrite cross_step_uncrossed. Qed.

Lemma cross_step_taking s order pr st o :
  wf st → taking s order pr st → heap st !! order = Some o →
  cross_step st = Ret None ∨
  ∃ t st' o',
    cross_step st = Ret (Some (t, st')) ∧
    heap st' !! order = Some o' ∧
    GetOrderId o' = GetOrderId o ∧
    (GetRemainingQuantity o' + ti_quantity_ (bidTrade_ t) =
       GetRemainingQuantity o)%N ∧
    ti_orderId_ (own_side s t) = GetOrderId o ∧
    ti_price_ (own_side s t) = pr ∧
    (taking s order pr st' ∨ uncrossed st').
Proof.
  intros Hwf Htake Ho. destruct s; destruct Htake as (rest & Hown & Hap).
  - destruct (asks_ st) as [|[ap [|ask at_]] ar] eqn:Ha;
      [left; unfold cross_step; by rewrite Hown, Ha..|].
    destruct (Z.ltb_spec pr ap) as [Hlt|Hle].
    { left. unfold cross_step. rewrite Hown, Ha.
      by rewrite (proj2 (Z.ltb_lt _ _) Hlt). }
    destruct (cross_step_spec _ _ _ _ _ _ _ _ _ Hwf Hown Ha Hle)
      as (b & a & Hhb & Hha & Hne & _ & _ & Hpb & _ & _ & _ & Heq).
    cbv zeta in Heq. assert (b = o) as -> by congruence.
    right. eexists _, _, _. split; [exact Heq|].
    cbn [heap bids_ asks_ bidTrade_ askTrade_ own_side ti_orderId_ ti_price_
         ti_quantity_].
    split_and!.
    + rewrite lookup_insert_ne by auto. apply lookup_insert_eq.
    + done.
    + unfold GetRemainingQuantity. simpl. lia.
    + done.
    + done.
    + set (asks' := if IsFilled _ then erase_if_empty ap at_ ar else _).
      assert (∀ x, x ∈ asks'.*1 → x ∈ ((ap, ask :: at_) :: ar).*1) as Hsub.
      { intros x. unfold asks'.
        destruct (IsFilled (with_remaining a _)); [|by rewrite Ha].
        apply erase_if_empty_prices. }
      destruct (IsFilled (with_remaining o _)).
      * right. apply apart_uncrossed. cbn [bids_ asks_ erase_if_empty].
        by apply (apart_mono _ _ _ _ Hap).
      * left. exists rest. split; [done|].
        by apply (apart_mono _ _ _ _ Hap).
  - destruct (bids_ st) as [|[bp [|bid bt]] br] eqn:Hb;
      [left; unfold cross_step; by rewrite Hb..|].
    destruct (Z.ltb_spec bp pr) as [Hlt|Hle].
    { left. unfold cross_step. rewrite Hown, Hb.
      by rewrite (proj2 (Z.ltb_lt _ _) Hlt). }
    destruct (cross_step_spec _ _ _ _ _ _ _ _ _ Hwf Hb Hown Hle)
      as (b & a & Hhb & Hha & Hne & _ & _ & _ & Hpa & _ & _ & Heq).
    cbv zeta in Heq. assert (a = o) as -> by congruence.
    right. eexists _, _, _. split; [exact Heq|].
    cbn [heap bids_ asks_ bidTrade_ askTrade_ own_side ti_orderId_ ti_price_
         ti_quantity_].
    split_and!.
    + apply lookup_insert_eq.
    + done.
    + unfold GetRemainingQuantity. simpl. lia.
    + done.
    + done.
    + set (bids' := if IsFilled _ then erase_if_empty bp bt br else _).
      assert (∀ x, x ∈ bids'.*1 → x ∈ ((bp, bid :: bt) :: br).*1) as Hsub.
      { intros x. unfold bids'.
        destruct (IsFilled (with_remaining b _)); [|by rewrite Hb].
        apply erase_if_empty_prices. }
      destruct (IsFilled (with_remaining o _)).
      * right. apply apart_uncrossed. cbn [bids_ asks_ erase_if_empty].
        by apply (apart_mono _ _ _ _ Hap).
      * left. exists rest. split; [done|].
        by apply (apart_mono _ _ _ _ Hap).
Qed.

Lemma cross_loop_taking s order pr n st o trades st' :
  wf st → taking s order pr st → heap st !! order = Some o →
  cross_loop n st = Ret (trades, st') →
  Forall (λ t, ti_orderId_ (own_side s t) = GetOrderId o ∧
               ti_price_ (own_side s t) = pr) trades ∧
  ∃ o', heap st' !! order = Some o' ∧
        (GetRemainingQuantity o' + traded trades = GetRemainingQuantity o)%N.
Proof.
  revert st o trades st'.
  induction n as [|n IH]; intros st o trades st' Hwf Htake Ho; simpl;
    (destruct (cross_step_taking _ _ _ _ _ Hwf Htake Ho)
      as [Hstep|(t & st1 & o1 & Hstep & Ho1 & Hid1 & Hq & Hti & Htp & Hnext)];
     rewrite Hstep; run_bind;
     [intros [= <- <-]; split; [constructor|];
      exists o; split; [done|simpl; lia]|]); [done|].
  destruct (cross_step_fair _ _ _ Hwf Hstep) as [_ Hwf1].
  intros ([ts st2] & Hloop & Hret)%bind_Ret_inv. simplify_eq. simpl.
  destruct Hnext as [Htake1|Hun1].
  - destruct (IH _ _ _ _ Hwf1 Htake1 Ho1 Hloop) as (Hall & o' & Ho' & Hsum).
    split.
    + constructor; [done|]. eapply Forall_impl; [exact Hall|].
      intros t' [??]. split; congruence.
    + exists o'. split; [done|]. lia.
  - rewrite cross_loop_uncrossed in Hloop by done. simplify_eq.
    split; [by repeat constructor|]. exists o1. split; [done|]. simpl. lia.
Qed.

Lemma map_push_front before `{!PriceOrder before} k p
    (m : list (Price * OrderPointers)) :
  (∀ k', k' ∈ m.*1 → before k k' = true) →
  map_push before k p m = (k, [p]) :: m.
Proof.
  intros Hall. unfold map_push. destruct m as [|[k' v] m]; simpl.
  - by rewrite !Z.eqb_refl.
  - assert (before k k' = true) as Hb by (apply Hall; left).
    destruct (Z.eqb_spec k k') as [->|Hne]; [by rewrite before_irrefl in Hb|].
    rewrite Hb. simpl. by rewrite !Z.eqb_refl.
Qed.

Lemma enqueue_taking st order o :
  wf st → uncrossed st →
  priced_to_cross (GetSide o) (GetPrice o) st →
  taking (GetSide o) order (GetPrice o) (enqueue order o st).
Proof.
  intros Hwf Hun Hcross.
  pose proof (uncrossed_apart st Hwf Hun) as Hap.
  pose proof (book_enqueue Buy order o st) as Hb.
  pose proof (book_enqueue Sell order o st) as Ha.
  cbn [book before] in Hb, Ha.
  destruct (GetSide o) eqn:Hs; simpl in Hcross;
    destruct Hcross as (cp & cq & Hat%map_at_elem_of & Hle);
    apply (list_elem_of_fmap_2 fst) in Hat; simpl in Hat.
  - rewrite decide_True in Hb by done. rewrite decide_False in Ha by done.
    exists (bids_ st). rewrite Hb, Ha. split; [|done].
    apply (map_push_front Z.gtb). intros k' Hk'.
    specialize (Hap k' cp Hk' Hat). lia.
  - rewrite decide_False in Hb by done. rewrite decide_True in Ha by done.
    exists (asks_ st). rewrite Hb, Ha. split; [|done].
    apply (map_push_front Z.ltb). intros k' Hk'.
    specialize (Hap cp k' Hat Hk'). lia.
Qed.

Lemma enqueue_crossed st order o :
  wf st → heap st !! order = Some o → orders_ st !! GetOrderId o = None →
  priced_to_cross (GetSide o) (GetPrice o) st →
  ∃ t st1, cross_step (enqueue order o st) = Ret (Some (t, st1)).
Proof.
  intros Hwf Ho Hid Hcross.
  pose proof (enqueue_wf _ _ _ Hwf Ho Hid) as Hwf0.
  destruct (cross_step_wf _ Hwf0) as [[_ Hun0]|(t & st1 & Hstep & _)];
    [exfalso|by eauto].
  pose proof (proj1 (uncrossed_all _ Hwf0) Hun0) as Hall.
  pose proof (map_at_enqueue st order o Buy) as Hb.
  pose proof (map_at_enqueue st order o Sell) as Ha.
  cbn [book] in Hb, Ha. unfold priced_to_cross in Hcross.
  destruct (GetSide o) eqn:Hs; destruct Hcross as (cp & cq & Hat & Hle).
  - specialize (Hb (GetPrice o) Hwf). specialize (Ha cp Hwf).
    rewrite decide_True in Hb by done.
    rewrite decide_False, Hat in Ha by (intros [? _]; done).
    specialize (Hall _ _ _ _ Hb Ha). lia.
  - specialize (Ha (GetPrice o) Hwf). specialize (Hb cp Hwf).
    rewrite decide_True in Ha by done.
    rewrite decide_False, Hat in Hb by (intros [? _]; done).
    specialize (Hall _ _ _ _ Hb Ha). lia.
Qed.

Lemma AddOrder_taker st order o trades st' :
  wf st → uncrossed st → heap st !! order = Some o →
  AddOrder order st = Ret (trades, st') →
  Forall (λ t, ti_orderId_ (own_side (GetSide o) t) = GetOrderId o ∧
               ti_price_ (own_side (GetSide o) t) = GetPrice o) trades ∧
  (∃ o', heap st' !! order = Some o' ∧
         (GetRemainingQuantity o' + traded trades = GetRemainingQuantity o)%N) ∧
  (trades ≠ [] ↔
     orders_ st !! GetOrderId o = None ∧
     priced_to_cross (GetSide o) (GetPrice o) st).
Proof.
  intros Hwf Hun Ho Hadd.
  assert (trades = [] → st' = st ∨ st' = enqueue order o st →
          ¬ (orders_ st !! GetOrderId o = None ∧
             priced_to_cross (GetSide o) (GetPrice o) st) →
          Forall (λ t, ti_orderId_ (own_side (GetSide o) t) = GetOrderId o ∧
                       ti_price_ (own_side (GetSide o) t) = GetPrice o) trades ∧
          (∃ o', heap st' !! order = Some o' ∧
             (GetRemainingQuantity o' + traded trades =
                GetRemainingQuantity o)%N) ∧
          (trades ≠ [] ↔
             orders_ st !! GetOrderId o = None ∧
             priced_to_cross (GetSide o) (GetPrice o) st)) as Hidle.
  { intros -> Hst Hnot. split_and!; [constructor| |by split].
    exists o. split; [|simpl; lia].
    destruct Hst as [->| ->]; [done|by rewrite enqueue_heap]. }
  destruct (orders_ st !! GetOrderId o) as [e|] eqn:Hid.
  { unfold AddOrder, deref in Hadd. rewrite Ho in Hadd. revert Hadd. run_bind.
    rewrite decide_True by (rewrite Hid; by eexists). intros [= <- <-].
    apply Hidle; [done|by left|]. by intros [? _]. }
  destruct (CanMatch (GetSide o) (GetPrice o) st) eqn:Hcan.
  - pose proof (proj1 (CanMatch_priced_to_cross _ _ _ Hwf) Hcan) as Hcross.
    rewrite (AddOrder_accepted st order o) in Hadd by auto.
    pose proof (enqueue_wf _ _ _ Hwf Ho Hid) as Hwf0.
    rewrite MatchOrders_cross_loop in Hadd by by apply wf_levels_nonempty.
    destruct (cross_loop_taking (GetSide o) order (GetPrice o) _ _ o _ _ Hwf0
                (enqueue_taking _ _ _ Hwf Hun Hcross)
                ltac:(by rewrite enqueue_heap) Hadd) as [Hall Hsum].
    split_and!; [done..|]. split; [done|]. intros _.
    destruct (enqueue_crossed _ _ _ Hwf Ho Hid Hcross) as (t & st1 & Hstep).
    rewrite cross_loop_unfold, Hstep in Hadd by lia. revert Hadd. run_bind.
    intros ([ts st2] & _ & Hret)%bind_Ret_inv. by simplify_eq.
  - assert (¬ priced_to_cross (GetSide o) (GetPrice o) st) as Hno.
    { intros Hcross%(CanMatch_priced_to_cross _ _ _ Hwf). congruence. }
    destruct (GetOrderType o) eqn:Htype.
    + rewrite (AddOrder_rests st order o) in Hadd by done. simplify_eq.
      apply Hidle; [done|by right|]. by intros [_ ?].
    + rewrite (AddOrder_killed st order o) in Hadd by done. simplify_eq.
      apply Hidle; [done|by left|]. by intros [_ ?].
Qed.

(** X9. On a reachable state [AddOrder] of a live order returns, and
    the submitted order is a party to every trade the call returns: the
    trade's half on the order's side carries its id and its limit price.
    What the order has left after the call plus the quantities of the
    returned trades is what it had left before.  The call returns a trade
    exactly when the id is not in the index and some resting order of the
    other side is priced to cross. *)
Theorem AddOrder_aggressor st order o :
  reachable st → heap st !! order = Some o →
  ∃ trades st',
    AddOrder order st = Ret (trades, st') ∧
    Forall (λ t, ti_orderId_ (own_side (GetSide o) t) = GetOrderId o ∧
                 ti_price_ (own_side (GetSide o) t) = GetPrice o) trades ∧
    (∃ o', heap st' !! order = Some o' ∧
           (GetRemainingQuantity o' + traded trades =
              GetRemainingQuantity o)%N) ∧
    (trades ≠ [] ↔
       orders_ st !! GetOrderId o = None ∧
       priced_to_cross (GetSide o) (GetPrice o) st).
Proof.
  intros [Hwf Hun]%reachable_wf Ho.
  destruct (AddOrder_wf _ _ _ Hwf Ho) as (trades & st' & Hadd & _).
  exists trades, st'. split; [done|]. by apply AddOrder_taker.
Qed.

(** A fill-and-kill buy of 10 at 100 meets a resting sell of 5 at 100:
    one trade of 5, and 5 of the 10 are left. *)
Lemma AddOrder_aggressor_witness :
  ∃ st' o',
    AddOrder 2%positive ask_and_new_fak =
      Ret ([mkTrade (mkTradeInfo 2 100 5) (mkTradeInfo 1 100 5)], st') ∧
    heap st' !! 2%positive = Some o' ∧
    (GetRemainingQuantity o' +
       traded [mkTrade (mkTradeInfo 2 100 5) (mkTradeInfo 1 100 5)] = 10)%N.
Proof.
  destruct (AddOrder_aggressor ask_and_new_fak 2%positive
              (Order_new FillAndKill 2 Buy 100 10) reachable_ask_and_new_fak)
    as (trades & st' & Hadd & _ & (o' & Ho' & Hsum) & _).
  { vm_compute. reflexivity. }
  pose proof Hadd as Hadd'. vm_compute in Hadd'. injection Hadd' as <- <-.
  eexists _, o'. split_and!; [exact Hadd|exact Ho'|exact Hsum].
Defined.

(** ** Modifying an order *)

(** X8. Modifying a resting order on a reachable state returns.  It
    cancels the order, which filters it out of its queue, and submits a new
    object with the same id and time-in-force and the requested side, price
    and quantity: the new object is in the store of the state returned,
    with the requested quantity less what the returned trades filled, it is
    a party to each of those trades, and there is a trade exactly when some
    resting order of the other side is priced to cross it after the cancel.
    When none is: a good-till-cancel order rests, unfilled, at the back of
    the queue of its new side and price, also when that is the queue it
    came from, whatever place it had there; a fill-and-kill order is gone
    from the book and the index. *)
Theorem MatchOrder_requeues st om e :
  reachable st → orders_ st !! om_orderId_ om = Some e →
  ∃ existing st1 trades st' o',
    heap st !! order_ e = Some existing ∧
    CancelOrder (om_orderId_ om) st = Ret (tt, st1) ∧
    (∀ s pr, queue_at s pr st1 = filter (λ x, x ≠ order_ e) (queue_at s pr st)) ∧
    MatchOrder om st = Ret (trades, st') ∧
    heap st' !! fresh (dom (heap st)) = Some o' ∧
    o' = mkOrder (GetOrderType existing) (om_orderId_ om) (om_side_ om)
           (om_price_ om) (om_quantity_ om) (GetRemainingQuantity o') ∧
    (GetRemainingQuantity o' + traded trades = om_quantity_ om)%N ∧
    Forall (λ t, ti_orderId_ (own_side (om_side_ om) t) = om_orderId_ om ∧
                 ti_price_ (own_side (om_side_ om) t) = om_price_ om) trades ∧
    (trades ≠ [] ↔ priced_to_cross (om_side_ om) (om_price_ om) st1) ∧
    (¬ priced_to_cross (om_side_ om) (om_price_ om) st1 →
     trades = [] ∧
     heap st' =
       <[fresh (dom (heap st)) :=
           Order_new (GetOrderType existing) (om_orderId_ om) (om_side_ om)
             (om_price_ om) (om_quantity_ om)]> (heap st) ∧
     match GetOrderType existing with
     | GoodTillCancel =>
         (∀ s pr, queue_at s pr st' =
            if decide (s = om_side_ om ∧ pr = om_price_ om)
            then queue_at s pr st1 ++ [fresh (dom (heap st))]
            else queue_at s pr st1) ∧
         orders_ st' =
           <[om_orderId_ om :=
               mkOrderEntry (fresh (dom (heap st))) (fresh (dom (heap st)))]>
             (orders_ st)
     | FillAndKill =>
         bids_ st' = bids_ st1 ∧ asks_ st' = asks_ st1 ∧
         orders_ st' = delete (om_orderId_ om) (orders_ st)
     end).
Proof.
  intros [Hwf Hun]%reachable_wf He.
  destruct (CancelOrder_present _ _ _ Hwf He)
    as (o & q & q' & st1 & Ho & Hid & Hq & Hin & Herase & Hret & Hheap &
        Hidx & Hmap & Hother & Hwf1).
  set (p := fresh (dom (heap st))).
  set (new := ToOrder om (GetOrderType o)).
  set (st2 := mkState (<[p := new]> (heap st)) (bids_ st1) (asks_ st1)
                (orders_ st1)).
  assert (wf st2) as Hwf2.
  { pose proof (make_shared_wf new st1 Hwf1) as H.
    unfold make_shared in H. simpl in H. by rewrite Hheap in H. }
  assert (uncrossed st2) as Hun2.
  { destruct (CancelOrder_wf st (om_orderId_ om) Hwf)
      as (st1' & Hret' & _ & _ & _ & Hun1).
    rewrite Hret in Hret'. simplify_eq.
    by apply (uncrossed_same_books st1'); [..|apply Hun1]. }
  assert (heap st2 !! p = Some new) as Hp by apply lookup_insert_eq.
  assert (orders_ st2 !! GetOrderId new = None) as Hnew.
  { simpl. rewrite Hidx. apply lookup_delete_eq. }
  destruct (AddOrder_wf st2 p new Hwf2 Hp) as (trades & st' & Hadd & _).
  destruct (AddOrder_taker st2 p new trades st' Hwf2 Hun2 Hp Hadd)
    as (Hall & (o' & Ho' & Hsum) & Hiff).
  destruct (AddOrder_only_fills _ _ _ _ Hadd p new Hp)
    as (o'' & Ho'' & Hsame & _).
  assert (o'' = o') as -> by congruence.
  exists o, st1, trades, st', o'.
  split_and!; [done|done|by eapply CancelOrder_queues| |done|exact Hsame|
               exact Hsum|exact Hall| |].
  - by rewrite (MatchOrder_present st om e o st1).
  - rewrite Hiff, (priced_to_cross_same_books _ _ st1 st2) by done.
    split; [by intros [_ ?]|by split].
  - intros Hno.
    assert (¬ priced_to_cross (GetSide new) (GetPrice new) st2) as Hno2.
    { by rewrite (priced_to_cross_same_books _ _ st1 st2). }
    unfold new in *. destruct (GetOrderType o) eqn:Htype.
    + rewrite (AddOrder_rests st2 p _ Hwf2 Hun2 Hp Hnew) in Hadd by done.
      injection Hadd as <- <-. split_and!.
      * done.
      * by rewrite enqueue_heap.
      * intros s pr. by rewrite queue_at_enqueue.
      * rewrite enqueue_eq by done. simpl.
        transitivity (<[om_orderId_ om := mkOrderEntry p p]> (orders_ st1)).
        { by destruct (om_side_ om). }
        rewrite Hidx. apply insert_delete_eq.
    + rewrite (AddOrder_killed st2 p _ Hwf2 Hp) in Hadd by done.
      injection Hadd as <- <-. by split_and!.
Qed.

(** Moving the bid at 99 of a book with an ask at 100 up to 100: the new
    object trades its 3 and is filled.  Re-submitting the first of two
    bids of one queue at the same price: no trade, and it is now last. *)
Lemma MatchOrder_requeues_witness :
  (∃ st',
     MatchOrder (mkOrderModify 2 100 Buy 3) two_bids_one_ask =
       Ret ([mkTrade (mkTradeInfo 2 100 3) (mkTradeInfo 3 100 3)], st') ∧
     heap st' !! 5%positive = Some (mkOrder GoodTillCancel 2 Buy 100 3 0)) ∧
  ∃ st',
    MatchOrder (mkOrderModify 1 100 Buy 5) two_large_bids = Ret ([], st') ∧
    queue_at Buy 100 st' = [2%positive; 3%positive] ∧
    heap st' !! 3%positive = Some (Order_new GoodTillCancel 1 Buy 100 5).
Proof.
  split.
  - destruct (MatchOrder_requeues two_bids_one_ask (mkOrderModify 2 100 Buy 3)
                (mkOrderEntry 2 2) reachable_two_bids_one_ask)
      as (existing & st1 & trades & st' & o' & Ho & _ & _ & Hret & Ho' & Hsame &
          Hsum & _).
    { vm_compute. reflexivity. }
    pose proof Hret as Hret'. vm_compute in Hret'. injection Hret' as <- <-.
    eexists. split; [exact Hret|]. vm_compute. reflexivity.
  - destruct (MatchOrder_requeues two_large_bids (mkOrderModify 1 100 Buy 5)
                (mkOrderEntry 1 1) reachable_two_large_bids)
      as (existing & st1 & trades & st' & o' & Ho & Hret & _ & Hmod & _ & _ &
          _ & _ & _ & Hrest).
    { vm_compute. reflexivity. }
    assert (existing = Order_new GoodTillCancel 1 Buy 100 3000000000) as ->.
    { vm_compute in Ho. injection Ho as <-. reflexivity. }
    assert (st1 = mkState (heap two_large_bids) [(100, [2%positive])] []
                    (<[2%N := mkOrderEntry 2 2]> ∅)) as ->.
    { vm_compute in Hret. injection Hret as <-. reflexivity. }
    destruct Hrest as (-> & Hheap & Hqueue & _).
    { intros (ap & aq & Hat & _). done. }
    exists st'. split_and!.
    + exact Hmod.
    + rewrite (Hqueue Buy 100). vm_compute. reflexivity.
    + rewrite Hheap. vm_compute. reflexivity.
Defined.

(** ** The driver *)

Lemma cross_step_index st t st' :
  wf st → cross_step st = Ret (Some (t, st')) → orders_ st' ⊆ orders_ st.
Proof.
  intros Hwf Hstep.
  pose proof Hstep as (bp & bid & bt & br & ap & ask & at_ & ar & bq' & aq' &
    Hb & Ha & Hlt & _)%cross_step_Some.
  apply Z.ltb_ge in Hlt.
  destruct (cross_step_spec _ _ _ _ _ _ _ _ _ Hwf Hb Ha Hlt)
    as (b & a & _ & _ & _ & _ & _ & _ & _ & _ & _ & Heq).
  cbv zeta in Heq. rewrite Hstep in Heq. simplify_eq. cbn [orders_].
  destruct (IsFilled (with_remaining a _)), (IsFilled (with_remaining b _));
    simpl; try done.
  - etrans; apply delete_subseteq.
  - apply delete_subseteq.
  - apply delete_subseteq.
Qed.

Lemma cross_loop_index n st trades st' :
  wf st → cross_loop n st = Ret (trades, st') → orders_ st' ⊆ orders_ st.
Proof.
  revert st trades st'. induction n as [|n IH]; intros st trades st' Hwf; simpl;
    destruct (cross_step st) as [[[t st1]|]|e|] eqn:Hstep; simpl; try done;
    try (by intros [= <- <-]).
  destruct (cross_step_fair _ _ _ Hwf Hstep) as [_ Hwf1].
  intros ([ts st2] & Hloop & Hret)%bind_Ret_inv. simplify_eq. simpl.
  etrans; [by eapply IH|by eapply cross_step_index].
Qed.

Lemma AddOrder_index st order o trades st' :
  wf st → heap st !! order = Some o → orders_ st !! GetOrderId o = None →
  AddOrder order st = Ret (trades, st') →
  orders_ st' ⊆ <[GetOrderId o := mkOrderEntry order order]> (orders_ st).
Proof.
  intros Hwf Ho Hid. unfold AddOrder, deref. rewrite Ho. run_bind.
  rewrite decide_False by (rewrite Hid; by intros [??]).
  destruct (_ && _); [intros [= <- <-]; by apply insert_subseteq|].
  rewrite MatchOrders_cross_loop
    by by apply wf_levels_nonempty, enqueue_wf.
  intros Hloop%cross_loop_index; [|by apply enqueue_wf].
  rewrite enqueue_eq in Hloop by done. by destruct (GetSide o).
Qed.

Lemma AddOrder_remaining st order o trades st' (B : N) :
  wf st → heap st !! order = Some o → AddOrder order st = Ret (trades, st') →
  (GetRemainingQuantity o ≤ B)%N →
  (∀ p o, p ∈ resting st → heap st !! p = Some o →
          (GetRemainingQuantity o ≤ B)%N) →
  ∀ p o, p ∈ resting st' → heap st' !! p = Some o →
         (GetRemainingQuantity o ≤ B)%N.
Proof.
  intros Hwf Ho Hadd HB Hold p o' Hp Ho'.
  destruct (AddOrder_Ret_wf _ _ _ _ Hwf Hadd) as [Hwf' _].
  apply (elem_of_resting _ _ Hwf') in Hp as (s & pr & q & Hq & Hp).
  destruct (AddOrder_priority _ _ _ _ Hwf Hadd s pr) as (new & Hsub & Hnew).
  assert (p ∈ queue_at s pr st ++ new) as Hin.
  { eapply elem_of_sublist; [|exact Hsub]. unfold queue_at. by rewrite Hq. }
  assert (∃ o0, heap st !! p = Some o0 ∧ (GetRemainingQuantity o0 ≤ B)%N)
    as (o0 & Ho0 & HB0).
  { apply elem_of_app in Hin as [Hin|Hin].
    - unfold queue_at in Hin.
      destruct (map_at pr (book s st)) as [q0|] eqn:Hq0; simpl in Hin;
        [|by apply elem_of_nil in Hin].
      destruct (wf_resting _ _ _ _ _ Hwf Hq0 Hin) as (o0 & Ho0 & _).
      exists o0. split; [done|]. apply (Hold p); [|done].
      apply elem_of_resting; eauto.
    - destruct Hnew as [->|[-> _]]; [by apply elem_of_nil in Hin|].
      apply list_elem_of_singleton in Hin as ->. eauto. }
  destruct (AddOrder_only_fills _ _ _ _ Hadd p o0 Ho0) as (o1 & Ho1 & _ & Hle).
  simplify_eq. lia.
Qed.

Lemma level_total_bound h q (B : N) :
  (∀ p o, p ∈ q → h !! p = Some o → (GetRemainingQuantity o ≤ B)%N) →
  (level_total h q ≤ B * N.of_nat (length q))%N.
Proof.
  induction q as [|p q IH]; intros Hall; simpl; [lia|].
  assert (from_option GetRemainingQuantity 0 (h !! p) ≤ B)%N as Hp.
  { destruct (h !! p) as [o|] eqn:Ho; simpl; [|lia].
    apply (Hall p); [left|done]. }
  assert (level_total h q ≤ B * N.of_nat (length q))%N as Hq.
  { apply IH. intros p' o' Hp'. apply Hall. by right. }
  unfold level_total in *. lia.
Qed.

Lemma length_concat_elem {A} (l : list A) (ls : list (list A)) :
  l ∈ ls → (length l ≤ length (concat ls))%nat.
Proof.
  induction ls as [|l' ls IH]; [by intros ?%elem_of_nil|].
  simpl. rewrite length_app. intros [->|Hin%IH]%elem_of_cons; lia.
Qed.

Lemma wrapped_exact h (m : list (Price * OrderPointers)) :
  Forall (λ lvl, (level_total h lvl.2 < Quantity_modulus)%N) m →
  wrapped_snapshot h m = exact_snapshot h m.
Proof.
  intros Hsmall. unfold wrapped_snapshot, exact_snapshot.
  apply Forall_fmap_ext_1. eapply Forall_impl; [exact Hsmall|].
  intros [pr q] Hq. simpl in *. f_equal. by apply N.mod_small.
Qed.

Lemma GetOrderInfos_exact st :
  wf st → (size (orders_ st) ≤ 5000)%nat →
  (∀ p o, p ∈ resting st → heap st !! p = Some o →
          (GetRemainingQuantity o ≤ 1000)%N) →
  GetOrderInfos st = Ret (snapshot_of st, st).
Proof.
  intros Hwf Hsize Hrem. rewrite GetOrderInfos_wf by done.
  rewrite size_index_resting in Hsize by done.
  assert (∀ s, Forall (λ lvl, (level_total (heap st) lvl.2 < Quantity_modulus)%N)
                 (book s st)) as Hsmall.
  { intros s. apply Forall_forall. intros [pr q] Hin. simpl.
    assert (level_total (heap st) q ≤ 1000 * N.of_nat (length q))%N as Hq.
    { apply level_total_bound. intros p o Hp. apply Hrem.
      apply elem_of_resting; [done|]. exists s, pr, q. split; [|done].
      by apply (map_at_sorted_elem_of (before s)); [apply wf_sorted|]. }
    assert (length q ≤ length (resting st))%nat as Hlen.
    { unfold resting. rewrite length_app.
      assert (q ∈ (book s st).*2) as Hq2.
      { apply list_elem_of_fmap. by exists (pr, q). }
      apply length_concat_elem in Hq2. destruct s; simpl in Hq2; lia. }
    change Quantity_modulus with 4294967296%N. lia. }
  unfold snapshot_of.
  pose proof (wrapped_exact _ _ (Hsmall Buy)) as Hb.
  pose proof (wrapped_exact _ _ (Hsmall Sell)) as Ha.
  cbn [book] in Hb, Ha. by rewrite Hb, Ha.
Qed.

Lemma main_turn_inv d n w :
  in_range d → (n < 5000)%nat → driver_inv n w →
  ∃ w', main_turn d w = Ret w' ∧ driver_inv (S n) w' ∧
        orders_ (orderbook w) !! currentId w = None ∧
        last (output w') = Some (BookPrinted (snapshot_of (orderbook w'))).
Proof.
  intros (Hside & Htype & Hprice & Hqty) Hn (Hreach & Hc & Hids & Hsize & Hrem).
  pose proof (reachable_wf _ Hreach) as [Hwf Hun].
  assert (orders_ (orderbook w) !! currentId w = None) as Hid.
  { destruct (orders_ (orderbook w) !! currentId w) eqn:E; [|done].
    assert (currentId w < currentId w)%N by (apply Hids; by eexists). lia. }
  cbv beta iota zeta delta [main_turn GenerateOrderId make_shared].
  set (side := if sideDraw d =? 0 then Buy else Sell).
  set (type := if typeDraw d =? 0 then GoodTillCancel else FillAndKill).
  set (qty := Z.to_N (qtyDraw d mod 2 ^ 32)).
  assert (qty ≤ 1000)%N as Hq.
  { unfold qty. rewrite Z.mod_small by lia. lia. }
  set (new := Order_new type (currentId w) side (priceDraw d) qty).
  set (order := fresh (dom (heap (orderbook w)))).
  set (st1 := mkState (<[order := new]> (heap (orderbook w)))
                (bids_ (orderbook w)) (asks_ (orderbook w))
                (orders_ (orderbook w))).
  assert (wf st1) as Hwf1 by apply (make_shared_wf new _ Hwf).
  assert (reachable st1) as Hreach1.
  { eapply rtc_r; [exact Hreach|]. apply (step_make_shared new). }
  assert (heap st1 !! order = Some new) as Ho1 by apply lookup_insert_eq.
  destruct (AddOrder_wf st1 order new Hwf1 Ho1) as (ts & st2 & Hadd & Hwf2 & _).
  assert (reachable st2) as Hreach2.
  { eapply rtc_r; [exact Hreach1|]. by eapply step_AddOrder. }
  pose proof (AddOrder_index st1 order new ts st2 Hwf1 Ho1 Hid Hadd) as Hidx.
  cbn [orders_ st1 GetOrderId new Order_new orderId_] in Hidx.
  assert (size (orders_ st2) ≤ S n)%nat as Hsize2.
  { apply map_subseteq_size in Hidx.
    rewrite map_size_insert_None in Hidx by done. lia. }
  assert (∀ p o, p ∈ resting st2 → heap st2 !! p = Some o →
                 (GetRemainingQuantity o ≤ 1000)%N) as Hrem2.
  { apply (AddOrder_remaining st1 order new ts); [done..|].
    intros p o Hp Ho. apply (Hrem p); [done|].
    rewrite <-Ho. symmetry. apply lookup_insert_ne. intros <-.
    apply (not_resting_dead (orderbook w) order Hwf); [|exact Hp].
    apply not_elem_of_dom, is_fresh. }
  rewrite Hadd. run_bind. cbn [fst snd].
  rewrite (GetOrderInfos_exact st2) by (done || lia). run_bind. cbn [fst snd].
  eexists. split; [reflexivity|]. split_and!; [split_and!|done|].
  - done.
  - cbn [currentId]. rewrite Hc. unfold initial_currentId.
    change OrderId_modulus with 18446744073709551616%N.
    rewrite N.mod_small by lia. lia.
  - cbn [orderbook currentId]. intros id [e He].
    change OrderId_modulus with 18446744073709551616%N.
    rewrite N.mod_small by (rewrite Hc; unfold initial_currentId; lia).
    pose proof (proj1 (map_subseteq_spec _ _) Hidx id e He) as He'.
    apply lookup_insert_Some in He' as [[<- _]|[_ He']]; [lia|].
    assert (id < currentId w)%N by (apply Hids; by eexists). lia.
  - done.
  - done.
  - cbn [output orderbook]. by rewrite app_comm_cons, app_assoc, last_snoc.
Qed.

Lemma main_loop_inv rng n i w :
  (∀ j, in_range (rng j)) → (i + n ≤ 5000)%nat → driver_inv i w →
  ∃ w', main_loop rng i n w = Ret w' ∧ driver_inv (i + n) w' ∧
        (n ≠ O →
         last (output w') = Some (BookPrinted (snapshot_of (orderbook w')))).
Proof.
  intros Hrng. revert i w. induction n as [|n IH]; intros i w Hle Hinv.
  - exists w. rewrite Nat.add_0_r. by split_and!.
  - destruct (main_turn_inv (rng i) i w (Hrng i)) as (w1 & Hturn & Hinv1 & _ & Hlast);
      [lia|done|].
    destruct (IH (S i) w1) as (w' & Hloop & Hinv' & Hlast'); [lia|done|].
    exists w'. simpl. rewrite Hturn. run_bind.
    replace (i + S n)%nat with (S i + n)%nat by lia.
    split_and!; [done..|]. intros _.
    destruct n; [|by apply Hlast'].
    simpl in Hloop. by simplify_eq.
Qed.

Lemma driver_inv_initial : driver_inv 0 initial_driver.
Proof.
  split_and!; simpl.
  - apply rtc_refl.
  - unfold initial_currentId. lia.
  - intros id [e He]. by rewrite lookup_empty in He.
  - by rewrite map_size_empty.
  - intros p o Hp. by apply elem_of_nil in Hp.
Qed.

(** X10. Whatever numbers the generator hands to the four distributions
    within their ranges, the first [n] turns of the driver's loop
    ([n ≤ 5000]) return: no call throws.  The book is then one the engine
    can reach, the counter stands at [1000 + n], the next id is not in the
    index (the duplicate test of [AddOrder] never fires), and the snapshot
    written last is the exact one: no level total has wrapped.  The whole
    of [main] returns too, and ends its output with the exact final
    snapshot. *)
Theorem main_returns (rng : nat → Draws) (n : nat) :
  (∀ i, in_range (rng i)) → (n ≤ 5000)%nat →
  (∃ w,
     main_loop rng 0 n initial_driver = Ret w ∧
     reachable (orderbook w) ∧
     currentId w = (1000 + N.of_nat n)%N ∧
     orders_ (orderbook w) !! currentId w = None ∧
     (size (orders_ (orderbook w)) ≤ n)%nat ∧
     (n ≠ O →
      last (output w) = Some (BookPrinted (snapshot_of (orderbook w))))) ∧
  ∃ w, main_loop rng 0 5000 initial_driver = Ret w ∧
       main rng = Ret (output w ++ [FinalState (snapshot_of (orderbook w))]).
Proof.
  intros Hrng Hn.
  assert (∀ m, (m ≤ 5000)%nat →
    ∃ w, main_loop rng 0 m initial_driver = Ret w ∧ driver_inv m w ∧
         orders_ (orderbook w) !! currentId w = None ∧
         (m ≠ O →
          last (output w) = Some (BookPrinted (snapshot_of (orderbook w)))))
    as Hrun.
  { intros m Hm.
    destruct (main_loop_inv rng m 0 initial_driver Hrng) as (w & Hloop & Hinv & Hlast);
      [lia|apply driver_inv_initial|].
    exists w. split_and!; [done..| |done].
    destruct Hinv as (_ & _ & Hids & _).
    destruct (orders_ (orderbook w) !! currentId w) eqn:E; [|done].
    assert (currentId w < currentId w)%N by (apply Hids; by eexists). lia. }
  split.
  - destruct (Hrun n Hn) as (w & Hloop & (Hreach & Hc & _ & Hsize & _) & Hid & Hlast).
    exists w. by split_and!.
  - destruct (Hrun 5000%nat) as (w & Hloop & (Hreach & _ & _ & Hsize & Hrem) & _);
      [lia|].
    exists w. split; [done|].
    pose proof (reachable_wf _ Hreach) as [Hwf _].
    unfold main. rewrite Hloop. run_bind.
    by rewrite (GetOrderInfos_exact (orderbook w)).
Qed.

Lemma main_returns_witness :
  ∃ w,
    main_loop (λ i, mkDraws (Z.of_nat i mod 2) 0 100 10) 0 2 initial_driver
      = Ret w ∧
    currentId w = 1002%N ∧ orders_ (orderbook w) !! 1002%N = None.
Proof.
  destruct (main_returns (λ i, mkDraws (Z.of_nat i mod 2) 0 100 10) 2)
    as [(w & Hloop & _ & Hc & Hid & _) _].
  - intros i. unfold in_range. cbn [sideDraw typeDraw priceDraw qtyDraw].
    pose proof (Z.mod_pos_bound (Z.of_nat i) 2). lia.
  - lia.
  - exists w. rewrite Hc in Hid. split_and!; [exact Hloop|exact Hc|exact Hid].
Defined.
